(** * Metadata parsing engine of the music player: a shallow embedding

    The development follows the JavaScript source of the metadata engine
    (classes [MusicMetadataExtractor] and [M4AParser]).  An [ArrayBuffer] is a
    list of bytes, a [DataView] read is a bounds-checked list access that may
    raise [RangeError], integers are [Z] with the 32-bit conversions of the
    JavaScript bit operators written out, JavaScript numbers that hold a
    quotient are binary64 floats, and strings are sequences of UTF-16 code
    units.  Every [while] loop is a structurally recursive function on an
    explicit iteration budget; running out of budget is a separate outcome,
    so that termination is a theorem and not an artefact of the model. *)

From Stdlib Require Import ZArith List Bool Lia String Ascii.
From Stdlib.Strings Require Import Byte.
From Stdlib Require Import Floats.
Import ListNotations.
Open Scope Z_scope.

Set Implicit Arguments.

(** ** Outcomes of a JavaScript computation *)

Inductive exn : Type :=
| RangeError      (* a DataView read outside the buffer *)
| ReferenceError. (* an identifier that is bound nowhere *)

Inductive outcome (A : Type) : Type :=
| Ret (a : A)
| Throw (e : exn)
| OutOfFuel.

Arguments Ret {A} a.
Arguments Throw {A} e.
Arguments OutOfFuel {A}.

Definition bind {A B : Type} (m : outcome A) (k : A -> outcome B) : outcome B :=
  match m with
  | Ret a => k a
  | Throw e => Throw e
  | OutOfFuel => OutOfFuel
  end.

Notation "x <- m ;; k" := (bind m (fun x => k))
  (at level 61, m at next level, right associativity).
Notation "' p <- m ;; k" := (bind m (fun p => k))
  (at level 61, p pattern, m at next level, right associativity).

(** [try { m } catch { h }]: only a thrown exception reaches the handler. *)
Definition try_catch {A : Type} (m : outcome A) (h : exn -> outcome A) : outcome A :=
  match m with
  | Throw e => h e
  | other => other
  end.

(** What a loop body tells its loop. *)
Inductive ctl (S : Type) : Type :=
| Continue (s : S)
| Break (s : S).

Arguments Continue {S} s.
Arguments Break {S} s.

(** [while (cond) { body }] over a state [S], with an iteration budget. *)
Fixpoint while_loop {S : Type} (cond : S -> bool) (body : S -> outcome (ctl S))
    (fuel : nat) (s : S) : outcome S :=
  match fuel with
  | O => OutOfFuel
  | Datatypes.S fuel' =>
      if cond s then
        match body s with
        | Ret (Continue s') => while_loop cond body fuel' s'
        | Ret (Break s') => Ret s'
        | Throw e => Throw e
        | OutOfFuel => OutOfFuel
        end
      else Ret s
  end.

(** ** ArrayBuffer and DataView *)

Definition ArrayBuffer := list byte.

Definition u8 (b : byte) : Z := Z.of_N (Byte.to_N b).

Definition byteLength (buf : ArrayBuffer) : Z := Z.of_nat (List.length buf).

Definition byte_at (buf : ArrayBuffer) (i : Z) : Z :=
  u8 (nth (Z.to_nat i) buf x00).

(** [view.getUint8(off)] *)
Definition getUint8 (buf : ArrayBuffer) (off : Z) : outcome Z :=
  if (0 <=? off) && (off + 1 <=? byteLength buf)
  then Ret (byte_at buf off)
  else Throw RangeError.

(** [view.getUint16(off)], big-endian as the source passes no flag. *)
Definition getUint16 (buf : ArrayBuffer) (off : Z) : outcome Z :=
  if (0 <=? off) && (off + 2 <=? byteLength buf)
  then Ret (byte_at buf off * 256 + byte_at buf (off + 1))
  else Throw RangeError.

(** [view.getUint32(off)], big-endian as the source passes no flag. *)
Definition getUint32 (buf : ArrayBuffer) (off : Z) : outcome Z :=
  if (0 <=? off) && (off + 4 <=? byteLength buf)
  then Ret (byte_at buf off * 16777216 + byte_at buf (off + 1) * 65536
            + byte_at buf (off + 2) * 256 + byte_at buf (off + 3))
  else Throw RangeError.

(** [buffer.slice(b, e)]: relative indices, clamped to the buffer. *)
Definition clamp_index (len i : Z) : Z :=
  if i <? 0 then Z.max (len + i) 0 else Z.min i len.

Definition slice (buf : ArrayBuffer) (b e : Z) : ArrayBuffer :=
  let len := byteLength buf in
  let first := clamp_index len b in
  let final := clamp_index len e in
  firstn (Z.to_nat (Z.max (final - first) 0)) (skipn (Z.to_nat first) buf).

(** ** 32-bit integer operators *)

Definition toInt32 (z : Z) : Z := (z + 2147483648) mod 4294967296 - 2147483648.

Definition js_shl (a n : Z) : Z := toInt32 (Z.shiftl (toInt32 a) (n mod 32)).
Definition js_shr (a n : Z) : Z := Z.shiftr (toInt32 a) (n mod 32).
Definition js_or (a b : Z) : Z := Z.lor (toInt32 a) (toInt32 b).
Definition js_and (a b : Z) : Z := Z.land (toInt32 a) (toInt32 b).

(** ** Numbers that hold a quotient *)

Definition number := float.

(** The number an integer is; exact below 2^53 in absolute value, which
    covers every integer the parsers divide or multiply. *)
Definition num_of_Z (z : Z) : number :=
  if z <? 0 then PrimFloat.opp (PrimFloat.of_uint63 (Uint63.of_Z (- z)))
  else PrimFloat.of_uint63 (Uint63.of_Z z).

Definition num_div (a b : Z) : number := PrimFloat.div (num_of_Z a) (num_of_Z b).

Definition num_mul (a b : Z) : number := PrimFloat.mul (num_of_Z a) (num_of_Z b).

(** ** Strings: sequences of UTF-16 code units *)

Definition jsstring := list Z.

(** An ASCII literal of the source. *)
Definition lit (s : string) : jsstring :=
  map (fun c => Z.of_N (N_of_ascii c)) (list_ascii_of_string s).

Fixpoint jsstring_eqb (a b : jsstring) : bool :=
  match a, b with
  | [], [] => true
  | x :: a', y :: b' => (x =? y) && jsstring_eqb a' b'
  | _, _ => false
  end.

(** [a || b] where [a] is null, undefined or a string: the empty string is
    falsy like null. *)
Definition or_str (a : option jsstring) (b : jsstring) : jsstring :=
  match a with
  | Some (c :: s) => c :: s
  | _ => b
  end.

(** White space and line terminators removed by [String.prototype.trim]. *)
Definition is_js_space (c : Z) : bool :=
  ((9 <=? c) && (c <=? 13)) || (c =? 32) || (c =? 160) || (c =? 5760)
  || ((8192 <=? c) && (c <=? 8202)) || (c =? 8232) || (c =? 8233)
  || (c =? 8239) || (c =? 8287) || (c =? 12288) || (c =? 65279).

Fixpoint trim_start (s : jsstring) : jsstring :=
  match s with
  | c :: r => if is_js_space c then trim_start r else s
  | [] => []
  end.

Definition trim (s : jsstring) : jsstring :=
  rev (trim_start (rev (trim_start s))).

(** [s.replace(/\0/g, '')] *)
Definition remove_nul (s : jsstring) : jsstring :=
  filter (fun c => negb (c =? 0)) s.

(** [s.split(sep)] for a separator that matches exactly one code unit. *)
Fixpoint split_by (p : Z -> bool) (s : jsstring) : list jsstring :=
  match s with
  | [] => [[]]
  | c :: r =>
      if p c then [] :: split_by p r
      else match split_by p r with
           | h :: t => (c :: h) :: t
           | [] => [[c]]
           end
  end.

(** Case conversion, written out on the ASCII letters and on the code
    points whose Unicode mapping lands in the ASCII letters; every other code
    unit is kept, which is not what the platform does with the letters of
    other alphabets.  The two functions are therefore exact on text of ASCII
    characters, and on any text as far as the comparison of the result with
    an ASCII literal goes, which is all the parser does with a lower-cased
    string.  The one converted string that is an output, the format field of
    the record, is stated below for extensions of ASCII characters only. *)
Definition lower_unit (c : Z) : jsstring :=
  if (65 <=? c) && (c <=? 90) then [c + 32]
  else if c =? 8490 then [107]          (* KELVIN SIGN *)
  else if c =? 304 then [105; 775]      (* I WITH DOT ABOVE *)
  else [c].

Definition toLowerCase (s : jsstring) : jsstring := flat_map lower_unit s.

Definition upper_unit (c : Z) : jsstring :=
  if (97 <=? c) && (c <=? 122) then [c - 32]
  else if c =? 305 then [73]            (* dotless i *)
  else if c =? 383 then [83]            (* long s *)
  else if c =? 223 then [83; 83]        (* sharp s *)
  else if c =? 64256 then [70; 70]      (* ligatures ff, fi, fl, ffi, ffl *)
  else if c =? 64257 then [70; 73]
  else if c =? 64258 then [70; 76]
  else if c =? 64259 then [70; 70; 73]
  else if c =? 64260 then [70; 70; 76]
  else if (c =? 64261) || (c =? 64262) then [83; 84]  (* ligatures st *)
  else [c].

Definition toUpperCase (s : jsstring) : jsstring := flat_map upper_unit s.

(** *** The UTF-8 decoder of [new TextDecoder()] (not fatal, BOM removed) *)

Record utf8_state : Type := MkUtf8 {
  u_cp : Z; u_seen : Z; u_needed : Z; u_lower : Z; u_upper : Z
}.

Definition utf8_init : utf8_state := MkUtf8 0 0 0 128 191.

(** A byte met when no sequence is open. *)
Definition utf8_start (v : Z) : list Z * utf8_state :=
  if v <=? 127 then ([v], utf8_init)
  else if (194 <=? v) && (v <=? 223) then ([], MkUtf8 (Z.land v 31) 0 1 128 191)
  else if (224 <=? v) && (v <=? 239) then
    ([], MkUtf8 (Z.land v 15) 0 2 (if v =? 224 then 160 else 128)
                (if v =? 237 then 159 else 191))
  else if (240 <=? v) && (v <=? 244) then
    ([], MkUtf8 (Z.land v 7) 0 3 (if v =? 240 then 144 else 128)
                (if v =? 244 then 143 else 191))
  else ([65533], utf8_init).

Fixpoint utf8_run (bs : list byte) (st : utf8_state) : list Z :=
  match bs with
  | [] => if u_needed st =? 0 then [] else [65533]
  | b :: r =>
      let v := u8 b in
      if u_needed st =? 0 then
        let (out, st') := utf8_start v in out ++ utf8_run r st'
      else if (v <? u_lower st) || (u_upper st <? v) then
        let (out, st') := utf8_start v in 65533 :: out ++ utf8_run r st'
      else
        let cp := u_cp st * 64 + Z.land v 63 in
        if u_seen st + 1 =? u_needed st then cp :: utf8_run r utf8_init
        else utf8_run r (MkUtf8 cp (u_seen st + 1) (u_needed st) 128 191)
  end.

(** A code point as one or two UTF-16 code units. *)
Definition utf16_units (cp : Z) : jsstring :=
  if cp <? 65536 then [cp]
  else [55296 + (cp - 65536) / 1024; 56320 + (cp - 65536) mod 1024].

Definition strip_bom (cps : list Z) : list Z :=
  match cps with
  | 65279 :: r => r
  | _ => cps
  end.

Definition utf8_decode (bs : list byte) : jsstring :=
  flat_map utf16_units (strip_bom (utf8_run bs utf8_init)).

(** [new TextDecoder('utf-16be')]: code units from byte pairs, an odd last
    byte and unpaired surrogates replaced by U+FFFD. *)
Fixpoint utf16be_units (bs : list byte) : list Z :=
  match bs with
  | hi :: lo :: r => (u8 hi * 256 + u8 lo) :: utf16be_units r
  | [_] => [65533]
  | [] => []
  end.

Definition is_high_surrogate (c : Z) : bool := (55296 <=? c) && (c <=? 56319).
Definition is_low_surrogate (c : Z) : bool := (56320 <=? c) && (c <=? 57343).

Fixpoint fix_surrogates (pending : option Z) (s : list Z) : list Z :=
  match s with
  | [] => match pending with Some _ => [65533] | None => [] end
  | c :: r =>
      match pending with
      | Some h =>
          if is_low_surrogate c then h :: c :: fix_surrogates None r
          else if is_high_surrogate c then 65533 :: fix_surrogates (Some c) r
          else 65533 :: c :: fix_surrogates None r
      | None =>
          if is_high_surrogate c then fix_surrogates (Some c) r
          else if is_low_surrogate c then 65533 :: fix_surrogates None r
          else c :: fix_surrogates None r
      end
  end.

Definition utf16be_decode (bs : list byte) : jsstring :=
  strip_bom (fix_surrogates None (utf16be_units bs)).

(** *** [btoa] on the binary string of a byte array *)

Definition b64_char (n : Z) : Z :=
  if n <? 26 then 65 + n
  else if n <? 52 then 97 + (n - 26)
  else if n <? 62 then 48 + (n - 52)
  else if n =? 62 then 43 else 47.

Fixpoint btoa (l : list Z) : jsstring :=
  match l with
  | a :: b :: c :: r =>
      b64_char (a / 4) :: b64_char (a mod 4 * 16 + b / 16)
        :: b64_char (b mod 16 * 4 + c / 64) :: b64_char (c mod 64) :: btoa r
  | [a; b] =>
      [b64_char (a / 4); b64_char (a mod 4 * 16 + b / 16); b64_char (b mod 16 * 4); 61]
  | [a] => [b64_char (a / 4); b64_char (a mod 4 * 16); 61; 61]
  | [] => []
  end.

(** [arrayBufferToBase64(buffer)], the same method in both classes: the
    bytes become a binary string, one code unit per byte, which [btoa]
    encodes. *)
Definition arrayBufferToBase64 (buffer : ArrayBuffer) : jsstring :=
  btoa (map u8 buffer).

(** ** The metadata record *)

Record Metadata : Type := MkMetadata {
  title : jsstring;
  artist : jsstring;
  album : jsstring;
  duration : number;
  cover : option jsstring;      (* null, or the string the parser stored *)
  coverType : option jsstring;  (* null, or a MIME string *)
  format : jsstring;
  filePath : jsstring
}.

Definition set_title (m : Metadata) (v : jsstring) : Metadata :=
  MkMetadata v (artist m) (album m) (duration m) (cover m) (coverType m) (format m) (filePath m).
Definition set_artist (m : Metadata) (v : jsstring) : Metadata :=
  MkMetadata (title m) v (album m) (duration m) (cover m) (coverType m) (format m) (filePath m).
Definition set_album (m : Metadata) (v : jsstring) : Metadata :=
  MkMetadata (title m) (artist m) v (duration m) (cover m) (coverType m) (format m) (filePath m).
Definition set_duration (m : Metadata) (v : number) : Metadata :=
  MkMetadata (title m) (artist m) (album m) v (cover m) (coverType m) (format m) (filePath m).
Definition set_cover (m : Metadata) (c t : option jsstring) : Metadata :=
  MkMetadata (title m) (artist m) (album m) (duration m) c t (format m) (filePath m).

(** The object a picture reader returns: [{ data, mime }]. *)
Record CoverData : Type := MkCoverData {
  data : jsstring;
  mime : jsstring
}.

(** ** File names *)

(** The text after the last full stop, when there is one. *)
Fixpoint after_last_dot (s : jsstring) : option jsstring :=
  match s with
  | [] => None
  | c :: r =>
      match after_last_dot r with
      | Some t => Some t
      | None => if c =? 46 then Some r else None
      end
  end.

(** [filePath.match(/\.[^.]+$/)]: the last full stop and what follows it,
    provided something follows it. *)
Definition getFileExtension (filePath : jsstring) : jsstring :=
  match after_last_dot filePath with
  | Some (c :: t) => 46 :: c :: t
  | _ => []
  end.

(** [this.supportedFormats] and [isFormatSupported(filePath)] *)
Definition supportedFormats : list jsstring :=
  [lit ".mp3"; lit ".flac"; lit ".m4a"; lit ".wav"].

Definition isFormatSupported (filePath : jsstring) : bool :=
  let ext := toLowerCase (getFileExtension filePath) in
  existsb (jsstring_eqb ext) supportedFormats.

(** [fileName.replace(/\.[^.]+$/, '')] *)
Definition strip_extension (fileName : jsstring) : jsstring :=
  firstn (List.length fileName - List.length (getFileExtension fileName)) fileName.

Definition is_path_separator (c : Z) : bool := (c =? 92) || (c =? 47).

Definition unknown_song : jsstring := [26410; 30693; 27468; 26354].
Definition unknown_artist : jsstring := [26410; 30693; 33402; 26415; 23478].
Definition unknown_album : jsstring := [26410; 30693; 19987; 36753].

Definition getDefaultTitle (filePath : jsstring) : jsstring :=
  let fileName := last (split_by is_path_separator filePath) [] in
  let withoutExt := strip_extension fileName in
  or_str (Some withoutExt) unknown_song.

(** [ext.replace('.', '')]: the first full stop only. *)
Fixpoint remove_first_dot (s : jsstring) : jsstring :=
  match s with
  | [] => []
  | c :: r => if c =? 46 then r else c :: remove_first_dot r
  end.

Definition defaultMetadata (filePath : jsstring) : Metadata :=
  let ext := toLowerCase (getFileExtension filePath) in
  {| title := getDefaultTitle filePath;
     artist := unknown_artist;
     album := unknown_album;
     duration := num_of_Z 0;
     cover := None;
     coverType := None;
     format := toUpperCase (remove_first_dot ext);
     filePath := filePath |}.

(** ** Readers shared by the format parsers *)

(** The bytes a sequence of [getUint8] reads starting at [off] can see. *)
Definition bytes_from (buf : ArrayBuffer) (off : Z) : list byte :=
  if (0 <=? off) && (off <=? byteLength buf) then skipn (Z.to_nat off) buf else [].

(** The methods [readString], [readTextFrame] and [readAPICFrame] of the
    extractor mention [audioData], which is neither a parameter nor a local
    of theirs, nor a global of the page (the only declaration is a local
    constant of the player's song loader): evaluating it raises
    [ReferenceError]. *)
Definition audioData_unbound : outcome ArrayBuffer := Throw ReferenceError.

(** [readSyncsafeInt(view, offset)] *)
Definition readSyncsafeInt (buf : ArrayBuffer) (offset : Z) : outcome Z :=
  b0 <- getUint8 buf offset ;;
  b1 <- getUint8 buf (offset + 1) ;;
  b2 <- getUint8 buf (offset + 2) ;;
  b3 <- getUint8 buf (offset + 3) ;;
  Ret (js_or (js_or (js_or (js_shl b0 21) (js_shl b1 14)) (js_shl b2 7)) b3).

(** The Latin-1 loop of [readString]: [n] code units at most, up to a NUL;
    [rest] is what [getUint8] can still read. *)
Fixpoint latin1_loop (rest : list byte) (n : Z) (acc : jsstring) : outcome jsstring :=
  if n <=? 0 then Ret acc
  else match rest with
       | [] => Throw RangeError
       | b :: rest' =>
           if u8 b =? 0 then Ret acc
           else latin1_loop rest' (n - 1) (acc ++ [u8 b])
       end.

(** [readString(view, offset, length)] of the extractor. *)
Definition readString (buf : ArrayBuffer) (offset length : Z) : outcome jsstring :=
  if length <=? 0 then Ret []
  else
    try_catch
      (audioData <- audioData_unbound ;;
       Ret (trim (remove_nul (utf8_decode (slice audioData offset (offset + length))))))
      (fun _ =>
         result <- latin1_loop (bytes_from buf offset) length [] ;;
         Ret (trim result)).

(** [readTextFrame(view, offset, size)]; [None] is null. *)
Definition readTextFrame (buf : ArrayBuffer) (offset size : Z) : outcome (option jsstring) :=
  if size <=? 1 then Ret None
  else
    encoding <- getUint8 buf offset ;;
    text <- readString buf (offset + 1) (size - 1) ;;
    try_catch
      (audioData <- audioData_unbound ;;
       let bytes := slice audioData (offset + 1) (offset + size) in
       Ret (Some (if encoding =? 1 then utf16be_decode bytes else utf8_decode bytes)))
      (fun _ => Ret (Some text)).

(** [while (p < limit && view.getUint8(p) !== 0) p++] *)
Fixpoint scan_nul (rest : list byte) (p limit : Z) : outcome Z :=
  if p <? limit then
    match rest with
    | [] => Throw RangeError
    | b :: rest' => if u8 b =? 0 then Ret p else scan_nul rest' (p + 1) limit
    end
  else Ret p.

(** [readAPICFrame(view, offset, size)]; [None] is null. *)
Definition readAPICFrame (buf : ArrayBuffer) (offset size : Z) : outcome (option CoverData) :=
  if size <=? 4 then Ret None
  else
    try_catch
      (let pos := offset + 1 in
       mimeEnd <- scan_nul (bytes_from buf pos) pos (offset + size - 1) ;;
       mime <- readString buf pos (mimeEnd - pos) ;;
       let pos := mimeEnd + 1 in
       let pos := pos + 1 in
       pos <- scan_nul (bytes_from buf pos) pos (offset + size - 1) ;;
       let pos := pos + 1 in
       let imageSize := offset + size - pos in
       audioData <- audioData_unbound ;;
       let imageData := slice audioData pos (pos + imageSize) in
       Ret (Some {| data := arrayBufferToBase64 imageData;
                    mime := or_str (Some mime) (lit "image/jpeg") |}))
      (fun _ => Ret None).

(** [estimateMP3Duration(audioData, dataOffset)]: [bitrate / 8] is 16000. *)
Definition estimateMP3Duration (buf : ArrayBuffer) (dataOffset : Z) : number :=
  num_div (byteLength buf - dataOffset) 16000.

(** ** MP3: the ID3v2 frame loop *)

Definition mp3_state : Type := (Z * Metadata)%type.

Definition frame_header_size (version : Z) : Z := if version >=? 3 then 10 else 6.

Definition mp3_cond (endOffset : Z) (s : mp3_state) : bool :=
  fst s <? endOffset - 10.

Definition mp3_body (buf : ArrayBuffer) (version endOffset : Z) (s : mp3_state)
  : outcome (ctl mp3_state) :=
  let '(offset, metadata) := s in
  c0 <- getUint8 buf offset ;;
  c1 <- getUint8 buf (offset + 1) ;;
  c2 <- getUint8 buf (offset + 2) ;;
  c3 <- getUint8 buf (offset + 3) ;;
  let frameId := [c0; c1; c2; c3] in
  frameSize <- (if version >=? 3 then getUint32 buf (offset + 4)
                else readSyncsafeInt buf (offset + 4)) ;;
  if (frameSize <=? 0) || (offset + frameSize >? endOffset) then Ret (Break s)
  else
    let frameDataOffset := offset + frame_header_size version in
    metadata' <-
      (if jsstring_eqb frameId (lit "TIT2") then
         t <- readTextFrame buf frameDataOffset (frameSize - 1) ;;
         Ret (set_title metadata (or_str t (title metadata)))
       else if jsstring_eqb frameId (lit "TPE1") then
         t <- readTextFrame buf frameDataOffset (frameSize - 1) ;;
         Ret (set_artist metadata (or_str t (artist metadata)))
       else if jsstring_eqb frameId (lit "TALB") then
         t <- readTextFrame buf frameDataOffset (frameSize - 1) ;;
         Ret (set_album metadata (or_str t (album metadata)))
       else if jsstring_eqb frameId (lit "APIC") then
         coverData <- readAPICFrame buf frameDataOffset frameSize ;;
         match coverData with
         | Some cd => Ret (set_cover metadata (Some (data cd)) (Some (mime cd)))
         | None => Ret metadata
         end
       else Ret metadata) ;;
    Ret (Continue (offset + (frame_header_size version + frameSize), metadata')).

(** The test [b0 === 0x49 && b1 === 0x44 && b2 === 0x33], left to right. *)
Definition has_id3_magic (buf : ArrayBuffer) : outcome bool :=
  b0 <- getUint8 buf 0 ;;
  if b0 =? 73 then
    b1 <- getUint8 buf 1 ;;
    if b1 =? 68 then
      b2 <- getUint8 buf 2 ;;
      Ret (b2 =? 51)
    else Ret false
  else Ret false.

Definition parseMP3 (fuel : nat) (buf : ArrayBuffer) (defaults : Metadata)
  : outcome Metadata :=
  let metadata := defaults in
  id3 <- has_id3_magic buf ;;
  if id3 then
    version <- getUint8 buf 3 ;;
    flags <- getUint8 buf 5 ;;
    size <- readSyncsafeInt buf 6 ;;
    let offset := 10 in
    let endOffset := offset + size in
    offset <- (if js_and flags 64 =? 0 then Ret offset
               else extSize <- getUint32 buf offset ;; Ret (offset + extSize)) ;;
    s <- while_loop (mp3_cond endOffset) (mp3_body buf version endOffset) fuel
           (offset, metadata) ;;
    Ret (set_duration (snd s) (estimateMP3Duration buf endOffset))
  else Ret metadata.

(** ** FLAC: the metadata block loop *)

(** The object [parseVorbisComments] fills; [None] is null. *)
Record VorbisResult : Type := MkVorbis {
  v_title : option jsstring;
  v_artist : option jsstring;
  v_album : option jsstring
}.

Definition vorbis_empty : VorbisResult := MkVorbis None None None.

Definition nonempty (s : jsstring) : bool :=
  match s with [] => false | _ :: _ => true end.

(** The effect of one decoded comment on the result:
    [const [key, value] = comment.split('=')] and the assignments under
    [if (key && value)]. *)
Definition vorbis_assign (result : VorbisResult) (comment : jsstring) : VorbisResult :=
  match split_by (fun c => c =? 61) comment with
  | key :: value :: _ =>
      if nonempty key && nonempty value then
        let upperKey := toUpperCase key in
        if jsstring_eqb upperKey (lit "TITLE") then
          MkVorbis (Some value) (v_artist result) (v_album result)
        else if jsstring_eqb upperKey (lit "ARTIST") then
          MkVorbis (v_title result) (Some value) (v_album result)
        else if jsstring_eqb upperKey (lit "ALBUM") then
          MkVorbis (v_title result) (v_artist result) (Some value)
        else result
      else result
  | _ => result
  end.

(** Loop state of [parseVorbisComments]: [i], [pos] and the result object. *)
Definition vorbis_state : Type := (Z * Z * VorbisResult)%type.

Definition vorbis_cond (commentCount limit : Z) (s : vorbis_state) : bool :=
  let '(i, pos, _) := s in (i <? commentCount) && (pos <? limit).

(** One round of the [for] loop.  The only statement of the round that can
    throw is the first read, before the round has touched the result, and the
    [catch] clause around the loop then returns the result object as the
    earlier rounds left it: the round ends the loop with its state unchanged. *)
Definition vorbis_body (buf : ArrayBuffer) (s : vorbis_state) : outcome (ctl vorbis_state) :=
  let '(i, pos, result) := s in
  try_catch
    (commentLength <- getUint32 buf pos ;;
     let pos := pos + 4 in
     let commentData := slice buf pos (pos + commentLength) in
     let comment := utf8_decode commentData in
     Ret (Continue (i + 1, pos + commentLength, vorbis_assign result comment)))
    (fun _ => Ret (Break s)).

(** [parseVorbisComments(audioData, offset, size)] *)
Definition parseVorbisComments (fuel : nat) (buf : ArrayBuffer) (offset size : Z)
  : outcome VorbisResult :=
  try_catch
    (let pos := offset in
     vendorLength <- getUint32 buf pos ;;
     let pos := pos + (4 + vendorLength) in
     commentCount <- getUint32 buf pos ;;
     let pos := pos + 4 in
     s <- while_loop (vorbis_cond commentCount (offset + size - 4)) (vorbis_body buf)
            fuel (0, pos, vorbis_empty) ;;
     Ret (snd s))
    (fun _ => Ret vorbis_empty).

(** [parseFLACPicture(audioData, offset, size)]; [None] is null. *)
Definition parseFLACPicture (buf : ArrayBuffer) (offset size : Z) : outcome (option CoverData) :=
  try_catch
    (let pos := offset in
     let pos := pos + 4 in
     mimeLength <- getUint32 buf pos ;;
     let pos := pos + 4 in
     mime <- readString buf pos mimeLength ;;
     let pos := pos + mimeLength in
     descLength <- getUint32 buf pos ;;
     let pos := pos + (4 + descLength) in
     let pos := pos + 16 in
     imageSize <- getUint32 buf pos ;;
     let pos := pos + 4 in
     let imageData := slice buf pos (pos + imageSize) in
     Ret (Some {| data := arrayBufferToBase64 imageData;
                  mime := or_str (Some mime) (lit "image/jpeg") |}))
    (fun _ => Ret None).

(** The two numbers the STREAMINFO branch computes from the words read at
    [blockDataOffset + 10] and [blockDataOffset + 13]. *)
Definition flac_sampleRate (w10 : Z) : Z := js_and (js_shr w10 12) 1048575.

Definition flac_totalSamples (w10 w13 : Z) : Z :=
  js_or (js_shl (js_and w13 15) 32) (js_shr w10 12).

(** [sampleRate > 0 ? totalSamples / sampleRate : 0] *)
Definition flac_duration (sampleRate totalSamples : Z) : number :=
  if sampleRate >? 0 then num_div totalSamples sampleRate else num_of_Z 0.

Definition flac_state : Type := (Z * Metadata)%type.

Definition flac_cond (buf : ArrayBuffer) (s : flac_state) : bool :=
  fst s <? byteLength buf.

Definition flac_body (fuel : nat) (buf : ArrayBuffer) (s : flac_state)
  : outcome (ctl flac_state) :=
  let '(offset, metadata) := s in
  blockHeader <- getUint8 buf offset ;;
  let isLast := negb (js_and blockHeader 128 =? 0) in
  let blockType := js_and blockHeader 127 in
  b1 <- getUint8 buf (offset + 1) ;;
  b2 <- getUint8 buf (offset + 2) ;;
  b3 <- getUint8 buf (offset + 3) ;;
  let blockSize := js_or (js_or (js_shl b1 16) (js_shl b2 8)) b3 in
  let blockDataOffset := offset + 4 in
  metadata' <-
    (if blockType =? 0 then
       w10 <- getUint32 buf (blockDataOffset + 10) ;;
       let sampleRate := flac_sampleRate w10 in
       w13 <- getUint32 buf (blockDataOffset + 13) ;;
       w10' <- getUint32 buf (blockDataOffset + 10) ;;
       let totalSamples := flac_totalSamples w10' w13 in
       Ret (set_duration metadata (flac_duration sampleRate totalSamples))
     else if blockType =? 4 then
       vorbisData <- parseVorbisComments fuel buf blockDataOffset blockSize ;;
       Ret (set_album
              (set_artist
                 (set_title metadata (or_str (v_title vorbisData) (title metadata)))
                 (or_str (v_artist vorbisData) (artist metadata)))
              (or_str (v_album vorbisData) (album metadata)))
     else if blockType =? 6 then
       pictureData <- parseFLACPicture buf blockDataOffset blockSize ;;
       match pictureData with
       | Some pd => Ret (set_cover metadata (Some (data pd)) (Some (mime pd)))
       | None => Ret metadata
       end
     else Ret metadata) ;;
  let offset := offset + (4 + blockSize) in
  if isLast then Ret (Break (offset, metadata'))
  else Ret (Continue (offset, metadata')).

Definition parseFLAC (fuel : nat) (buf : ArrayBuffer) (defaults : Metadata)
  : outcome Metadata :=
  let metadata := defaults in
  c0 <- getUint8 buf 0 ;;
  c1 <- getUint8 buf 1 ;;
  c2 <- getUint8 buf 2 ;;
  c3 <- getUint8 buf 3 ;;
  let signature := [c0; c1; c2; c3] in
  if negb (jsstring_eqb signature (lit "fLaC")) then Ret metadata
  else
    s <- while_loop (flac_cond buf) (flac_body fuel buf) fuel (4, metadata) ;;
    Ret (snd s).

(** ** WAV: the RIFF chunk loop *)

(** Loop state of [findWAVDataSize]: the offset and the value returned from
    inside the loop, once there is one. *)
Definition wavdata_state : Type := (Z * option Z)%type.

Definition wav_next_offset (offset chunkSize : Z) : Z :=
  let offset := offset + (8 + chunkSize) in
  if negb (chunkSize mod 2 =? 0) then offset + 1 else offset.

Definition wavdata_cond (fileSize : Z) (s : wavdata_state) : bool :=
  fst s <? fileSize - 8.

Definition wavdata_body (buf : ArrayBuffer) (s : wavdata_state) : outcome (ctl wavdata_state) :=
  let offset := fst s in
  c0 <- getUint8 buf offset ;;
  c1 <- getUint8 buf (offset + 1) ;;
  c2 <- getUint8 buf (offset + 2) ;;
  c3 <- getUint8 buf (offset + 3) ;;
  let chunkId := [c0; c1; c2; c3] in
  chunkSize <- getUint32 buf (offset + 4) ;;
  if jsstring_eqb chunkId (lit "data") then Ret (Break (offset, Some chunkSize))
  else Ret (Continue (wav_next_offset offset chunkSize, None)).

(** [findWAVDataSize(view, startOffset, fileSize)] *)
Definition findWAVDataSize (fuel : nat) (buf : ArrayBuffer) (startOffset fileSize : Z)
  : outcome Z :=
  s <- while_loop (wavdata_cond fileSize) (wavdata_body buf) fuel (startOffset, None) ;;
  match snd s with
  | Some chunkSize => Ret chunkSize
  | None => Ret 0
  end.

(** The object [parseWAVInfo] fills: the latest binding of a key comes
    first. *)
Definition InfoObject : Type := list (jsstring * jsstring).

Fixpoint info_get (info : InfoObject) (key : jsstring) : option jsstring :=
  match info with
  | [] => None
  | (k, v) :: r => if jsstring_eqb k key then Some v else info_get r key
  end.

Definition info_ids : list jsstring :=
  [lit "INAM"; lit "IART"; lit "IPRD"; lit "ICRD"; lit "IGNR"].

Definition wavinfo_state : Type := (Z * InfoObject)%type.

Definition wavinfo_cond (endOffset : Z) (s : wavinfo_state) : bool :=
  fst s <? endOffset - 8.

Definition wavinfo_body (buf : ArrayBuffer) (endOffset : Z) (s : wavinfo_state)
  : outcome (ctl wavinfo_state) :=
  let '(pos, info) := s in
  c0 <- getUint8 buf pos ;;
  c1 <- getUint8 buf (pos + 1) ;;
  c2 <- getUint8 buf (pos + 2) ;;
  c3 <- getUint8 buf (pos + 3) ;;
  let id := [c0; c1; c2; c3] in
  dataSize <- getUint32 buf (pos + 4) ;;
  if (dataSize <=? 0) || (pos + 8 + dataSize >? endOffset) then Ret (Break s)
  else
    info' <-
      (if existsb (jsstring_eqb id) info_ids then
         str <- readString buf (pos + 8) (Z.min (dataSize - 1) 256) ;;
         Ret ((id, str) :: info)
       else Ret info) ;;
    Ret (Continue (wav_next_offset pos dataSize, info')).

(** [parseWAVInfo(audioData, offset, size)] *)
Definition parseWAVInfo (fuel : nat) (buf : ArrayBuffer) (offset size : Z)
  : outcome InfoObject :=
  let endOffset := offset + size in
  s <- while_loop (wavinfo_cond endOffset) (wavinfo_body buf endOffset) fuel (offset, []) ;;
  Ret (snd s).

Definition wav_state : Type := (Z * Metadata)%type.

Definition wav_cond (buf : ArrayBuffer) (s : wav_state) : bool :=
  fst s <? byteLength buf - 8.

Definition wav_body (fuel : nat) (buf : ArrayBuffer) (s : wav_state)
  : outcome (ctl wav_state) :=
  let '(offset, metadata) := s in
  c0 <- getUint8 buf offset ;;
  c1 <- getUint8 buf (offset + 1) ;;
  c2 <- getUint8 buf (offset + 2) ;;
  c3 <- getUint8 buf (offset + 3) ;;
  let chunkId := [c0; c1; c2; c3] in
  chunkSize <- getUint32 buf (offset + 4) ;;
  metadata' <-
    (if jsstring_eqb chunkId (lit "fmt ") then
       numChannels <- getUint16 buf (offset + 10) ;;
       sampleRate <- getUint32 buf (offset + 12) ;;
       byteRate <- getUint32 buf (offset + 16) ;;
       bitsPerSample <- getUint16 buf (offset + 22) ;;
       dataChunkSize <- findWAVDataSize fuel buf (offset + 8 + chunkSize) (byteLength buf) ;;
       if (dataChunkSize >? 0) && (byteRate >? 0)
       then Ret (set_duration metadata (num_div dataChunkSize byteRate))
       else Ret metadata
     else if jsstring_eqb chunkId (lit "LIST") then
       l0 <- getUint8 buf (offset + 8) ;;
       l1 <- getUint8 buf (offset + 9) ;;
       l2 <- getUint8 buf (offset + 10) ;;
       l3 <- getUint8 buf (offset + 11) ;;
       let listType := [l0; l1; l2; l3] in
       if jsstring_eqb listType (lit "INFO") then
         infoData <- parseWAVInfo fuel buf (offset + 12) (chunkSize - 4) ;;
         Ret (set_album
                (set_artist
                   (set_title metadata
                      (or_str (info_get infoData (lit "INAM")) (title metadata)))
                   (or_str (info_get infoData (lit "IART")) (artist metadata)))
                (or_str (info_get infoData (lit "IPRD")) (album metadata)))
       else Ret metadata
     else Ret metadata) ;;
  Ret (Continue (wav_next_offset offset chunkSize, metadata')).

Definition parseWAV (fuel : nat) (buf : ArrayBuffer) (defaults : Metadata)
  : outcome Metadata :=
  let metadata := defaults in
  r0 <- getUint8 buf 0 ;;
  r1 <- getUint8 buf 1 ;;
  r2 <- getUint8 buf 2 ;;
  let riff := [r0; r1; r2] in
  if negb (jsstring_eqb riff (lit "RIF")) then Ret metadata
  else
    w0 <- getUint8 buf 8 ;;
    w1 <- getUint8 buf 9 ;;
    w2 <- getUint8 buf 10 ;;
    w3 <- getUint8 buf 11 ;;
    let wave := [w0; w1; w2; w3] in
    if negb (jsstring_eqb wave (lit "WAVE")) then Ret metadata
    else
      s <- while_loop (wav_cond buf) (wav_body fuel buf) fuel (12, metadata) ;;
      Ret (snd s).

(** ** M4A: the atom walk of [M4AParser] *)

(** The object [parse] creates and the other methods fill; [None] is null. *)
Record M4AResult : Type := MkM4AResult {
  r_title : option jsstring;
  r_artist : option jsstring;
  r_album : option jsstring;
  r_duration : number;
  r_cover : option jsstring;
  r_coverType : option jsstring
}.

Definition m4a_empty : M4AResult :=
  MkM4AResult None None None (num_of_Z 0) None None.

(** [Object.assign(result, moovData)]: every property of [moovData] is an
    own property, so each one overwrites its namesake. *)
Definition object_assign (result moovData : M4AResult) : M4AResult :=
  MkM4AResult (r_title moovData) (r_artist moovData) (r_album moovData)
              (r_duration moovData) (r_cover moovData) (r_coverType moovData).

(** A parser's own [offset] together with the shared [result] object. *)
Definition m4a_state : Type := (Z * M4AResult)%type.

(** The four type characters of the atom at [offset]. *)
Definition atom_type (buf : ArrayBuffer) (offset : Z) : outcome jsstring :=
  c0 <- getUint8 buf (offset + 4) ;;
  c1 <- getUint8 buf (offset + 5) ;;
  c2 <- getUint8 buf (offset + 6) ;;
  c3 <- getUint8 buf (offset + 7) ;;
  Ret [c0; c1; c2; c3].

(** The end of every atom loop: [if (size === 0) break; this.offset += size]. *)
Definition atom_advance (size : Z) (s : m4a_state) : ctl m4a_state :=
  if size =? 0 then Break s else Continue (fst s + size, snd s).

(** The test of the four inner loops. *)
Definition atom_cond (endOffset : Z) (s : m4a_state) : bool :=
  fst s <? endOffset - 8.

(** [readString(offset, length)] of [M4AParser]. *)
Definition m4a_readString (buf : ArrayBuffer) (offset length : Z) : jsstring :=
  if length <=? 0 then []
  else trim (remove_nul (utf8_decode (slice buf offset (offset + length)))).

Definition stts_duration (sampleCount sampleDuration : Z) : number :=
  PrimFloat.div (num_mul sampleCount sampleDuration) (num_of_Z 10000000).

Definition mediainfo_body (buf : ArrayBuffer) (s : m4a_state) : outcome (ctl m4a_state) :=
  let '(offset, result) := s in
  size <- getUint32 buf offset ;;
  type <- atom_type buf offset ;;
  s' <-
    (if jsstring_eqb type (lit "stsd") then Ret (offset + size, result)
     else if jsstring_eqb type (lit "stts") then
       entries <- getUint32 buf (offset + 12) ;;
       if entries >? 0 then
         sampleCount <- getUint32 buf (offset + 16) ;;
         sampleDuration <- getUint32 buf (offset + 20) ;;
         Ret (offset,
              MkM4AResult (r_title result) (r_artist result) (r_album result)
                          (stts_duration sampleCount sampleDuration)
                          (r_cover result) (r_coverType result))
       else Ret s
     else Ret s) ;;
  Ret (atom_advance size s').

(** [parseMediaInfo(result)] on a parser whose offset is [offset]. *)
Definition parseMediaInfo (fuel : nat) (buf : ArrayBuffer) (offset : Z) (result : M4AResult)
  : outcome m4a_state :=
  len <- getUint32 buf offset ;;
  let endOffset := offset + len in
  while_loop (atom_cond endOffset) (mediainfo_body buf) fuel (offset + 8, result).

Definition media_body (fuel : nat) (buf : ArrayBuffer) (s : m4a_state)
  : outcome (ctl m4a_state) :=
  let '(offset, result) := s in
  size <- getUint32 buf offset ;;
  type <- atom_type buf offset ;;
  result' <-
    (if jsstring_eqb type (lit "hdlr") then Ret result
     else if jsstring_eqb type (lit "minf") then
       sub <- parseMediaInfo fuel buf (offset + 8) result ;;
       Ret (snd sub)
     else Ret result) ;;
  Ret (atom_advance size (offset, result')).

(** [parseMedia(result)] *)
Definition parseMedia (fuel : nat) (buf : ArrayBuffer) (offset : Z) (result : M4AResult)
  : outcome m4a_state :=
  len <- getUint32 buf offset ;;
  let endOffset := offset + len in
  while_loop (atom_cond endOffset) (media_body fuel buf) fuel (offset + 8, result).

Definition track_body (fuel : nat) (buf : ArrayBuffer) (s : m4a_state)
  : outcome (ctl m4a_state) :=
  let '(offset, result) := s in
  size <- getUint32 buf offset ;;
  type <- atom_type buf offset ;;
  result' <-
    (if jsstring_eqb type (lit "mdia") then
       sub <- parseMedia fuel buf (offset + 8) result ;;
       Ret (snd sub)
     else Ret result) ;;
  Ret (atom_advance size (offset, result')).

(** [parseTrack(result)] *)
Definition parseTrack (fuel : nat) (buf : ArrayBuffer) (offset : Z) (result : M4AResult)
  : outcome m4a_state :=
  len <- getUint32 buf offset ;;
  let endOffset := offset + len in
  while_loop (atom_cond endOffset) (track_body fuel buf) fuel (offset + 8, result).

Definition ilst_body (buf : ArrayBuffer) (s : m4a_state) : outcome (ctl m4a_state) :=
  let '(offset, result) := s in
  size <- getUint32 buf offset ;;
  type <- atom_type buf offset ;;
  result' <-
    (if jsstring_eqb type (lit "covr") then
       let dataSize := size - 8 in
       let dataOffset := offset + 8 in
       first <- getUint8 buf dataOffset ;;
       let mimeType := if first =? 137 then lit "image/png" else lit "image/jpeg" in
       let imageData := slice buf dataOffset (dataOffset + dataSize) in
       Ret (MkM4AResult (r_title result) (r_artist result) (r_album result)
                        (r_duration result)
                        (Some (arrayBufferToBase64 imageData)) (Some mimeType))
     else if jsstring_eqb type (lit "data") then
       let dataOffset := offset + 8 + 4 in
       let dataSize := size - 12 in
       let text := m4a_readString buf dataOffset (Z.min dataSize 256) in
       (* the text is read and then dropped *)
       Ret result
     else Ret result) ;;
  Ret (atom_advance size (offset, result')).

(** [parseMetadata(result)] of [M4AParser], the reader of an [ilst] atom. *)
Definition m4a_parseMetadata (fuel : nat) (buf : ArrayBuffer) (offset : Z) (result : M4AResult)
  : outcome m4a_state :=
  len <- getUint32 buf offset ;;
  let endOffset := offset + len in
  while_loop (atom_cond endOffset) (ilst_body buf) fuel (offset + 8, result).

Definition parse_cond (buf : ArrayBuffer) (s : m4a_state) : bool :=
  fst s <? byteLength buf - 8.

(** One round of the loop of [parse]; [sub_parse o] is [parse] run by a new
    parser whose offset is [o]. *)
Definition parse_body (sub_parse : Z -> outcome M4AResult) (fuel : nat)
    (buf : ArrayBuffer) (s : m4a_state) : outcome (ctl m4a_state) :=
  let '(offset, result) := s in
  size <- getUint32 buf offset ;;
  type <- atom_type buf offset ;;
  s' <-
    (if jsstring_eqb type (lit "moov") then
       moovData <- sub_parse (offset + 8) ;;
       Ret (offset, object_assign result moovData)
     else if jsstring_eqb type (lit "trak") then parseTrack fuel buf offset result
     else if jsstring_eqb type (lit "ilst") then m4a_parseMetadata fuel buf offset result
     else if jsstring_eqb type (lit "mdia") then parseMedia fuel buf offset result
     else Ret s) ;;
  Ret (atom_advance size s').

(** [parse()] on a parser whose offset is [offset]; the budget bounds the
    rounds of every loop and the depth of the [moov] recursion. *)
Fixpoint parse (fuel : nat) (buf : ArrayBuffer) (offset : Z) : outcome M4AResult :=
  match fuel with
  | O => OutOfFuel
  | S fuel' =>
      s <- while_loop (parse_cond buf) (parse_body (parse fuel' buf) fuel' buf) fuel
             (offset, m4a_empty) ;;
      Ret (snd s)
  end.

(** [x || 0] on a number: zero and NaN are falsy. *)
Definition num_or_zero (x : number) : number :=
  if PrimFloat.eqb x (num_of_Z 0) || PrimFloat.is_nan x then num_of_Z 0 else x.

Definition parseM4A (fuel : nat) (buf : ArrayBuffer) (defaults : Metadata)
  : outcome Metadata :=
  let metadata := defaults in
  try_catch
    (tags <- parse fuel buf 0 ;;
     Ret {| title := or_str (r_title tags) (title metadata);
            artist := or_str (r_artist tags) (artist metadata);
            album := or_str (r_album tags) (album metadata);
            duration := num_or_zero (r_duration tags);
            cover := r_cover tags;
            coverType := r_coverType tags;
            format := format metadata;
            filePath := filePath metadata |})
    (fun _ => Ret metadata).

(** ** The dispatcher *)

(** [parseMetadata(audioData, filePath)]: the record the returned promise
    resolves to.  Each parser call is awaited inside the [try], so a rejection
    reaches the [catch] clause like a thrown exception. *)
Definition parseMetadata (fuel : nat) (buf : ArrayBuffer) (path : jsstring)
  : outcome Metadata :=
  let ext := toLowerCase (getFileExtension path) in
  let defaults := defaultMetadata path in
  try_catch
    (if jsstring_eqb ext (lit ".mp3") then parseMP3 fuel buf defaults
     else if jsstring_eqb ext (lit ".flac") then parseFLAC fuel buf defaults
     else if jsstring_eqb ext (lit ".m4a") then parseM4A fuel buf defaults
     else if jsstring_eqb ext (lit ".wav") then parseWAV fuel buf defaults
     else Ret defaults)
    (fun _ => Ret defaults).

(** The budget the theorems below show to be enough for every buffer. *)
Definition enough_fuel (buf : ArrayBuffer) : nat := S (List.length buf).

(** ** Notions used in the statements *)

(** A computation that does not stop for lack of iteration budget. *)
Definition terminates {A : Type} (m : outcome A) : Prop := m <> OutOfFuel.

(** [m2] is the outcome [m1] wherever [m1] has not stopped for lack of
    iteration budget: what a larger budget does to a computation. *)
Definition refines {A : Type} (m1 m2 : outcome A) : Prop :=
  terminates m1 -> m2 = m1.

(** A loop body over the buffer [buf] whose every round that asks for another
    round has read inside the buffer and has moved the offset forward by one
    byte at least. *)
Definition advances {S : Type} (buf : ArrayBuffer) (offset_of : S -> Z)
    (body : S -> outcome (ctl S)) : Prop :=
  forall s s', body s = Ret (Continue s') ->
    0 <= offset_of s /\ offset_of s < byteLength buf /\ offset_of s + 1 <= offset_of s'.

(** The state a round hands over, whether it asks for another round or
    not. *)
Definition ctl_state {S : Type} (c : ctl S) : S :=
  match c with
  | Continue s => s
  | Break s => s
  end.

(** The read position of the loop of [parseVorbisComments]. *)
Definition vorbis_pos (s : vorbis_state) : Z := snd (fst s).

(** The bytes left from an offset on. *)
Definition bytes_left (buf : ArrayBuffer) (o : Z) : nat :=
  Z.to_nat (byteLength buf - Z.max 0 o).

(** What every parser keeps true of the two cover fields: both are null, or
    the cover is the base64 text of a range of bytes of the file and the MIME
    type is a string. *)
Definition cover_wf (buf : ArrayBuffer) (c t : option jsstring) : Prop :=
  (c = None /\ t = None) \/
  (exists b e mt, c = Some (arrayBufferToBase64 (slice buf b e)) /\ t = Some mt).

Definition metadata_wf (buf : ArrayBuffer) (m : Metadata) : Prop :=
  cover_wf buf (cover m) (coverType m).

Definition result_wf (buf : ArrayBuffer) (r : M4AResult) : Prop :=
  cover_wf buf (r_cover r) (r_coverType r).

(** The image of a FLAC picture block whose header is at [offset]: the
    block is of type 6, and after the four header bytes and the picture type
    come the MIME type, the description and sixteen bytes of dimensions,
    each of the two texts after its length, and then the image after its
    length, as many bytes of it as the file has. *)
Definition flac_picture_image (buf : ArrayBuffer) (offset : Z) (image : list byte) : Prop :=
  exists blockHeader mimeLength descLength imageSize,
    getUint8 buf offset = Ret blockHeader /\ js_and blockHeader 127 = 6 /\
    getUint32 buf (offset + 8) = Ret mimeLength /\
    getUint32 buf (offset + 12 + mimeLength) = Ret descLength /\
    getUint32 buf (offset + 32 + mimeLength + descLength) = Ret imageSize /\
    image = slice buf (offset + 36 + mimeLength + descLength)
                      (offset + 36 + mimeLength + descLength + imageSize).

(** The payload of the [covr] atom at [offset]: what follows the eight
    bytes of size and type, up to the atom end or the end of the file. *)
Definition covr_payload (buf : ArrayBuffer) (offset : Z) (image : list byte) : Prop :=
  exists size,
    getUint32 buf offset = Ret size /\ atom_type buf offset = Ret (lit "covr") /\
    image = slice buf (offset + 8) (offset + size).

(** What the FLAC walk and the atom walk keep true of the cover: it is null,
    or the base64 text of the image of a picture block, of the payload of a
    [covr] atom. *)
Definition flac_cover_source (buf : ArrayBuffer) (c : option jsstring) : Prop :=
  c = None \/
  exists offset image,
    flac_picture_image buf offset image /\ c = Some (arrayBufferToBase64 image).

Definition m4a_cover_source (buf : ArrayBuffer) (c : option jsstring) : Prop :=
  c = None \/
  exists offset image,
    covr_payload buf offset image /\ c = Some (arrayBufferToBase64 image).

(** The bitwise or of four bytes shifted left by 21, 14, 7 and 0 bits. *)
Definition syncsafe_or (b0 b1 b2 b3 : Z) : Z :=
  Z.lor (Z.lor (Z.lor (b0 * 2 ^ 21) (b1 * 2 ^ 14)) (b2 * 2 ^ 7)) b3.

(** A comment as the Vorbis format has it, [KEY=VALUE]: the key is the
    text before the first equals sign, the value all the text after it. *)
Fixpoint key_value (comment : jsstring) : option (jsstring * jsstring) :=
  match comment with
  | [] => None
  | c :: r =>
      if c =? 61 then Some ([], r)
      else match key_value r with
           | Some (k, v) => Some (c :: k, v)
           | None => None
           end
  end.

(** The value a comment gives to a tag: its key is the tag in some letter
    case, and neither its key nor its value is empty. *)
Definition tag_value (tag comment : jsstring) : option jsstring :=
  match key_value comment with
  | Some (k, v) =>
      if nonempty k && nonempty v && jsstring_eqb (toUpperCase k) tag then Some v
      else None
  | None => None
  end.

(** The value of the first comment that gives one, the reading the
    specification names, and that of the last. *)
Fixpoint first_value (tag : jsstring) (comments : list jsstring) : option jsstring :=
  match comments with
  | [] => None
  | c :: r =>
      match tag_value tag c with
      | Some v => Some v
      | None => first_value tag r
      end
  end.

Fixpoint last_value (tag : jsstring) (comments : list jsstring) : option jsstring :=
  match comments with
  | [] => None
  | c :: r =>
      match last_value tag r with
      | Some v => Some v
      | None => tag_value tag c
      end
  end.

(** A comment with one equals sign at most. *)
Definition single_equals (comment : jsstring) : Prop :=
  (List.length (filter (fun c => (c =? 61)%Z) comment) <= 1)%nat.

(** The comments the loop of [parseVorbisComments] decodes, in the order
    it decodes them, from the position and the round it has reached. *)
Fixpoint comments_read_from (fuel : nat) (buf : ArrayBuffer)
    (i pos commentCount limit : Z) : list jsstring :=
  match fuel with
  | O => []
  | S fuel' =>
      if (i <? commentCount) && (pos <? limit) then
        match getUint32 buf pos with
        | Ret commentLength =>
            utf8_decode (slice buf (pos + 4) (pos + 4 + commentLength))
            :: comments_read_from fuel' buf (i + 1) (pos + 4 + commentLength)
                 commentCount limit
        | _ => []
        end
      else []
  end.

(** The comments [parseVorbisComments] decodes in a block: none when the
    vendor length or the count cannot be read. *)
Definition comments_read (fuel : nat) (buf : ArrayBuffer) (offset size : Z)
  : list jsstring :=
  match getUint32 buf offset with
  | Ret vendorLength =>
      match getUint32 buf (offset + (4 + vendorLength)) with
      | Ret commentCount =>
          comments_read_from fuel buf 0 (offset + (4 + vendorLength) + 4)
            commentCount (offset + size - 4)
      | _ => []
      end
  | _ => []
  end.

(** ** Writing files *)

Definition byte_of_Z (z : Z) : byte :=
  match Byte.of_N (Z.to_N z) with
  | Some b => b
  | None => x00
  end.

Definition ascii_bytes (s : string) : list byte := list_byte_of_string s.

Definition be32 (n : Z) : list byte :=
  map byte_of_Z [n / 16777216 mod 256; n / 65536 mod 256; n / 256 mod 256; n mod 256].

Definition le32 (n : Z) : list byte := rev (be32 n).

Definition le16 (n : Z) : list byte := map byte_of_Z [n mod 256; n / 256 mod 256].

Definition be24 (n : Z) : list byte :=
  map byte_of_Z [n / 65536 mod 256; n / 256 mod 256; n mod 256].

Definition be64 (n : Z) : list byte :=
  map byte_of_Z [n / 2 ^ 56 mod 256; n / 2 ^ 48 mod 256; n / 2 ^ 40 mod 256;
                 n / 2 ^ 32 mod 256; n / 2 ^ 24 mod 256; n / 2 ^ 16 mod 256;
                 n / 2 ^ 8 mod 256; n mod 256].

Definition syncsafe32 (n : Z) : list byte :=
  map byte_of_Z [n / 2097152 mod 128; n / 16384 mod 128; n / 128 mod 128; n mod 128].

(** An ID3v2.3 frame: identifier, size, two flag bytes, body. *)
Definition id3_frame (id : string) (body : list byte) : list byte :=
  ascii_bytes id ++ be32 (byteLength body) ++ [x00; x00] ++ body.

(** A text frame in encoding 0 (Latin-1), without terminator. *)
Definition id3_text_frame (id text : string) : list byte :=
  id3_frame id (x00 :: ascii_bytes text).

(** An attached picture: encoding, MIME type, picture type 3 (front cover),
    empty description, image. *)
Definition id3_apic_frame (mimeType : string) (image : list byte) : list byte :=
  id3_frame "APIC" ([x00] ++ ascii_bytes mimeType ++ [x00] ++ [x03] ++ [x00] ++ image).

Definition id3_tag (frames : list byte) : list byte :=
  ascii_bytes "ID3" ++ [x03; x00; x00] ++ syncsafe32 (byteLength frames) ++ frames.

(** The 34 bytes of a STREAMINFO body: block and frame size bounds, then 20
    bits of sample rate, 3 bits of channel count less one, 5 bits of sample
    width less one and 36 bits of sample count, then the MD5 signature. *)
Definition flac_streaminfo (sampleRate channels bitsPerSample totalSamples : Z) : list byte :=
  [x10; x00; x10; x00] ++ [x00; x00; x00] ++ [x00; x00; x00]
  ++ be64 (sampleRate * 2 ^ 44 + (channels - 1) * 2 ^ 41
           + (bitsPerSample - 1) * 2 ^ 36 + totalSamples)
  ++ repeat x00 16.

(** A FLAC PICTURE block body: picture type 3, MIME type, description,
    width, height, depth and colour count left at zero, image. *)
Definition flac_picture (mimeType description : string) (image : list byte) : list byte :=
  be32 3 ++ be32 (byteLength (ascii_bytes mimeType)) ++ ascii_bytes mimeType
  ++ be32 (byteLength (ascii_bytes description)) ++ ascii_bytes description
  ++ be32 0 ++ be32 0 ++ be32 0 ++ be32 0
  ++ be32 (byteLength image) ++ image.

(** A comment entry and a comment block as FLAC has them: each length and
    the count in four bytes, least significant byte first. *)
Definition vorbis_entry (comment : list byte) : list byte :=
  le32 (byteLength comment) ++ comment.

Definition vorbis_block (vendor : list byte) (comments : list (list byte)) : list byte :=
  le32 (byteLength vendor) ++ vendor
  ++ le32 (Z.of_nat (List.length comments)) ++ flat_map vorbis_entry comments.

(** The same with each length and the count most significant byte first.
    No FLAC file is laid out so; these are the bytes the reads of
    [parseVorbisComments] decode as the lengths written. *)
Definition vorbis_entry_be (comment : list byte) : list byte :=
  be32 (byteLength comment) ++ comment.

Definition vorbis_block_be (vendor : list byte) (comments : list (list byte)) : list byte :=
  be32 (byteLength vendor) ++ vendor
  ++ be32 (Z.of_nat (List.length comments)) ++ flat_map vorbis_entry_be comments.

Definition flac_block (isLast : bool) (blockType : Z) (body : list byte) : list byte :=
  byte_of_Z ((if isLast then 128 else 0) + blockType) :: be24 (byteLength body) ++ body.

Definition flac_file (blocks : list byte) : ArrayBuffer := ascii_bytes "fLaC" ++ blocks.

Definition riff_chunk (id : string) (body : list byte) : list byte :=
  ascii_bytes id ++ le32 (byteLength body) ++ body
  ++ (if byteLength body mod 2 =? 0 then [] else [x00]).

Definition wav_fmt (channels sampleRate byteRate blockAlign bitsPerSample : Z) : list byte :=
  le16 1 ++ le16 channels ++ le32 sampleRate ++ le32 byteRate
  ++ le16 blockAlign ++ le16 bitsPerSample.

Definition wav_file (chunks : list byte) : ArrayBuffer :=
  ascii_bytes "RIFF" ++ le32 (4 + byteLength chunks) ++ ascii_bytes "WAVE" ++ chunks.

(** An MP4 atom: size, type, payload. *)
Definition mp4_atom (type : string) (payload : list byte) : list byte :=
  be32 (8 + byteLength payload) ++ ascii_bytes type ++ payload.

(** ** Sample files *)

Definition jpeg_stub : list byte :=
  [xff; xd8; xff; xe0; x00; x10; x4a; x46; x49; x46].

Definition roundtrip_mp3 : ArrayBuffer :=
  id3_tag (id3_text_frame "TIT2" "Test" ++ id3_text_frame "TPE1" "Artist"
           ++ id3_text_frame "TALB" "Album" ++ id3_apic_frame "image/jpeg" jpeg_stub).

(** A truncated ID3v2 header. *)
Definition truncated_mp3 : ArrayBuffer := ascii_bytes "ID3" ++ [x03; x00; x00; x00].

(** A FLAC file cut off inside its comment block: the count announces two
    comments and the block header eight bytes more than the block has, and
    the file ends after the first comment.  The lengths are most significant
    byte first, as the parser reads them. *)
Definition truncated_comments_body : list byte :=
  be32 6 ++ ascii_bytes "vendor" ++ be32 2 ++ vorbis_entry_be (ascii_bytes "TITLE=First").

Definition truncated_comments_flac : ArrayBuffer :=
  flac_file (byte_of_Z (128 + 4) :: be24 (byteLength truncated_comments_body + 8)
             ++ truncated_comments_body).

(** An ID3v2 tag whose second frame declares 1000 bytes, more than the tag
    has. *)
Definition overrunning_frame_mp3 : ArrayBuffer :=
  id3_tag (id3_text_frame "TIT2" "Test"
           ++ ascii_bytes "TPE1" ++ be32 1000 ++ [x00; x00] ++ repeat x00 10).

Definition streaminfo_flac : ArrayBuffer :=
  flac_file (flac_block true 0 (flac_streaminfo 44100 2 16 441000)).

Definition two_titles : list (list byte) :=
  [ascii_bytes "TITLE=First"; ascii_bytes "artist=Someone"; ascii_bytes "Title=Second"].

(** Two titles in a block whose lengths are most significant byte first,
    which the parser decodes, and in a block as FLAC has it. *)
Definition two_titles_flac : ArrayBuffer :=
  flac_file (flac_block true 4 (vorbis_block_be (ascii_bytes "vendor") two_titles)).

Definition two_titles_real_flac : ArrayBuffer :=
  flac_file (flac_block true 4 (vorbis_block (ascii_bytes "vendor") two_titles)).

Definition picture_flac : ArrayBuffer :=
  flac_file (flac_block true 6 (flac_picture "image/jpeg" "" jpeg_stub)).

(** A FLAC file as encoders write it: STREAMINFO first, the picture last. *)
Definition streaminfo_picture_flac : ArrayBuffer :=
  flac_file (flac_block false 0 (flac_streaminfo 44100 2 16 441000)
             ++ flac_block true 6 (flac_picture "image/jpeg" "" jpeg_stub)
             ++ ascii_bytes "frames").

Definition empty_picture_flac : ArrayBuffer :=
  flac_file (flac_block true 6 (flac_picture "image/png" "" [])).

Definition minimal_wav : ArrayBuffer :=
  wav_file (riff_chunk "fmt " (wav_fmt 2 44100 176400 4 16)
            ++ riff_chunk "data" (repeat x00 (Z.to_nat 1764000))).

(** A cover atom directly inside an [ilst] atom, the layout the parser
    reads. *)
Definition cover_m4a : ArrayBuffer := mp4_atom "ilst" (mp4_atom "covr" jpeg_stub).

(** * The player around the engine *)

(** ** The player's file filter *)

(** The test under which [addSongs] and [handleDrop] keep a file:
    [['wav', 'mp3', 'flac', 'm4a'].includes(filePath.toLowerCase().split('.').pop())]. *)
Definition acceptedExtensions : list jsstring :=
  [lit "wav"; lit "mp3"; lit "flac"; lit "m4a"].

Definition validFile (filePath : jsstring) : bool :=
  let ext := last (split_by (fun c => c =? 46) (toLowerCase filePath)) [] in
  existsb (jsstring_eqb ext) acceptedExtensions.

(** ** The player: the song list and the current index

    The part of [GlassFlowPlayer] that the playback controls read and write
    synchronously: [this.songs] and [this.currentSongIndex].  A song object
    holds the fields of the record the extractor returned; its [id] and the
    audio element are left out. *)

Record Player : Type := MkPlayer {
  songs : list Metadata;
  currentSongIndex : Z
}.

(** The state the constructor sets up. *)
Definition new_player : Player := MkPlayer [] (-1).

Definition songs_length (p : Player) : Z := Z.of_nat (List.length (songs p)).

(** [this.songs.push(song)] in [addSong] *)
Definition push_song (p : Player) (song : Metadata) : Player :=
  MkPlayer (songs p ++ [song]) (currentSongIndex p).

(** [playSong(index)] *)
Definition playSong (p : Player) (index : Z) : Player :=
  if (index <? 0) || (index >=? songs_length p) then p
  else MkPlayer (songs p) index.

(** [togglePlay()] *)
Definition togglePlay (p : Player) : Player :=
  if (currentSongIndex p <? 0) && (songs_length p >? 0) then playSong p 0 else p.

(** [playPrevious()] *)
Definition playPrevious (p : Player) : Player :=
  if songs_length p =? 0 then p
  else
    let newIndex := currentSongIndex p - 1 in
    let newIndex := if newIndex <? 0 then songs_length p - 1 else newIndex in
    playSong p newIndex.

(** [playNext()] *)
Definition playNext (p : Player) : Player :=
  if songs_length p =? 0 then p
  else
    let newIndex := currentSongIndex p + 1 in
    let newIndex := if newIndex >=? songs_length p then 0 else newIndex in
    playSong p newIndex.

(** [onSongEnded()] *)
Definition onSongEnded (p : Player) : Player := playNext p.

(** [songs[index].duration = duration] on an index inside the list. *)
Fixpoint store_duration (l : list Metadata) (index : nat) (v : number) : list Metadata :=
  match l, index with
  | [], _ => []
  | song :: r, O => set_duration song v :: r
  | song :: r, S i => song :: store_duration r i v
  end.

(** [onMetadataLoaded()], where [duration] is what the audio element
    reports. *)
Definition onMetadataLoaded (p : Player) (duration : number) : Player :=
  if currentSongIndex p >=? 0 then
    match nth_error (songs p) (Z.to_nat (currentSongIndex p)) with
    | Some _ =>
        MkPlayer (store_duration (songs p) (Z.to_nat (currentSongIndex p)) duration)
                 (currentSongIndex p)
    | None => p
    end
  else p.

(** What can happen to a player. *)
Inductive action : Type :=
| AddSong (song : Metadata)
| PlaySong (index : Z)
| TogglePlay
| PlayPrevious
| PlayNext
| SongEnded
| MetadataLoaded (duration : number).

Definition step (p : Player) (a : action) : Player :=
  match a with
  | AddSong song => push_song p song
  | PlaySong index => playSong p index
  | TogglePlay => togglePlay p
  | PlayPrevious => playPrevious p
  | PlayNext => playNext p
  | SongEnded => onSongEnded p
  | MetadataLoaded duration => onMetadataLoaded p duration
  end.

Definition run (p : Player) (actions : list action) : Player :=
  fold_left step actions p.

(** The current index is that of a song of the list, or nothing has been
    played yet. *)
Definition index_ok (p : Player) : Prop :=
  currentSongIndex p = -1 \/ 0 <= currentSongIndex p < songs_length p.

(** A song is selected. *)
Definition playing_index (p : Player) : Prop :=
  0 <= currentSongIndex p < songs_length p.

(** ** From the file on disk to the buffer that is parsed *)

(** *** [atob]: the forgiving base64 decoder; [None] is the exception it
    throws *)

Definition is_ascii_whitespace (c : Z) : bool :=
  (c =? 9) || (c =? 10) || (c =? 12) || (c =? 13) || (c =? 32).

Definition b64_value (c : Z) : option Z :=
  if (65 <=? c) && (c <=? 90) then Some (c - 65)
  else if (97 <=? c) && (c <=? 122) then Some (c - 71)
  else if (48 <=? c) && (c <=? 57) then Some (c + 4)
  else if c =? 43 then Some 62
  else if c =? 47 then Some 63
  else None.

(** The string without the one or two equals signs it ends with. *)
Fixpoint strip_padding (s : jsstring) : jsstring :=
  match s with
  | [] => []
  | c :: r =>
      if (c =? 61) && forallb (fun d => d =? 61) r && (List.length r <=? 1)%nat then []
      else c :: strip_padding r
  end.

(** The six-bit value of every character, if all are of the alphabet. *)
Fixpoint sextets (s : jsstring) : option (list Z) :=
  match s with
  | [] => Some []
  | c :: r =>
      match b64_value c, sextets r with
      | Some v, Some t => Some (v :: t)
      | _, _ => None
      end
  end.

(** Four values give three bytes; of two or three left over, the bits that
    do not fill a byte are dropped; one left over is a failure. *)
Fixpoint decode_sextets (v : list Z) : option (list Z) :=
  match v with
  | a :: b :: c :: d :: r =>
      match decode_sextets r with
      | Some t => Some (a * 4 + b / 16 :: b mod 16 * 16 + c / 4 :: c mod 4 * 64 + d :: t)
      | None => None
      end
  | [a; b; c] => Some [a * 4 + b / 16; b mod 16 * 16 + c / 4]
  | [a; b] => Some [a * 4 + b / 16]
  | [_] => None
  | [] => Some []
  end.

Definition atob (data : jsstring) : option jsstring :=
  let data := filter (fun c => negb (is_ascii_whitespace c)) data in
  let data :=
    if Z.of_nat (List.length data) mod 4 =? 0 then strip_padding data else data in
  match sextets data with
  | Some v => decode_sextets v
  | None => None
  end.

(** The [read-file] handler of the main process: [buffer.toString('base64')],
    the standard alphabet with padding. *)
Definition read_file_data (buffer : list byte) : jsstring := btoa (map u8 buffer).

(** [addSong]: [atob], then one byte per code unit of the binary string,
    stored in a [Uint8Array]. *)
Definition binary_to_bytes (binaryString : jsstring) : ArrayBuffer :=
  map (fun c => byte_of_Z (c mod 256)) binaryString.

Definition decode_file_data (data : jsstring) : option ArrayBuffer :=
  match atob data with
  | Some binaryString => Some (binary_to_bytes binaryString)
  | None => None
  end.

(** ** Further notions used in the statements *)

(** A result object of the M4A parser whose three text properties are
    null. *)
Definition no_text (r : M4AResult) : Prop :=
  r_title r = None /\ r_artist r = None /\ r_album r = None.

(** The bytes before the first zero byte, and whether there is one. *)
Fixpoint until_nul (bs : list byte) : list byte :=
  match bs with
  | [] => []
  | b :: r => if u8 b =? 0 then [] else b :: until_nul r
  end.

Definition has_nul (bs : list byte) : bool := existsb (fun b => u8 b =? 0) bs.

(** A code unit that one byte other than zero gives. *)
Definition latin1_unit (c : Z) : Prop := 1 <= c <= 255.

(** A field that still holds its default or holds Latin-1 text. *)
Definition default_or_latin1 (d s : jsstring) : Prop :=
  s = d \/ Forall latin1_unit s.

(** The text fields of [m] are those of [d] or Latin-1 text. *)
Definition text_default_or_latin1 (d m : Metadata) : Prop :=
  default_or_latin1 (title d) (title m) /\
  default_or_latin1 (artist d) (artist m) /\
  default_or_latin1 (album d) (album m).

(** No full stop in a string. *)
Definition no_dot (s : jsstring) : bool := forallb (fun c => negb (c =? 46)) s.

(** ** File names, as a reader of a path understands them *)

Definition no_separator (s : jsstring) : bool :=
  forallb (fun c => negb (is_path_separator c)) s.

(** The file name of a path is what follows its last slash or backslash,
    and the whole path when it has neither. *)
Definition file_name_of (path fileName : jsstring) : Prop :=
  no_separator fileName = true /\
  (path = fileName \/
   exists dir c, (c = 47 \/ c = 92) /\ path = dir ++ c :: fileName).

(** A file name has a final extension when it ends with a full stop and a
    text that is not empty and holds no full stop. *)
Definition final_extension (fileName stem ext : jsstring) : Prop :=
  ext <> [] /\ no_dot ext = true /\ fileName = stem ++ 46 :: ext.

(** The stem of a file name is what precedes the full stop of its final
    extension, and the whole name when it has no final extension. *)
Definition stem_of (fileName stem : jsstring) : Prop :=
  (exists ext, final_extension fileName stem ext) \/
  (stem = fileName /\ forall s ext, ~ final_extension fileName s ext).

(** Text of ASCII characters, and the upper case of an ASCII character. *)
Definition ascii_text (s : jsstring) : bool :=
  forallb (fun c => (0 <=? c) && (c <=? 127)) s.

Definition ascii_upper (c : Z) : Z :=
  if (97 <=? c) && (c <=? 122) then c - 32 else c.

(** ** Further sample files *)

(** A [data] atom with text directly inside an [ilst] atom, where the
    reader of [ilst] looks for one. *)
Definition text_m4a : ArrayBuffer :=
  mp4_atom "ilst" (mp4_atom "data" (be32 1 ++ ascii_bytes "A Name")).

(** One entry of an INFO list as [parseWAVInfo] reads it, the size most
    significant byte first. *)
Definition info_entry : list byte :=
  ascii_bytes "INAM" ++ be32 6 ++ ascii_bytes "Title" ++ [x00].

(** An ID3v2 header that declares 1000 bytes of frames in front of ten
    bytes of padding. *)
Definition overdeclared_mp3 : ArrayBuffer :=
  ascii_bytes "ID3" ++ [x03; x00; x00] ++ syncsafe32 1000 ++ repeat x00 10.

(** A [data] chunk as a RIFF file stores it, the size least significant
    byte first. *)
Definition data_chunk : list byte := riff_chunk "data" [x01; x02; x03; x04].

(** * Properties *)

(** ** Sample evaluations of the string functions *)

Example btoa_jfif :
  arrayBufferToBase64 [xff; xd8; xff; xe0; x00; x10; x4a; x46; x49; x46]
  = lit "/9j/4AAQSkZJRg==".
Proof. vm_compute. reflexivity. Qed.

Example utf8_decode_sample :
  utf8_decode [xe6; x9c; xaa; x41; xff; xf0; x9f; x98; x80] = [26410; 65; 65533; 55357; 56832].
Proof. vm_compute. reflexivity. Qed.


(** ** Bytes and reads *)

Lemma u8_range (b : byte) : 0 <= u8 b < 256.
Proof.
  unfold u8. pose proof (Byte.to_N_bounded b). lia.
Qed.

Lemma byte_at_range (buf : ArrayBuffer) (i : Z) : 0 <= byte_at buf i < 256.
Proof. apply u8_range. Qed.

Lemma toInt32_small (z : Z) : -2147483648 <= z < 2147483648 -> toInt32 z = z.
Proof.
  intros H. unfold toInt32.
  rewrite Z.mod_small by lia. lia.
Qed.

Lemma lor_bound (n a b : Z) :
  0 <= n -> 0 <= a < 2 ^ n -> 0 <= b < 2 ^ n -> 0 <= Z.lor a b < 2 ^ n.
Proof.
  intros Hn Ha Hb.
  assert (H0 : 0 <= Z.lor a b) by (apply Z.lor_nonneg; lia).
  split; [exact H0|].
  destruct (Z.eq_dec (Z.lor a b) 0) as [E|E];
    [rewrite E; apply Z.pow_pos_nonneg; lia|].
  assert (Hpos : 0 < n).
  { destruct (Z.eq_dec n 0) as [->|]; [|lia].
    change (2 ^ 0) with 1 in *.
    assert (a = 0) by lia. assert (b = 0) by lia. subst. contradiction E. reflexivity. }
  apply Z.log2_lt_pow2; [lia|].
  rewrite Z.log2_lor by lia.
  apply Z.max_lub_lt.
  - destruct (Z.eq_dec a 0) as [->|]; [exact Hpos|].
    apply Z.log2_lt_pow2; lia.
  - destruct (Z.eq_dec b 0) as [->|]; [exact Hpos|].
    apply Z.log2_lt_pow2; lia.
Qed.

(** Or-ing a small number into a multiple of a larger power of two adds it. *)
Lemma lor_high_low (n a b : Z) :
  0 <= n -> 0 <= a -> 0 <= b < 2 ^ n -> Z.lor (a * 2 ^ n) b = a * 2 ^ n + b.
Proof.
  intros Hn Ha Hb.
  rewrite <- Z.shiftl_mul_pow2 by lia.
  assert (Hland : Z.land (Z.shiftl a n) b = 0).
  { apply Z.bits_inj'. intros i Hi.
    rewrite Z.land_spec, Z.bits_0.
    destruct (Z.lt_ge_cases i n) as [Hlt|Hge].
    - rewrite Z.shiftl_spec_low by lia. reflexivity.
    - destruct (Z.eq_dec b 0) as [->|Hb0].
      + rewrite Z.bits_0. apply andb_false_r.
      + rewrite (Z.bits_above_log2 b i); [apply andb_false_r|lia|].
        assert (Z.log2 b < n) by (apply Z.log2_lt_pow2; lia). lia. }
  rewrite <- Z.lxor_lor by exact Hland.
  symmetry. apply Z.add_nocarry_lxor. exact Hland.
Qed.

Lemma js_shl_byte (b n : Z) :
  0 <= b < 256 -> 0 <= n <= 22 -> js_shl b n = b * 2 ^ n.
Proof.
  intros Hb Hn. unfold js_shl.
  rewrite (Z.mod_small n 32) by lia.
  rewrite (@toInt32_small b) by lia.
  rewrite Z.shiftl_mul_pow2 by lia.
  apply toInt32_small.
  assert (2 ^ n <= 2 ^ 22) by (apply Z.pow_le_mono_r; lia).
  change (2 ^ 22) with 4194304 in *.
  assert (0 < 2 ^ n) by (apply Z.pow_pos_nonneg; lia).
  nia.
Qed.

Lemma js_or_small (n a b : Z) :
  0 <= n <= 31 -> 0 <= a < 2 ^ n -> 0 <= b < 2 ^ n -> js_or a b = Z.lor a b.
Proof.
  intros Hn Ha Hb. unfold js_or.
  assert (2 ^ n <= 2 ^ 31) by (apply Z.pow_le_mono_r; lia).
  change (2 ^ 31) with 2147483648 in *.
  rewrite !toInt32_small by lia. reflexivity.
Qed.

Lemma getUint8_in (buf : ArrayBuffer) (off : Z) :
  0 <= off -> off + 1 <= byteLength buf -> getUint8 buf off = Ret (byte_at buf off).
Proof.
  intros H1 H2. unfold getUint8.
  destruct (0 <=? off) eqn:E1; [|lia].
  destruct (off + 1 <=? byteLength buf) eqn:E2; [|lia].
  reflexivity.
Qed.

(** The scanning loops of the readers walk [bytes_from]: its head is the
    byte [getUint8] reads, its tail what is read from the next offset on. *)
Lemma nth_hd_skipn {A : Type} (d : A) (l : list A) :
  forall n, nth n l d = hd d (skipn n l).
Proof.
  induction l as [|x l IH]; intros [|n]; cbn [nth skipn hd]; auto.
Qed.

Lemma getUint8_bytes_from (buf : ArrayBuffer) (off : Z) :
  getUint8 buf off
  = match bytes_from buf off with
    | b :: _ => Ret (u8 b)
    | [] => Throw RangeError
    end.
Proof.
  unfold getUint8, bytes_from, byte_at, byteLength.
  destruct (0 <=? off) eqn:E1; cbn [andb]; [|reflexivity].
  destruct (off + 1 <=? Z.of_nat (List.length buf)) eqn:E2.
  - destruct (off <=? Z.of_nat (List.length buf)) eqn:E3; [|lia].
    rewrite (nth_hd_skipn x00).
    destruct (skipn (Z.to_nat off) buf) as [|b rest] eqn:S; [|reflexivity].
    exfalso. assert (L : List.length (skipn (Z.to_nat off) buf) = 0%nat) by (rewrite S; reflexivity).
    rewrite length_skipn in L. lia.
  - destruct (off <=? Z.of_nat (List.length buf)) eqn:E3; [|reflexivity].
    assert (Z.to_nat off = List.length buf) as -> by lia.
    rewrite skipn_all. reflexivity.
Qed.

Lemma bytes_from_next (buf : ArrayBuffer) (off : Z) (b : byte) (rest : list byte) :
  bytes_from buf off = b :: rest -> bytes_from buf (off + 1) = rest.
Proof.
  unfold bytes_from, byteLength.
  destruct ((0 <=? off) && (off <=? Z.of_nat (List.length buf))) eqn:E; [|discriminate].
  apply andb_true_iff in E. destruct E as [E1 E2]. intros S.
  assert (L : List.length (skipn (Z.to_nat off) buf) = Datatypes.S (List.length rest))
    by (rewrite S; reflexivity).
  rewrite length_skipn in L.
  destruct (0 <=? off + 1) eqn:E3; [|lia].
  destruct (off + 1 <=? Z.of_nat (List.length buf)) eqn:E4; [|lia].
  cbn [andb]. replace (Z.to_nat (off + 1)) with (1 + Z.to_nat off)%nat by lia.
  rewrite <- skipn_skipn, S. reflexivity.
Qed.

(** ** Outcomes and loops *)

Lemma terminates_Ret {A : Type} (a : A) : terminates (Ret a).
Proof. discriminate. Qed.

Lemma terminates_Throw {A : Type} (e : exn) : terminates (@Throw A e).
Proof. discriminate. Qed.

Lemma terminates_bind {A B : Type} (m : outcome A) (k : A -> outcome B) :
  terminates m -> (forall a, m = Ret a -> terminates (k a)) -> terminates (bind m k).
Proof.
  unfold terminates. intros Hm Hk.
  destruct m as [a| |]; cbn [bind]; [apply Hk; reflexivity|discriminate|contradiction].
Qed.

Lemma terminates_try_catch {A : Type} (m : outcome A) (h : exn -> outcome A) :
  terminates m -> (forall e, terminates (h e)) -> terminates (try_catch m h).
Proof.
  unfold terminates. intros Hm Hh. destruct m; cbn [try_catch]; auto.
Qed.

Lemma bind_Ret_inv {A B : Type} (m : outcome A) (k : A -> outcome B) (b : B) :
  bind m k = Ret b -> exists a, m = Ret a /\ k a = Ret b.
Proof.
  destruct m as [a| |]; cbn [bind]; intros H; try discriminate.
  exists a. split; [reflexivity|exact H].
Qed.

(** A [try] whose handler returns a value returns a value whenever it
    terminates. *)
Lemma try_catch_total {A : Type} (m : outcome A) (d : A) :
  terminates m -> exists a, try_catch m (fun _ => Ret d) = Ret a.
Proof.
  unfold terminates. destruct m as [a| |]; cbn [try_catch]; intros H.
  - exists a. reflexivity.
  - exists d. reflexivity.
  - contradiction.
Qed.

Create HintDb term discriminated.
#[export] Hint Resolve terminates_Ret terminates_Throw : term.

Section WhileLoop.
Context {S : Type} (cond : S -> bool) (body : S -> outcome (ctl S)).

(** A property kept by every round holds of the state the loop ends in. *)
Lemma while_loop_invariant (I : S -> Prop) :
  (forall s s', I s -> cond s = true -> body s = Ret (Continue s') -> I s') ->
  (forall s s', I s -> cond s = true -> body s = Ret (Break s') -> I s') ->
  forall fuel s r, I s -> while_loop cond body fuel s = Ret r -> I r.
Proof.
  intros Hc Hb. induction fuel as [|fuel IH]; intros s r Hs H; cbn [while_loop] in H.
  - discriminate.
  - destruct (cond s) eqn:C.
    + destruct (body s) as [[s'|s']| |] eqn:B; try discriminate.
      * eapply IH; [|exact H]. eapply Hc; eauto.
      * inversion H; subst. eapply Hb; eauto.
    + inversion H; subst. exact Hs.
Qed.

(** A loop whose rounds lower a measure, and themselves terminate, needs
    no more rounds than the measure of its first state. *)
Lemma while_loop_terminates (I : S -> Prop) (m : S -> nat) :
  (forall s s', I s -> cond s = true -> body s = Ret (Continue s') ->
                I s' /\ (m s' < m s)%nat) ->
  (forall s, I s -> cond s = true -> terminates (body s)) ->
  forall fuel s, I s -> (m s < fuel)%nat -> terminates (while_loop cond body fuel s).
Proof.
  intros Hc Ht. induction fuel as [|fuel IH]; intros s Hs Hm; cbn [while_loop].
  - lia.
  - destruct (cond s) eqn:C; [|apply terminates_Ret].
    pose proof (Ht s Hs C) as T.
    destruct (body s) as [[s'|s']| |] eqn:B.
    + destruct (Hc s s' Hs C B) as [Hs' Hlt]. apply IH; [exact Hs'|lia].
    + apply terminates_Ret.
    + apply terminates_Throw.
    + contradiction T. reflexivity.
Qed.
End WhileLoop.

(** ** Reads *)

Lemma getUint8_Ret (buf : ArrayBuffer) (off v : Z) :
  getUint8 buf off = Ret v ->
  0 <= off /\ off + 1 <= byteLength buf /\ v = byte_at buf off.
Proof.
  unfold getUint8.
  destruct (0 <=? off) eqn:E1; destruct (off + 1 <=? byteLength buf) eqn:E2;
    cbn [andb]; intros H; inversion H; subst. repeat split; lia.
Qed.

Lemma getUint16_Ret (buf : ArrayBuffer) (off v : Z) :
  getUint16 buf off = Ret v -> 0 <= off /\ off + 2 <= byteLength buf.
Proof.
  unfold getUint16.
  destruct (0 <=? off) eqn:E1; destruct (off + 2 <=? byteLength buf) eqn:E2;
    cbn [andb]; intros H; inversion H; subst. lia.
Qed.

Lemma getUint32_Ret (buf : ArrayBuffer) (off v : Z) :
  getUint32 buf off = Ret v ->
  0 <= off /\ off + 4 <= byteLength buf /\ 0 <= v < 4294967296.
Proof.
  unfold getUint32.
  destruct (0 <=? off) eqn:E1; destruct (off + 4 <=? byteLength buf) eqn:E2;
    cbn [andb]; intros H; inversion H; subst.
  pose proof (byte_at_range buf off). pose proof (byte_at_range buf (off + 1)).
  pose proof (byte_at_range buf (off + 2)). pose proof (byte_at_range buf (off + 3)).
  repeat split; lia.
Qed.

Lemma terminates_getUint8 (buf : ArrayBuffer) (off : Z) : terminates (getUint8 buf off).
Proof. unfold getUint8. destruct (_ && _); auto with term. Qed.

Lemma terminates_getUint16 (buf : ArrayBuffer) (off : Z) : terminates (getUint16 buf off).
Proof. unfold getUint16. destruct (_ && _); auto with term. Qed.

Lemma terminates_getUint32 (buf : ArrayBuffer) (off : Z) : terminates (getUint32 buf off).
Proof. unfold getUint32. destruct (_ && _); auto with term. Qed.

#[export] Hint Resolve terminates_getUint8 terminates_getUint16 terminates_getUint32 : term.

(** Splits a goal [terminates (x <- m ;; k)] along the binds, leaving the
    parts no hint settles. *)
Ltac term_step :=
  match goal with
  | |- terminates (bind _ _) => apply terminates_bind; [|intros ? ?]
  | |- terminates (try_catch _ _) => apply terminates_try_catch; [|intros ?]
  | |- terminates (if ?c then _ else _) => destruct c eqn:?
  | |- terminates (match ?x with Some _ => _ | None => _ end) => destruct x eqn:?
  | |- terminates (let '(_, _) := ?s in _) => destruct s
  | |- terminates _ => solve [auto with term]
  end.

Ltac term_auto := repeat term_step.

(** Takes apart a hypothesis [H : (x <- m ;; k) = Ret r] along the binds. *)
Ltac ret_step H :=
  match type of H with
  | Throw _ = Ret _ => discriminate H
  | OutOfFuel = Ret _ => discriminate H
  | bind ?m _ = Ret _ =>
      let E := fresh "E" in
      destruct m eqn:E; cbn [bind] in H; [|discriminate H|discriminate H]
  | (if ?c then _ else _) = Ret _ => let C := fresh "C" in destruct c eqn:C
  | match ?x with Some _ => _ | None => _ end = Ret _ =>
      let C := fresh "C" in destruct x eqn:C
  | try_catch ?m _ = Ret _ =>
      let E := fresh "E" in destruct m eqn:E; cbn [try_catch] in H; [| |discriminate H]
  end.

Ltac ret_inv H := repeat ret_step H.

Lemma Ret_inj {A : Type} (a b : A) : Ret a = Ret b -> a = b.
Proof. intros H. inversion H. reflexivity. Qed.

Lemma Ret_Continue_inj {A : Type} (a b : A) : Ret (Continue a) = Ret (Continue b) -> a = b.
Proof. intros H. inversion H. reflexivity. Qed.

Lemma Ret_Break_inj {A : Type} (a b : A) : Ret (Break a) = Ret (Break b) -> a = b.
Proof. intros H. inversion H. reflexivity. Qed.

Lemma Some_inj {A : Type} (a b : A) : Some a = Some b -> a = b.
Proof. intros H. inversion H. reflexivity. Qed.

(** Ends the analysis: the last equation gives the returned value. *)
Ltac ret_done H :=
  try discriminate H;
  first [apply Ret_Continue_inj in H | apply Ret_Break_inj in H | apply Ret_inj in H];
  try apply Some_inj in H;
  subst.

Lemma terminates_readSyncsafeInt (buf : ArrayBuffer) (off : Z) :
  terminates (readSyncsafeInt buf off).
Proof. unfold readSyncsafeInt. term_auto. Qed.

Lemma terminates_latin1_loop (rest : list byte) :
  forall n acc, terminates (latin1_loop rest n acc).
Proof.
  induction rest as [|b rest IH]; intros n acc; cbn [latin1_loop];
    destruct (n <=? 0); auto with term.
  destruct (u8 b =? 0); auto with term.
Qed.

Lemma terminates_scan_nul (rest : list byte) :
  forall p limit, terminates (scan_nul rest p limit).
Proof.
  induction rest as [|b rest IH]; intros p limit; cbn [scan_nul];
    destruct (p <? limit); auto with term.
  destruct (u8 b =? 0); auto with term.
Qed.

#[export] Hint Resolve terminates_readSyncsafeInt terminates_latin1_loop
  terminates_scan_nul : term.

Lemma terminates_readString (buf : ArrayBuffer) (offset length : Z) :
  terminates (readString buf offset length).
Proof. unfold readString, audioData_unbound. term_auto. Qed.

#[export] Hint Resolve terminates_readString : term.

Lemma terminates_readTextFrame (buf : ArrayBuffer) (offset size : Z) :
  terminates (readTextFrame buf offset size).
Proof. unfold readTextFrame, audioData_unbound. term_auto. Qed.

(** The picture reader of the MP3 path returns null on every input: its
    [try] block ends on the unbound [audioData] when nothing failed before. *)
Lemma readAPICFrame_null (buf : ArrayBuffer) (offset size : Z) :
  readAPICFrame buf offset size = Ret None.
Proof.
  unfold readAPICFrame, audioData_unbound.
  destruct (size <=? 4); [reflexivity|].
  match goal with |- try_catch ?m _ = _ => assert (T : terminates m) by term_auto;
    assert (N : forall x, m <> Ret x) end.
  { intros x H. ret_inv H. }
  match goal with |- try_catch ?m _ = _ => destruct m as [x| |] end;
    cbn [try_catch]; [exfalso; eapply N; reflexivity|reflexivity|contradiction T; reflexivity].
Qed.

Lemma terminates_readAPICFrame (buf : ArrayBuffer) (offset size : Z) :
  terminates (readAPICFrame buf offset size).
Proof. rewrite readAPICFrame_null. auto with term. Qed.

Lemma terminates_parseFLACPicture (buf : ArrayBuffer) (offset size : Z) :
  terminates (parseFLACPicture buf offset size).
Proof. unfold parseFLACPicture. term_auto. Qed.

Lemma terminates_atom_type (buf : ArrayBuffer) (offset : Z) :
  terminates (atom_type buf offset).
Proof. unfold atom_type. term_auto. Qed.

#[export] Hint Resolve terminates_readTextFrame terminates_readAPICFrame
  terminates_parseFLACPicture terminates_atom_type : term.

(** ** The syncsafe reader (C5) *)

Lemma readSyncsafeInt_in (buf : ArrayBuffer) (offset : Z) :
  0 <= offset -> offset + 4 <= byteLength buf ->
  readSyncsafeInt buf offset =
    Ret (syncsafe_or (byte_at buf offset) (byte_at buf (offset + 1))
                     (byte_at buf (offset + 2)) (byte_at buf (offset + 3))).
Proof.
  intros H1 H2. unfold readSyncsafeInt.
  rewrite !getUint8_in by lia. cbn [bind].
  pose proof (byte_at_range buf offset) as R0.
  pose proof (byte_at_range buf (offset + 1)) as R1.
  pose proof (byte_at_range buf (offset + 2)) as R2.
  pose proof (byte_at_range buf (offset + 3)) as R3.
  rewrite !js_shl_byte by lia.
  assert (B0 : 0 <= byte_at buf offset * 2 ^ 21 < 2 ^ 29)
    by (change (2 ^ 21) with 2097152; change (2 ^ 29) with 536870912; lia).
  assert (B1 : 0 <= byte_at buf (offset + 1) * 2 ^ 14 < 2 ^ 29)
    by (change (2 ^ 14) with 16384; change (2 ^ 29) with 536870912; lia).
  assert (B2 : 0 <= byte_at buf (offset + 2) * 2 ^ 7 < 2 ^ 29)
    by (change (2 ^ 7) with 128; change (2 ^ 29) with 536870912; lia).
  assert (B3 : 0 <= byte_at buf (offset + 3) < 2 ^ 29)
    by (change (2 ^ 29) with 536870912; lia).
  pose proof (lor_bound (n := 29) ltac:(lia) B0 B1) as B01.
  pose proof (lor_bound (n := 29) ltac:(lia) B01 B2) as B012.
  unfold syncsafe_or.
  rewrite (@js_or_small 29 (byte_at buf offset * 2 ^ 21)) by (lia || assumption).
  rewrite (@js_or_small 29 (Z.lor _ _) (byte_at buf (offset + 2) * 2 ^ 7))
    by (lia || assumption).
  rewrite (@js_or_small 29 (Z.lor _ _) (byte_at buf (offset + 3)))
    by (lia || assumption).
  reflexivity.
Qed.

Lemma syncsafe_or_bound (b0 b1 b2 b3 : Z) :
  0 <= b0 < 256 -> 0 <= b1 < 256 -> 0 <= b2 < 256 -> 0 <= b3 < 256 ->
  0 <= syncsafe_or b0 b1 b2 b3 < 2 ^ 29.
Proof.
  intros R0 R1 R2 R3. unfold syncsafe_or.
  assert (B0 : 0 <= b0 * 2 ^ 21 < 2 ^ 29)
    by (change (2 ^ 21) with 2097152; change (2 ^ 29) with 536870912; lia).
  assert (B1 : 0 <= b1 * 2 ^ 14 < 2 ^ 29)
    by (change (2 ^ 14) with 16384; change (2 ^ 29) with 536870912; lia).
  assert (B2 : 0 <= b2 * 2 ^ 7 < 2 ^ 29)
    by (change (2 ^ 7) with 128; change (2 ^ 29) with 536870912; lia).
  assert (B3 : 0 <= b3 < 2 ^ 29) by (change (2 ^ 29) with 536870912; lia).
  repeat apply lor_bound; assumption || lia.
Qed.

Lemma syncsafe_or_seven_bits (b0 b1 b2 b3 : Z) :
  0 <= b0 < 128 -> 0 <= b1 < 128 -> 0 <= b2 < 128 -> 0 <= b3 < 128 ->
  syncsafe_or b0 b1 b2 b3 = b0 * 2 ^ 21 + b1 * 2 ^ 14 + b2 * 2 ^ 7 + b3.
Proof.
  intros R0 R1 R2 R3. unfold syncsafe_or.
  replace (b0 * 2 ^ 21) with (b0 * 2 ^ 7 * 2 ^ 14) by (change (2 ^ 21) with (2 ^ 7 * 2 ^ 14); ring).
  replace (Z.lor (b0 * 2 ^ 7 * 2 ^ 14) (b1 * 2 ^ 14))
    with ((b0 * 2 ^ 7 + b1) * 2 ^ 14).
  2:{ replace (b0 * 2 ^ 7 * 2 ^ 14) with (b0 * 2 ^ 21)
        by (change (2 ^ 21) with (2 ^ 7 * 2 ^ 14); ring).
      rewrite lor_high_low;
        [change (2 ^ 21) with (2 ^ 7 * 2 ^ 14); ring | lia | lia |].
      change (2 ^ 14) with 16384; change (2 ^ 21) with 2097152; lia. }
  replace ((b0 * 2 ^ 7 + b1) * 2 ^ 14) with ((b0 * 2 ^ 7 + b1) * 2 ^ 7 * 2 ^ 7)
    by (change (2 ^ 14) with (2 ^ 7 * 2 ^ 7); ring).
  replace (Z.lor ((b0 * 2 ^ 7 + b1) * 2 ^ 7 * 2 ^ 7) (b2 * 2 ^ 7))
    with (((b0 * 2 ^ 7 + b1) * 2 ^ 7 + b2) * 2 ^ 7).
  2:{ replace ((b0 * 2 ^ 7 + b1) * 2 ^ 7 * 2 ^ 7) with ((b0 * 2 ^ 7 + b1) * 2 ^ 14)
        by (change (2 ^ 14) with (2 ^ 7 * 2 ^ 7); ring).
      rewrite lor_high_low;
        [change (2 ^ 14) with (2 ^ 7 * 2 ^ 7); ring | lia | change (2 ^ 7) with 128; lia |].
      change (2 ^ 7) with 128; change (2 ^ 14) with 16384; lia. }
  rewrite lor_high_low;
    [ change (2 ^ 21) with (2 ^ 7 * 2 ^ 7 * 2 ^ 7); change (2 ^ 14) with (2 ^ 7 * 2 ^ 7); ring
    | lia | change (2 ^ 7) with 128; lia | change (2 ^ 7) with 128; lia ].
Qed.

(** C5, amended: where four bytes can be read, the reader returns the
    bitwise or of the four whole bytes shifted left by 21, 14, 7 and 0 bits,
    a value below 2^29; when the most significant bit of each of the four
    bytes is clear, this is the 28-bit number in which each byte contributes
    its seven bits, below 2^28. *)
Theorem readSyncsafeInt_value (buf : ArrayBuffer) (offset : Z) :
  0 <= offset -> offset + 4 <= byteLength buf ->
  let b0 := byte_at buf offset in
  let b1 := byte_at buf (offset + 1) in
  let b2 := byte_at buf (offset + 2) in
  let b3 := byte_at buf (offset + 3) in
  exists v,
    readSyncsafeInt buf offset = Ret v /\
    v = syncsafe_or b0 b1 b2 b3 /\
    0 <= v < 2 ^ 29 /\
    (b0 < 128 -> b1 < 128 -> b2 < 128 -> b3 < 128 ->
     v = b0 * 2 ^ 21 + b1 * 2 ^ 14 + b2 * 2 ^ 7 + b3 /\ v < 2 ^ 28).
Proof.
  intros H1 H2 b0 b1 b2 b3.
  pose proof (byte_at_range buf offset) as R0.
  pose proof (byte_at_range buf (offset + 1)) as R1.
  pose proof (byte_at_range buf (offset + 2)) as R2.
  pose proof (byte_at_range buf (offset + 3)) as R3.
  fold b0 in R0. fold b1 in R1. fold b2 in R2. fold b3 in R3.
  exists (syncsafe_or b0 b1 b2 b3).
  split; [apply readSyncsafeInt_in; assumption|].
  split; [reflexivity|].
  split; [apply syncsafe_or_bound; assumption|].
  intros L0 L1 L2 L3.
  rewrite syncsafe_or_seven_bits by lia.
  split; [reflexivity|].
  change (2 ^ 21) with 2097152; change (2 ^ 14) with 16384;
    change (2 ^ 7) with 128; change (2 ^ 28) with 268435456. lia.
Qed.

Lemma readSyncsafeInt_value_witness :
  exists v, readSyncsafeInt [x00; x00; x02; x01] 0 = Ret v /\ v = 257.
Proof.
  destruct (@readSyncsafeInt_value [x00; x00; x02; x01] 0) as [v [Hv [_ [_ H7]]]].
  - lia.
  - vm_compute. discriminate.
  - exists v. split; [exact Hv|].
    destruct H7 as [E _]; try (vm_compute; reflexivity).
    rewrite E. vm_compute. reflexivity.
Defined.

(** C5 as stated fails: a byte with its most significant bit set
    contributes all eight bits, and the result can reach 2^28 and more. *)
Lemma readSyncsafeInt_msb_counterexample :
  ~ (forall buf offset v,
        0 <= offset -> offset + 4 <= byteLength buf ->
        readSyncsafeInt buf offset = Ret v -> v < 2 ^ 28).
Proof.
  intros H.
  specialize (H [xff; x00; x00; x00] 0 534773760).
  assert (534773760 < 2 ^ 28) as C.
  { apply H; [lia | vm_compute; discriminate | vm_compute; reflexivity]. }
  vm_compute in C. discriminate.
Qed.

(** ** The FLAC STREAMINFO duration (C3) *)

(** C3 at its own example: the file whose STREAMINFO block declares 44100
    samples per second and 441000 samples.  The sample count the parser
    computes is the sample rate or-ed with four bits of the byte at body
    offset 16, here 44110, so the duration is 44110 / 44100 and not 10. *)
Theorem flac_streaminfo_duration_observed :
  exists r,
    parseMetadata (enough_fuel streaminfo_flac) streaminfo_flac (lit "a.flac") = Ret r /\
    duration r = num_div 44110 44100 /\
    PrimFloat.eqb (duration r) (num_of_Z 10) = false.
Proof.
  eexists. split; [vm_compute; reflexivity|].
  split; vm_compute; reflexivity.
Qed.

(** The sample rate is read as the format has it, the 20 bits on top of
    the word at body offset 10; the sample count is not: it is that same
    number with the low four bits of the word at body offset 13 or-ed in. *)
Lemma flac_sampleRate_top20 (w10 : Z) :
  0 <= w10 < 4294967296 -> flac_sampleRate w10 = w10 / 4096.
Proof.
  intros H. unfold flac_sampleRate, js_and, js_shr.
  change (12 mod 32) with 12. change (toInt32 1048575) with (Z.ones 20).
  rewrite Z.shiftr_div_pow2 by lia. change (2 ^ 12) with 4096.
  assert (R : -2147483648 <= toInt32 w10 < 2147483648).
  { unfold toInt32. pose proof (Z.mod_pos_bound (w10 + 2147483648) 4294967296). lia. }
  rewrite (@toInt32_small (toInt32 w10 / 4096)) by (Z.div_mod_to_equations; lia).
  rewrite Z.land_ones by lia. change (2 ^ 20) with 1048576.
  unfold toInt32 in *. Z.div_mod_to_equations. lia.
Qed.

Lemma flac_totalSamples_value (w10 w13 : Z) :
  0 <= w10 < 2147483648 -> 0 <= w13 < 4294967296 ->
  flac_totalSamples w10 w13 = Z.lor (w13 mod 16) (w10 / 4096).
Proof.
  intros H10 H13. unfold flac_totalSamples, js_or, js_shl, js_and, js_shr.
  change (32 mod 32) with 0. change (12 mod 32) with 12.
  change (toInt32 15) with (Z.ones 4).
  rewrite (@toInt32_small w10) by lia.
  rewrite Z.shiftr_div_pow2 by lia. change (2 ^ 12) with 4096.
  assert (M : Z.land (toInt32 w13) (Z.ones 4) = w13 mod 16).
  { rewrite Z.land_ones by lia. change (2 ^ 4) with 16.
    unfold toInt32. Z.div_mod_to_equations. lia. }
  rewrite M.
  assert (0 <= w13 mod 16 < 16) by (apply Z.mod_pos_bound; lia).
  rewrite (@toInt32_small (w13 mod 16)) by lia.
  rewrite Z.shiftl_0_r.
  rewrite !(@toInt32_small (w13 mod 16)) by lia.
  rewrite (@toInt32_small (w10 / 4096)) by (Z.div_mod_to_equations; lia).
  reflexivity.
Qed.

(** ** The WAV chunk scan (C4) *)

(** C4 at its own example: the sizes of the chunks are read most
    significant byte first, so the [fmt ] chunk of 16 bytes is taken to be
    268435456 bytes long, the search for the [data] chunk starts beyond the
    end of the file, and the duration stays 0. *)
Theorem wav_minimal_duration_observed :
  getUint32 minimal_wav 16 = Ret 268435456 /\
  exists r,
    parseMetadata (enough_fuel minimal_wav) minimal_wav (lit "a.wav") = Ret r /\
    duration r = num_of_Z 0 /\
    PrimFloat.eqb (duration r) (num_of_Z 10) = false.
Proof.
  split; [vm_compute; reflexivity|].
  eexists. split; [vm_compute; reflexivity|].
  split; vm_compute; reflexivity.
Qed.

(** ** The ID3v2 round trip (C6) *)

(** C6 at its own example.  Each text frame loses its last character: the
    frame loop passes the frame size less one, and the frame reader, which
    takes the size to include the encoding byte, subtracts one again.  The
    picture reader ends in the [catch] clause on the unbound [audioData] and
    returns null, so no cover is stored. *)
Theorem mp3_roundtrip_observed :
  exists r,
    parseMetadata (enough_fuel roundtrip_mp3) roundtrip_mp3 (lit "song.mp3") = Ret r /\
    title r = lit "Tes" /\ artist r = lit "Artis" /\ album r = lit "Albu" /\
    cover r = None /\ coverType r = None.
Proof.
  eexists. split; [vm_compute; reflexivity|].
  repeat split; vm_compute; reflexivity.
Qed.

(** On no buffer does the MP3 path store a cover. *)
Lemma mp3_body_cover (buf : ArrayBuffer) (version endOffset : Z) (s : mp3_state)
    (c : ctl mp3_state) :
  mp3_body buf version endOffset s = Ret c ->
  cover (snd (ctl_state c)) = cover (snd s) /\
  coverType (snd (ctl_state c)) = coverType (snd s).
Proof.
  destruct s as [offset metadata]. unfold mp3_body. intros H.
  ret_inv H; ret_done H; cbn [ctl_state snd]; auto.
  ret_inv E4; try ret_done E4; auto.
  rewrite readAPICFrame_null in E5. discriminate E5.
Qed.

Lemma parseMP3_cover (fuel : nat) (buf : ArrayBuffer) (defaults r : Metadata) :
  parseMP3 fuel buf defaults = Ret r ->
  cover r = cover defaults /\ coverType r = coverType defaults.
Proof.
  unfold parseMP3. intros H. ret_inv H; ret_done H; auto.
  apply (while_loop_invariant _ _
           (fun s => cover (snd s) = cover defaults /\ coverType (snd s) = coverType defaults))
    in E4; [exact E4| | |split; reflexivity].
  - intros s s' [Hc Ht] _ B. apply mp3_body_cover in B. cbn [ctl_state] in B.
    destruct B as [-> ->]. auto.
  - intros s s' [Hc Ht] _ B. apply mp3_body_cover in B. cbn [ctl_state] in B.
    destruct B as [-> ->]. auto.
Qed.

Lemma mp3_cover_never_set (fuel : nat) (buf : ArrayBuffer) (path : jsstring) (r : Metadata) :
  toLowerCase (getFileExtension path) = lit ".mp3" ->
  parseMetadata fuel buf path = Ret r ->
  cover r = None /\ coverType r = None.
Proof.
  intros Hext H. unfold parseMetadata in H. rewrite Hext in H.
  change (jsstring_eqb (lit ".mp3") (lit ".mp3")) with true in H. cbv iota in H.
  ret_inv H; ret_done H; [|split; reflexivity].
  apply parseMP3_cover in E. exact E.
Qed.

(** ** Every loop moves forward *)

Ltac read_facts :=
  repeat match goal with
  | E : getUint8 _ _ = Ret _ |- _ =>
      apply getUint8_Ret in E; destruct E as (? & ? & ?)
  | E : getUint16 _ _ = Ret _ |- _ =>
      apply getUint16_Ret in E; destruct E as (? & ?)
  | E : getUint32 _ _ = Ret _ |- _ =>
      apply getUint32_Ret in E; destruct E as (? & ? & ?)
  end.

Ltac bool_facts :=
  repeat match goal with
  | C : (_ || _) = false |- _ => apply orb_false_iff in C; destruct C
  | C : (_ && _) = true |- _ => apply andb_true_iff in C; destruct C
  | C : negb _ = true |- _ => apply negb_true_iff in C
  | C : negb _ = false |- _ => apply negb_false_iff in C
  end.

Lemma frame_header_size_pos (version : Z) : 6 <= frame_header_size version.
Proof. unfold frame_header_size. destruct (version >=? 3); lia. Qed.

Lemma mp3_body_advances (buf : ArrayBuffer) (version endOffset : Z) :
  advances buf fst (mp3_body buf version endOffset).
Proof.
  intros [offset metadata] s' H. unfold mp3_body in H.
  ret_inv H; ret_done H.
  read_facts. bool_facts. unfold fst.
  pose proof (frame_header_size_pos version). lia.
Qed.

Lemma js_or_nonneg (a b : Z) :
  0 <= a < 2147483648 -> 0 <= b < 2147483648 -> 0 <= js_or a b.
Proof.
  intros Ha Hb. unfold js_or. rewrite !toInt32_small by lia.
  apply Z.lor_nonneg. lia.
Qed.

(** The 24-bit block size of a FLAC block header. *)
Lemma flac_blockSize_nonneg (b1 b2 b3 : Z) :
  0 <= b1 < 256 -> 0 <= b2 < 256 -> 0 <= b3 < 256 ->
  0 <= js_or (js_or (js_shl b1 16) (js_shl b2 8)) b3.
Proof.
  intros R1 R2 R3.
  rewrite !js_shl_byte by lia.
  assert (B1 : 0 <= b1 * 2 ^ 16 < 2 ^ 24)
    by (change (2 ^ 16) with 65536; change (2 ^ 24) with 16777216; lia).
  assert (B2 : 0 <= b2 * 2 ^ 8 < 2 ^ 24)
    by (change (2 ^ 8) with 256; change (2 ^ 24) with 16777216; lia).
  rewrite (@js_or_small 24 (b1 * 2 ^ 16)) by (lia || assumption).
  pose proof (lor_bound (n := 24) ltac:(lia) B1 B2) as B12.
  change (2 ^ 24) with 16777216 in B12.
  apply js_or_nonneg; lia.
Qed.

Lemma flac_body_advances (fuel : nat) (buf : ArrayBuffer) :
  advances buf fst (flac_body fuel buf).
Proof.
  intros [offset metadata] s' H. unfold flac_body in H.
  ret_inv H; ret_done H.
  read_facts. subst. unfold fst.
  pose proof (flac_blockSize_nonneg (byte_at_range buf (offset + 1))
                (byte_at_range buf (offset + 2)) (byte_at_range buf (offset + 3))).
  lia.
Qed.

Lemma vorbis_body_advances (buf : ArrayBuffer) :
  advances buf vorbis_pos (vorbis_body buf).
Proof.
  intros [[i pos] result] s' H. unfold vorbis_body in H.
  ret_inv H; ret_done H.
  ret_inv E; ret_done E.
  read_facts. unfold vorbis_pos, fst, snd. lia.
Qed.

Lemma wav_next_offset_ge (offset chunkSize : Z) :
  offset + 8 + chunkSize <= wav_next_offset offset chunkSize.
Proof. unfold wav_next_offset. destruct (negb _); lia. Qed.

Lemma wavdata_body_advances (buf : ArrayBuffer) :
  advances buf fst (wavdata_body buf).
Proof.
  intros [offset found] s' H. unfold wavdata_body in H. cbn [fst] in H.
  ret_inv H; ret_done H.
  read_facts. unfold fst.
  match goal with |- context [wav_next_offset ?o ?c] =>
    pose proof (wav_next_offset_ge o c) end. lia.
Qed.

Lemma wavinfo_body_advances (buf : ArrayBuffer) (endOffset : Z) :
  advances buf fst (wavinfo_body buf endOffset).
Proof.
  intros [pos info] s' H. unfold wavinfo_body in H.
  ret_inv H; ret_done H.
  read_facts. bool_facts. unfold fst.
  match goal with |- context [wav_next_offset ?o ?c] =>
    pose proof (wav_next_offset_ge o c) end. lia.
Qed.

Lemma wav_body_advances (fuel : nat) (buf : ArrayBuffer) :
  advances buf fst (wav_body fuel buf).
Proof.
  intros [offset metadata] s' H. unfold wav_body in H.
  ret_inv H; ret_done H.
  read_facts. unfold fst.
  match goal with |- context [wav_next_offset ?o ?c] =>
    pose proof (wav_next_offset_ge o c) end. lia.
Qed.

(** The offset never moves backwards in a loop whose rounds never move it
    backwards. *)
Lemma while_loop_offset_mono {S : Type} (off : S -> Z) (cond : S -> bool)
    (body : S -> outcome (ctl S)) :
  (forall s c, body s = Ret c -> off s <= off (ctl_state c)) ->
  forall fuel s r, while_loop cond body fuel s = Ret r -> off s <= off r.
Proof.
  intros Hb fuel s r H.
  apply (while_loop_invariant cond body (fun s' => off s <= off s')) with (fuel := fuel) (s := s);
    [| |lia|exact H].
  - intros s1 s2 H1 _ B. specialize (Hb s1 _ B). cbn [ctl_state] in Hb. lia.
  - intros s1 s2 H1 _ B. specialize (Hb s1 _ B). cbn [ctl_state] in Hb. lia.
Qed.

Lemma atom_advance_mono (size : Z) (s : m4a_state) :
  0 <= size -> fst s <= fst (ctl_state (atom_advance size s)).
Proof.
  intros H. unfold atom_advance. destruct (size =? 0); cbn [ctl_state fst]; lia.
Qed.

Lemma atom_advance_Continue (size : Z) (s s' : m4a_state) :
  0 <= size -> atom_advance size s = Continue s' -> fst s + 1 <= fst s'.
Proof.
  intros H. unfold atom_advance. destruct (size =? 0) eqn:C; intros E; [discriminate|].
  injection E as <-. unfold fst. lia.
Qed.

(** The analysis of an atom loop body ends on [Ret (atom_advance size s1) =
    Ret c]. *)
Ltac atom_done H :=
  apply Ret_inj in H; subst; read_facts;
  match goal with
  | |- _ <= fst (ctl_state (atom_advance ?size ?s)) =>
      pose proof (@atom_advance_mono size s ltac:(lia)); unfold fst in *; lia
  end.

Lemma mediainfo_body_mono (buf : ArrayBuffer) (s : m4a_state) (c : ctl m4a_state) :
  mediainfo_body buf s = Ret c -> fst s <= fst (ctl_state c).
Proof.
  destruct s as [offset result]. unfold mediainfo_body. intros H.
  ret_inv H; ret_inv E1; ret_done E1; atom_done H.
Qed.

Lemma parseMediaInfo_mono (fuel : nat) (buf : ArrayBuffer) (offset : Z)
    (result : M4AResult) (s : m4a_state) :
  parseMediaInfo fuel buf offset result = Ret s -> offset + 8 <= fst s.
Proof.
  unfold parseMediaInfo. intros H. ret_inv H.
  apply (while_loop_offset_mono fst) in H; [exact H|].
  intros s0 c. apply mediainfo_body_mono.
Qed.

Lemma media_body_mono (fuel : nat) (buf : ArrayBuffer) (s : m4a_state) (c : ctl m4a_state) :
  media_body fuel buf s = Ret c -> fst s <= fst (ctl_state c).
Proof.
  destruct s as [offset result]. unfold media_body. intros H.
  ret_inv H. atom_done H.
Qed.

Lemma parseMedia_mono (fuel : nat) (buf : ArrayBuffer) (offset : Z)
    (result : M4AResult) (s : m4a_state) :
  parseMedia fuel buf offset result = Ret s -> offset + 8 <= fst s.
Proof.
  unfold parseMedia. intros H. ret_inv H.
  apply (while_loop_offset_mono fst) in H; [exact H|].
  intros s0 c. apply media_body_mono.
Qed.

Lemma track_body_mono (fuel : nat) (buf : ArrayBuffer) (s : m4a_state) (c : ctl m4a_state) :
  track_body fuel buf s = Ret c -> fst s <= fst (ctl_state c).
Proof.
  destruct s as [offset result]. unfold track_body. intros H.
  ret_inv H. atom_done H.
Qed.

Lemma parseTrack_mono (fuel : nat) (buf : ArrayBuffer) (offset : Z)
    (result : M4AResult) (s : m4a_state) :
  parseTrack fuel buf offset result = Ret s -> offset + 8 <= fst s.
Proof.
  unfold parseTrack. intros H. ret_inv H.
  apply (while_loop_offset_mono fst) in H; [exact H|].
  intros s0 c. apply track_body_mono.
Qed.

Lemma ilst_body_mono (buf : ArrayBuffer) (s : m4a_state) (c : ctl m4a_state) :
  ilst_body buf s = Ret c -> fst s <= fst (ctl_state c).
Proof.
  destruct s as [offset result]. unfold ilst_body. intros H.
  ret_inv H. atom_done H.
Qed.

Lemma m4a_parseMetadata_mono (fuel : nat) (buf : ArrayBuffer) (offset : Z)
    (result : M4AResult) (s : m4a_state) :
  m4a_parseMetadata fuel buf offset result = Ret s -> offset + 8 <= fst s.
Proof.
  unfold m4a_parseMetadata. intros H. ret_inv H.
  apply (while_loop_offset_mono fst) in H; [exact H|].
  intros s0 c. apply ilst_body_mono.
Qed.

Lemma parse_body_mono (sub_parse : Z -> outcome M4AResult) (fuel : nat)
    (buf : ArrayBuffer) (s : m4a_state) (c : ctl m4a_state) :
  parse_body sub_parse fuel buf s = Ret c -> fst s <= fst (ctl_state c).
Proof.
  destruct s as [offset result]. unfold parse_body. intros H.
  ret_inv H. ret_inv E1.
  - ret_done E1. atom_done H.
  - apply parseTrack_mono in E1. atom_done H.
  - apply m4a_parseMetadata_mono in E1. atom_done H.
  - apply parseMedia_mono in E1. atom_done H.
  - ret_done E1. atom_done H.
Qed.

Lemma mediainfo_body_advances (buf : ArrayBuffer) :
  advances buf fst (mediainfo_body buf).
Proof.
  intros [offset result] s' H.
  pose proof (mediainfo_body_mono _ _ H) as M. cbn [ctl_state] in M.
  unfold mediainfo_body in H. ret_inv H.
  apply getUint32_Ret in E; destruct E as (? & ? & ?).
  apply Ret_inj in H.
  unfold atom_advance in H. destruct (a =? 0) eqn:Z0; [discriminate|].
  apply Z.eqb_neq in Z0. injection H as <-.
  assert (offset <= fst a1).
  { ret_inv E1; ret_done E1; unfold fst; lia. }
  unfold fst in *. repeat split; lia.
Qed.

(** Ends the analysis of an atom loop round that asks for another round. *)
Ltac atom_continue H :=
  apply Ret_inj in H;
  match goal with
  | E : getUint32 _ _ = Ret _ |- _ =>
      apply getUint32_Ret in E; destruct E as (? & ? & ?)
  end;
  match type of H with
  | atom_advance ?size ?s = Continue _ =>
      pose proof (@atom_advance_Continue size s _ ltac:(lia) H)
  end;
  unfold fst in *; repeat split; lia.

Lemma media_body_advances (fuel : nat) (buf : ArrayBuffer) :
  advances buf fst (media_body fuel buf).
Proof.
  intros [offset result] s' H. unfold media_body in H.
  ret_inv H. atom_continue H.
Qed.

Lemma track_body_advances (fuel : nat) (buf : ArrayBuffer) :
  advances buf fst (track_body fuel buf).
Proof.
  intros [offset result] s' H. unfold track_body in H.
  ret_inv H. atom_continue H.
Qed.

Lemma ilst_body_advances (buf : ArrayBuffer) :
  advances buf fst (ilst_body buf).
Proof.
  intros [offset result] s' H. unfold ilst_body in H.
  ret_inv H. atom_continue H.
Qed.

Lemma parse_body_advances (sub_parse : Z -> outcome M4AResult) (fuel : nat)
    (buf : ArrayBuffer) :
  advances buf fst (parse_body sub_parse fuel buf).
Proof.
  intros [offset result] s' H. unfold parse_body in H.
  ret_inv H.
  assert (M : offset <= fst a1).
  { ret_inv E1.
    - ret_done E1. unfold fst. lia.
    - apply parseTrack_mono in E1. lia.
    - apply m4a_parseMetadata_mono in E1. lia.
    - apply parseMedia_mono in E1. lia.
    - ret_done E1. unfold fst. lia. }
  clear E1. atom_continue H.
Qed.

(** ** Every loop ends *)

(** The bytes left from an offset on are the measure every loop lowers. *)
Lemma bytes_left_lt_fuel (buf : ArrayBuffer) (fuel : nat) (o : Z) :
  (List.length buf < fuel)%nat -> (bytes_left buf o < fuel)%nat.
Proof. unfold bytes_left, byteLength. lia. Qed.

Lemma bytes_left_antitone (buf : ArrayBuffer) (o o' : Z) :
  o <= o' -> (bytes_left buf o' <= bytes_left buf o)%nat.
Proof. unfold bytes_left. lia. Qed.

Lemma bytes_left_step (buf : ArrayBuffer) (o o' : Z) :
  0 <= o -> o < byteLength buf -> o + 1 <= o' ->
  (bytes_left buf o' < bytes_left buf o)%nat.
Proof. unfold bytes_left. lia. Qed.

(** A loop whose rounds advance ends within as many rounds as there are
    bytes left from its first offset on, and one more to see the test
    fail. *)
Lemma advancing_loop_terminates_from {S : Type} (buf : ArrayBuffer) (off : S -> Z)
    (cond : S -> bool) (body : S -> outcome (ctl S)) (I : S -> Prop) :
  advances buf off body ->
  (forall s s', I s -> cond s = true -> body s = Ret (Continue s') -> I s') ->
  (forall s, I s -> cond s = true -> terminates (body s)) ->
  forall fuel s, I s -> (bytes_left buf (off s) < fuel)%nat ->
                 terminates (while_loop cond body fuel s).
Proof.
  intros Ha Hi Ht fuel s Hs Hf.
  apply (while_loop_terminates cond body I (fun s => bytes_left buf (off s))).
  - intros s1 s2 H1 C B. split; [eapply Hi; eauto|].
    destruct (Ha _ _ B) as (? & ? & ?). apply bytes_left_step; assumption.
  - exact Ht.
  - exact Hs.
  - exact Hf.
Qed.

Lemma advancing_loop_terminates {S : Type} (buf : ArrayBuffer) (off : S -> Z)
    (cond : S -> bool) (body : S -> outcome (ctl S)) (I : S -> Prop) :
  advances buf off body ->
  (forall s s', I s -> cond s = true -> body s = Ret (Continue s') -> I s') ->
  (forall s, I s -> cond s = true -> terminates (body s)) ->
  forall fuel s, I s -> (List.length buf < fuel)%nat ->
                 terminates (while_loop cond body fuel s).
Proof.
  intros Ha Hi Ht fuel s Hs Hf.
  eapply advancing_loop_terminates_from; eauto.
  apply bytes_left_lt_fuel. exact Hf.
Qed.

Lemma terminates_parseMP3 (fuel : nat) (buf : ArrayBuffer) (defaults : Metadata) :
  (List.length buf < fuel)%nat -> terminates (parseMP3 fuel buf defaults).
Proof.
  intros Hf. unfold parseMP3, has_id3_magic. term_auto.
  eapply (@advancing_loop_terminates _ buf fst) with (I := fun _ => True);
    [apply mp3_body_advances | auto | | exact I | exact Hf].
  intros [offset metadata] _ _. unfold mp3_body. term_auto.
Qed.

Lemma terminates_parseVorbisComments (fuel : nat) (buf : ArrayBuffer) (offset size : Z) :
  (List.length buf < fuel)%nat -> terminates (parseVorbisComments fuel buf offset size).
Proof.
  intros Hf. unfold parseVorbisComments. term_auto.
  eapply (@advancing_loop_terminates _ buf vorbis_pos) with (I := fun _ => True);
    [apply vorbis_body_advances | auto | | exact I | exact Hf].
  intros [[i pos] result] _ _. unfold vorbis_body. term_auto.
Qed.

Lemma terminates_parseFLAC (fuel : nat) (buf : ArrayBuffer) (defaults : Metadata) :
  (List.length buf < fuel)%nat -> terminates (parseFLAC fuel buf defaults).
Proof.
  intros Hf. unfold parseFLAC. term_auto.
  eapply (@advancing_loop_terminates _ buf fst) with (I := fun _ => True);
    [apply flac_body_advances | auto | | exact I | exact Hf].
  intros [offset metadata] _ _. unfold flac_body. term_auto.
  apply terminates_parseVorbisComments. exact Hf.
Qed.

Lemma terminates_findWAVDataSize (fuel : nat) (buf : ArrayBuffer) (startOffset fileSize : Z) :
  (List.length buf < fuel)%nat ->
  terminates (findWAVDataSize fuel buf startOffset fileSize).
Proof.
  intros Hf. unfold findWAVDataSize. term_auto.
  eapply (@advancing_loop_terminates _ buf fst) with (I := fun _ => True);
    [apply wavdata_body_advances | auto | | exact I | exact Hf].
  intros [offset found] _ _. unfold wavdata_body. term_auto.
Qed.

Lemma terminates_parseWAVInfo (fuel : nat) (buf : ArrayBuffer) (offset size : Z) :
  (List.length buf < fuel)%nat -> terminates (parseWAVInfo fuel buf offset size).
Proof.
  intros Hf. unfold parseWAVInfo. term_auto.
  eapply (@advancing_loop_terminates _ buf fst) with (I := fun _ => True);
    [apply wavinfo_body_advances | auto | | exact I | exact Hf].
  intros [pos info] _ _. unfold wavinfo_body. term_auto.
Qed.

Lemma terminates_parseWAV (fuel : nat) (buf : ArrayBuffer) (defaults : Metadata) :
  (List.length buf < fuel)%nat -> terminates (parseWAV fuel buf defaults).
Proof.
  intros Hf. unfold parseWAV. term_auto.
  eapply (@advancing_loop_terminates _ buf fst) with (I := fun _ => True);
    [apply wav_body_advances | auto | | exact I | exact Hf].
  intros [offset metadata] _ _. unfold wav_body. term_auto.
  - apply terminates_findWAVDataSize. exact Hf.
  - apply terminates_parseWAVInfo. exact Hf.
Qed.

(** The atom loops of the M4A parser: the budget that is enough for a loop
    is enough for the loops it starts further on in the buffer. *)
Lemma terminates_parseMediaInfo (fuel : nat) (buf : ArrayBuffer) (offset : Z)
    (result : M4AResult) :
  (bytes_left buf (offset + 8) < fuel)%nat ->
  terminates (parseMediaInfo fuel buf offset result).
Proof.
  intros Hf. unfold parseMediaInfo. term_auto.
  eapply (@advancing_loop_terminates_from _ buf fst) with (I := fun _ => True);
    [apply mediainfo_body_advances | auto | | exact I | exact Hf].
  intros [o r] _ _. unfold mediainfo_body. term_auto.
Qed.

Lemma terminates_parseMedia (fuel : nat) (buf : ArrayBuffer) (offset : Z)
    (result : M4AResult) :
  (bytes_left buf (offset + 8) < fuel)%nat ->
  terminates (parseMedia fuel buf offset result).
Proof.
  intros Hf. unfold parseMedia. term_auto.
  eapply (@advancing_loop_terminates_from _ buf fst)
    with (I := fun s => offset + 8 <= fst s);
    [apply media_body_advances | | | unfold fst; lia | exact Hf].
  - intros s s' Hs _ B. apply media_body_advances in B. lia.
  - intros [o r] Hs _. unfold fst in Hs. unfold media_body. term_auto.
    apply terminates_parseMediaInfo.
    pose proof (@bytes_left_antitone buf (offset + 8) (o + 8 + 8) ltac:(lia)). lia.
Qed.

Lemma terminates_parseTrack (fuel : nat) (buf : ArrayBuffer) (offset : Z)
    (result : M4AResult) :
  (bytes_left buf (offset + 8) < fuel)%nat ->
  terminates (parseTrack fuel buf offset result).
Proof.
  intros Hf. unfold parseTrack. term_auto.
  eapply (@advancing_loop_terminates_from _ buf fst)
    with (I := fun s => offset + 8 <= fst s);
    [apply track_body_advances | | | unfold fst; lia | exact Hf].
  - intros s s' Hs _ B. apply track_body_advances in B. lia.
  - intros [o r] Hs _. unfold fst in Hs. unfold track_body. term_auto.
    apply terminates_parseMedia.
    pose proof (@bytes_left_antitone buf (offset + 8) (o + 8 + 8) ltac:(lia)). lia.
Qed.

Lemma terminates_m4a_parseMetadata (fuel : nat) (buf : ArrayBuffer) (offset : Z)
    (result : M4AResult) :
  (bytes_left buf (offset + 8) < fuel)%nat ->
  terminates (m4a_parseMetadata fuel buf offset result).
Proof.
  intros Hf. unfold m4a_parseMetadata. term_auto.
  eapply (@advancing_loop_terminates_from _ buf fst) with (I := fun _ => True);
    [apply ilst_body_advances | auto | | exact I | exact Hf].
  intros [o r] _ _. unfold ilst_body. term_auto.
Qed.

(** [parse]: by induction on the budget, which bounds the depth of the
    [moov] recursion as well as the rounds. *)
Lemma terminates_parse (buf : ArrayBuffer) :
  forall fuel offset, (bytes_left buf offset < fuel)%nat ->
                      terminates (parse fuel buf offset).
Proof.
  induction fuel as [|fuel IH]; intros offset Hf; [lia|].
  cbn [parse]. term_auto.
  eapply (@advancing_loop_terminates_from _ buf fst)
    with (I := fun s => offset <= fst s);
    [apply parse_body_advances | | | unfold fst; lia | exact Hf].
  - intros s s' Hs _ B. apply parse_body_advances in B. lia.
  - intros [o r] Hs _. unfold fst in Hs. unfold parse_body.
    assert (Sub : forall a, getUint32 buf o = Ret a -> (bytes_left buf (o + 8) < fuel)%nat).
    { intros a E. apply getUint32_Ret in E. destruct E as (? & ? & ?).
      pose proof (@bytes_left_antitone buf offset o ltac:(lia)).
      pose proof (@bytes_left_step buf o (o + 8) ltac:(lia) ltac:(lia) ltac:(lia)).
      lia. }
    term_auto.
    + apply IH. eapply Sub; eassumption.
    + apply terminates_parseTrack. eapply Sub; eassumption.
    + apply terminates_m4a_parseMetadata. eapply Sub; eassumption.
    + apply terminates_parseMedia. eapply Sub; eassumption.
Qed.

Lemma terminates_parseM4A (fuel : nat) (buf : ArrayBuffer) (defaults : Metadata) :
  (List.length buf < fuel)%nat -> terminates (parseM4A fuel buf defaults).
Proof.
  intros Hf. unfold parseM4A. term_auto.
  apply terminates_parse. apply bytes_left_lt_fuel. exact Hf.
Qed.

(** The dispatcher ends on every buffer and every file name, given a budget
    above the length of the buffer, and it ends with a record. *)
Lemma terminates_parseMetadata (fuel : nat) (buf : ArrayBuffer) (path : jsstring) :
  (List.length buf < fuel)%nat -> terminates (parseMetadata fuel buf path).
Proof.
  intros Hf. unfold parseMetadata. term_auto.
  - apply terminates_parseMP3. exact Hf.
  - apply terminates_parseFLAC. exact Hf.
  - apply terminates_parseM4A. exact Hf.
  - apply terminates_parseWAV. exact Hf.
Qed.

Lemma parseMetadata_returns (fuel : nat) (buf : ArrayBuffer) (path : jsstring) :
  (List.length buf < fuel)%nat -> exists r, parseMetadata fuel buf path = Ret r.
Proof.
  intros Hf. pose proof (terminates_parseMetadata buf path Hf) as T.
  unfold parseMetadata in *.
  match goal with |- exists r, try_catch ?m _ = _ => destruct m as [r|e|] end;
    cbn [try_catch] in *.
  - exists r. reflexivity.
  - eexists. reflexivity.
  - contradiction T. reflexivity.
Qed.

(** ** The two cover fields go together *)

Lemma parseFLACPicture_data (buf : ArrayBuffer) (offset size : Z) (pd : CoverData) :
  parseFLACPicture buf offset size = Ret (Some pd) ->
  exists b e, data pd = arrayBufferToBase64 (slice buf b e).
Proof.
  unfold parseFLACPicture. intros H. ret_inv H; ret_done H.
  ret_inv E. ret_done E. cbn [data]. eauto.
Qed.

(** Ends the analysis of a round that has only changed fields other than
    the cover. *)
Ltac wf_same Hwf :=
  first [ exact Hwf
        | unfold metadata_wf, result_wf in *; cbn in *; exact Hwf ].

Lemma mp3_body_wf (buf : ArrayBuffer) (version endOffset : Z) (s : mp3_state)
    (c : ctl mp3_state) :
  metadata_wf buf (snd s) -> mp3_body buf version endOffset s = Ret c ->
  metadata_wf buf (snd (ctl_state c)).
Proof.
  destruct s as [offset metadata]. unfold mp3_body. cbn [snd]. intros Hwf H.
  ret_inv H; ret_done H; cbn [ctl_state snd]; try exact Hwf.
  ret_inv E4; try ret_done E4; try wf_same Hwf.
  rewrite readAPICFrame_null in E5. discriminate E5.
Qed.

Lemma flac_body_wf (fuel : nat) (buf : ArrayBuffer) (s : flac_state) (c : ctl flac_state) :
  metadata_wf buf (snd s) -> flac_body fuel buf s = Ret c ->
  metadata_wf buf (snd (ctl_state c)).
Proof.
  destruct s as [offset metadata]. unfold flac_body. cbn [snd]. intros Hwf H.
  ret_inv H; ret_done H; cbn [ctl_state snd];
    ret_inv E3; try ret_done E3; try wf_same Hwf;
    apply parseFLACPicture_data in E4; destruct E4 as (b & e & ->);
    right; cbn; eauto.
Qed.

Lemma wav_body_wf (fuel : nat) (buf : ArrayBuffer) (s : wav_state) (c : ctl wav_state) :
  metadata_wf buf (snd s) -> wav_body fuel buf s = Ret c ->
  metadata_wf buf (snd (ctl_state c)).
Proof.
  destruct s as [offset metadata]. unfold wav_body. cbn [snd]. intros Hwf H.
  ret_inv H; ret_done H; cbn [ctl_state snd];
    ret_inv E4; try ret_done E4; wf_same Hwf.
Qed.

(** The state a loop of a parser ends in keeps what its rounds keep. *)
Lemma while_loop_wf {S : Type} (P : S -> Prop) (cond : S -> bool)
    (body : S -> outcome (ctl S)) :
  (forall s c, P s -> body s = Ret c -> P (ctl_state c)) ->
  forall fuel s r, P s -> while_loop cond body fuel s = Ret r -> P r.
Proof.
  intros Hb. apply while_loop_invariant.
  - intros s s' Hs _ B. apply (Hb s _ Hs B).
  - intros s s' Hs _ B. apply (Hb s _ Hs B).
Qed.

Lemma parseMP3_wf (fuel : nat) (buf : ArrayBuffer) (defaults r : Metadata) :
  metadata_wf buf defaults -> parseMP3 fuel buf defaults = Ret r -> metadata_wf buf r.
Proof.
  unfold parseMP3. intros Hwf H. ret_inv H; ret_done H; try exact Hwf.
  apply (while_loop_wf (fun s => metadata_wf buf (snd s))) in E4;
    [wf_same E4 | intros s c; apply mp3_body_wf | exact Hwf].
Qed.

Lemma parseFLAC_wf (fuel : nat) (buf : ArrayBuffer) (defaults r : Metadata) :
  metadata_wf buf defaults -> parseFLAC fuel buf defaults = Ret r -> metadata_wf buf r.
Proof.
  unfold parseFLAC. intros Hwf H. ret_inv H; ret_done H; try exact Hwf.
  apply (while_loop_wf (fun s => metadata_wf buf (snd s))) in E3;
    [exact E3 | intros s c; apply flac_body_wf | exact Hwf].
Qed.

Lemma parseWAV_wf (fuel : nat) (buf : ArrayBuffer) (defaults r : Metadata) :
  metadata_wf buf defaults -> parseWAV fuel buf defaults = Ret r -> metadata_wf buf r.
Proof.
  unfold parseWAV. intros Hwf H. ret_inv H; ret_done H; try exact Hwf.
  apply (while_loop_wf (fun s => metadata_wf buf (snd s))) in E6;
    [exact E6 | intros s c; apply wav_body_wf | exact Hwf].
Qed.

Lemma atom_advance_wf (buf : ArrayBuffer) (size : Z) (s : m4a_state) :
  result_wf buf (snd s) -> result_wf buf (snd (ctl_state (atom_advance size s))).
Proof.
  unfold atom_advance. destruct (size =? 0); cbn [ctl_state snd]; auto.
Qed.

Lemma mediainfo_body_wf (buf : ArrayBuffer) (s : m4a_state) (c : ctl m4a_state) :
  result_wf buf (snd s) -> mediainfo_body buf s = Ret c ->
  result_wf buf (snd (ctl_state c)).
Proof.
  destruct s as [offset result]. unfold mediainfo_body. cbn [snd]. intros Hwf H.
  ret_inv H. apply Ret_inj in H. subst c. apply atom_advance_wf.
  ret_inv E1; ret_done E1; wf_same Hwf.
Qed.

Lemma parseMediaInfo_wf (fuel : nat) (buf : ArrayBuffer) (offset : Z)
    (result : M4AResult) (s : m4a_state) :
  result_wf buf result -> parseMediaInfo fuel buf offset result = Ret s ->
  result_wf buf (snd s).
Proof.
  unfold parseMediaInfo. intros Hwf H. ret_inv H.
  apply (while_loop_wf (fun s => result_wf buf (snd s))) in H;
    [exact H | intros s0 c; apply mediainfo_body_wf | exact Hwf].
Qed.

Lemma media_body_wf (fuel : nat) (buf : ArrayBuffer) (s : m4a_state) (c : ctl m4a_state) :
  result_wf buf (snd s) -> media_body fuel buf s = Ret c ->
  result_wf buf (snd (ctl_state c)).
Proof.
  destruct s as [offset result]. unfold media_body. cbn [snd]. intros Hwf H.
  ret_inv H. apply Ret_inj in H. subst c. apply atom_advance_wf. cbn [snd].
  ret_inv E1; try ret_done E1; try exact Hwf.
  eapply parseMediaInfo_wf; eauto.
Qed.

Lemma parseMedia_wf (fuel : nat) (buf : ArrayBuffer) (offset : Z)
    (result : M4AResult) (s : m4a_state) :
  result_wf buf result -> parseMedia fuel buf offset result = Ret s ->
  result_wf buf (snd s).
Proof.
  unfold parseMedia. intros Hwf H. ret_inv H.
  apply (while_loop_wf (fun s => result_wf buf (snd s))) in H;
    [exact H | intros s0 c; apply media_body_wf | exact Hwf].
Qed.

Lemma track_body_wf (fuel : nat) (buf : ArrayBuffer) (s : m4a_state) (c : ctl m4a_state) :
  result_wf buf (snd s) -> track_body fuel buf s = Ret c ->
  result_wf buf (snd (ctl_state c)).
Proof.
  destruct s as [offset result]. unfold track_body. cbn [snd]. intros Hwf H.
  ret_inv H. apply Ret_inj in H. subst c. apply atom_advance_wf. cbn [snd].
  ret_inv E1; try ret_done E1; try exact Hwf.
  eapply parseMedia_wf; eauto.
Qed.

Lemma parseTrack_wf (fuel : nat) (buf : ArrayBuffer) (offset : Z)
    (result : M4AResult) (s : m4a_state) :
  result_wf buf result -> parseTrack fuel buf offset result = Ret s ->
  result_wf buf (snd s).
Proof.
  unfold parseTrack. intros Hwf H. ret_inv H.
  apply (while_loop_wf (fun s => result_wf buf (snd s))) in H;
    [exact H | intros s0 c; apply track_body_wf | exact Hwf].
Qed.

Lemma ilst_body_wf (buf : ArrayBuffer) (s : m4a_state) (c : ctl m4a_state) :
  result_wf buf (snd s) -> ilst_body buf s = Ret c ->
  result_wf buf (snd (ctl_state c)).
Proof.
  destruct s as [offset result]. unfold ilst_body. cbn [snd]. intros Hwf H.
  ret_inv H. apply Ret_inj in H. subst c. apply atom_advance_wf. cbn [snd].
  ret_inv E1; ret_done E1; try exact Hwf.
  right. cbn. eauto.
Qed.

Lemma m4a_parseMetadata_wf (fuel : nat) (buf : ArrayBuffer) (offset : Z)
    (result : M4AResult) (s : m4a_state) :
  result_wf buf result -> m4a_parseMetadata fuel buf offset result = Ret s ->
  result_wf buf (snd s).
Proof.
  unfold m4a_parseMetadata. intros Hwf H. ret_inv H.
  apply (while_loop_wf (fun s => result_wf buf (snd s))) in H;
    [exact H | intros s0 c; apply ilst_body_wf | exact Hwf].
Qed.

Lemma m4a_empty_wf (buf : ArrayBuffer) : result_wf buf m4a_empty.
Proof. left. split; reflexivity. Qed.

Lemma parse_body_wf (sub_parse : Z -> outcome M4AResult) (fuel : nat)
    (buf : ArrayBuffer) (s : m4a_state) (c : ctl m4a_state) :
  (forall o r, sub_parse o = Ret r -> result_wf buf r) ->
  result_wf buf (snd s) -> parse_body sub_parse fuel buf s = Ret c ->
  result_wf buf (snd (ctl_state c)).
Proof.
  destruct s as [offset result]. unfold parse_body. cbn [snd]. intros Hsub Hwf H.
  ret_inv H. apply Ret_inj in H. subst c. apply atom_advance_wf.
  ret_inv E1.
  - ret_done E1. apply Hsub in E2. wf_same E2.
  - eapply parseTrack_wf; eauto.
  - eapply m4a_parseMetadata_wf; eauto.
  - eapply parseMedia_wf; eauto.
  - ret_done E1. exact Hwf.
Qed.

Lemma parse_wf (buf : ArrayBuffer) :
  forall fuel offset r, parse fuel buf offset = Ret r -> result_wf buf r.
Proof.
  induction fuel as [|fuel IH]; intros offset r H; cbn [parse] in H; [discriminate|].
  ret_inv H. ret_done H.
  apply (while_loop_wf (fun s => result_wf buf (snd s))) in E;
    [exact E | | apply m4a_empty_wf].
  intros s c. apply parse_body_wf. intros o r. apply IH.
Qed.

Lemma parseM4A_wf (fuel : nat) (buf : ArrayBuffer) (defaults r : Metadata) :
  metadata_wf buf defaults -> parseM4A fuel buf defaults = Ret r -> metadata_wf buf r.
Proof.
  unfold parseM4A. intros Hwf H. ret_inv H; ret_done H; try exact Hwf.
  ret_inv E. ret_done E. apply parse_wf in E0. exact E0.
Qed.

(** Whatever the dispatcher returns, its two cover fields are both null, or
    the cover is the base64 text of a range of the file and the MIME type is
    a string. *)
Lemma parseMetadata_wf (fuel : nat) (buf : ArrayBuffer) (path : jsstring) (r : Metadata) :
  parseMetadata fuel buf path = Ret r -> metadata_wf buf r.
Proof.
  assert (D : metadata_wf buf (defaultMetadata path)) by (left; split; reflexivity).
  unfold parseMetadata. intros H. ret_inv H; ret_done H; try exact D.
  ret_inv E.
  - eapply parseMP3_wf; eauto.
  - eapply parseFLAC_wf; eauto.
  - eapply parseM4A_wf; eauto.
  - eapply parseWAV_wf; eauto.
  - ret_done E. exact D.
Qed.

(** C10: in the record the dispatcher returns, the MIME type of the cover is
    null exactly when the cover is null, whatever the buffer, the file name
    and the budget; an empty image gives an empty string, which is not
    null, together with its MIME type. *)
Theorem cover_type_iff_cover (fuel : nat) (buf : ArrayBuffer) (path : jsstring)
    (r : Metadata) :
  parseMetadata fuel buf path = Ret r ->
  (coverType r <> None <-> cover r <> None).
Proof.
  intros H. apply parseMetadata_wf in H.
  destruct H as [[Hc Ht]|(b & e & mt & Hc & Ht)]; rewrite Hc, Ht; split; congruence.
Qed.

Lemma cover_type_iff_cover_witness :
  exists r,
    parseMetadata (enough_fuel empty_picture_flac) empty_picture_flac (lit "a.flac") = Ret r /\
    cover r = Some [] /\
    (coverType r <> None <-> cover r <> None).
Proof.
  eexists. split; [vm_compute; reflexivity|]. split; [reflexivity|].
  apply (@cover_type_iff_cover (enough_fuel empty_picture_flac) empty_picture_flac
           (lit "a.flac")).
  vm_compute. reflexivity.
Defined.

(** ** File names and the default record (C9) *)

Lemma jsstring_eqb_eq (a b : jsstring) : jsstring_eqb a b = true -> a = b.
Proof.
  revert b. induction a as [|x a IH]; intros [|y b] H; cbn [jsstring_eqb] in H;
    try discriminate; [reflexivity|].
  apply andb_true_iff in H. destruct H as [H1 H2].
  apply Z.eqb_eq in H1. apply IH in H2. congruence.
Qed.

Lemma or_str_nonempty (s d : jsstring) :
  or_str (Some s) d = if nonempty s then s else d.
Proof. destruct s; reflexivity. Qed.

Lemma split_by_no_separator (p : Z -> bool) (s : jsstring) :
  forallb (fun c => negb (p c)) s = true -> split_by p s = [s].
Proof.
  induction s as [|c s IH]; cbn [forallb split_by]; intros H; [reflexivity|].
  apply andb_true_iff in H. destruct H as [H1 H2].
  apply negb_true_iff in H1. rewrite H1, (IH H2). reflexivity.
Qed.

Lemma split_by_last (p : Z -> bool) (dir rest : jsstring) (c : Z) :
  p c = true -> forallb (fun c => negb (p c)) rest = true ->
  last (split_by p (dir ++ c :: rest)) [] = rest.
Proof.
  intros Hc Hrest.
  assert (H : exists h t, split_by p (dir ++ c :: rest) = h :: t /\ t <> []
                          /\ last t [] = rest).
  { induction dir as [|d dir IH]; cbn [app split_by].
    - rewrite Hc, (split_by_no_separator p rest Hrest).
      exists [], [rest]. repeat split. discriminate.
    - destruct IH as (h & t & E & Ht & Hl). rewrite E.
      destruct (p d).
      + exists [], (h :: t). repeat split; [discriminate|].
        destruct t; [contradiction|exact Hl].
      + exists (d :: h), t. repeat split; assumption. }
  destruct H as (h & t & E & Ht & Hl). rewrite E.
  destruct t; [contradiction|exact Hl].
Qed.

Lemma after_last_dot_none (s : jsstring) :
  forallb (fun c => negb (c =? 46)) s = true -> after_last_dot s = None.
Proof.
  induction s as [|c s IH]; cbn [forallb after_last_dot]; intros H; [reflexivity|].
  apply andb_true_iff in H. destruct H as [H1 H2].
  apply negb_true_iff in H1. rewrite (IH H2), H1. reflexivity.
Qed.

Lemma after_last_dot_app (name ext : jsstring) :
  forallb (fun c => negb (c =? 46)) ext = true ->
  after_last_dot (name ++ 46 :: ext) = Some ext.
Proof.
  intros H. induction name as [|c name IH]; cbn [app after_last_dot].
  - rewrite (after_last_dot_none ext H). reflexivity.
  - rewrite IH. reflexivity.
Qed.

(** The last place where a predicate holds in a string, if there is one. *)
Lemma last_split (p : Z -> bool) (s : jsstring) :
  forallb (fun c => negb (p c)) s = true \/
  exists pre c t, s = pre ++ c :: t /\ p c = true /\
                  forallb (fun c => negb (p c)) t = true.
Proof.
  induction s as [|x s [IH|(pre & c & t & E & Hc & Ht)]].
  - left. reflexivity.
  - destruct (p x) eqn:Hx.
    + right. exists [], x, s. repeat split; assumption.
    + left. cbn [forallb]. rewrite Hx, IH. reflexivity.
  - right. exists (x :: pre), c, t. rewrite E. repeat split; assumption.
Qed.

Lemma last_split_unique (p : Z -> bool) (pre1 pre2 t1 t2 : jsstring) (c1 c2 : Z) :
  pre1 ++ c1 :: t1 = pre2 ++ c2 :: t2 ->
  p c1 = true -> p c2 = true ->
  forallb (fun c => negb (p c)) t1 = true ->
  forallb (fun c => negb (p c)) t2 = true ->
  pre1 = pre2 /\ t1 = t2.
Proof.
  intros E H1 H2 F1 F2. revert pre2 E.
  induction pre1 as [|x pre1 IH]; intros [|y pre2] E; cbn [app] in E.
  - injection E as _ E. split; [reflexivity|exact E].
  - injection E as _ E. subst t1. rewrite forallb_app in F1. cbn [forallb] in F1.
    rewrite H2 in F1. cbn in F1. rewrite andb_false_r in F1. discriminate F1.
  - injection E as _ E. subst t2. rewrite forallb_app in F2. cbn [forallb] in F2.
    rewrite H1 in F2. cbn in F2. rewrite andb_false_r in F2. discriminate F2.
  - injection E as Exy E. destruct (IH _ E) as [Hp Ht]. subst. split; reflexivity.
Qed.

Lemma is_path_separator_iff (c : Z) : is_path_separator c = true <-> c = 47 \/ c = 92.
Proof.
  unfold is_path_separator. rewrite orb_true_iff, !Z.eqb_eq. tauto.
Qed.

(** The file name the code takes is the file name of the path, and a path
    has one file name. *)
Lemma file_name_of_last (path : jsstring) :
  file_name_of path (last (split_by is_path_separator path) []).
Proof.
  destruct (last_split is_path_separator path) as [H|(pre & c & t & E & Hc & Ht)].
  - rewrite split_by_no_separator by exact H. cbn [last].
    split; [exact H|left; reflexivity].
  - subst path. rewrite split_by_last by assumption.
    split; [exact Ht|]. right. exists pre, c.
    split; [apply is_path_separator_iff; exact Hc|reflexivity].
Qed.

Lemma file_name_of_unique (path f1 f2 : jsstring) :
  file_name_of path f1 -> file_name_of path f2 -> f1 = f2.
Proof.
  intros [N1 [E1|(d1 & c1 & S1 & E1)]] [N2 [E2|(d2 & c2 & S2 & E2)]].
  - congruence.
  - exfalso. subst path. subst f1. unfold no_separator in N1.
    rewrite forallb_app in N1. cbn [forallb] in N1.
    apply is_path_separator_iff in S2. rewrite S2 in N1. cbn in N1.
    rewrite andb_false_r in N1. discriminate N1.
  - exfalso. subst path. subst f2. unfold no_separator in N2.
    rewrite forallb_app in N2. cbn [forallb] in N2.
    apply is_path_separator_iff in S1. rewrite S1 in N2. cbn in N2.
    rewrite andb_false_r in N2. discriminate N2.
  - subst path. apply is_path_separator_iff in S1, S2.
    destruct (@last_split_unique is_path_separator d1 d2 f1 f2 c1 c2 E2 S1 S2 N1 N2)
      as [_ H]. exact H.
Qed.

Lemma final_extension_unique (f s1 s2 e1 e2 : jsstring) :
  final_extension f s1 e1 -> final_extension f s2 e2 -> s1 = s2 /\ e1 = e2.
Proof.
  intros (_ & D1 & E1) (_ & D2 & E2). subst f.
  apply (@last_split_unique (fun c => c =? 46) s1 s2 e1 e2 46 46 E2);
    [reflexivity|reflexivity|exact D1|exact D2].
Qed.

(** What the code strips is the final extension, and a file name has one
    stem. *)
Lemma stem_of_strip (f : jsstring) : stem_of f (strip_extension f).
Proof.
  unfold strip_extension, getFileExtension.
  destruct (last_split (fun c => c =? 46) f) as [H|(pre & c & t & E & Hc & Ht)].
  - rewrite after_last_dot_none by exact H. cbn [List.length].
    rewrite Nat.sub_0_r, firstn_all. right. split; [reflexivity|].
    intros s ext (_ & _ & E). subst f. rewrite forallb_app in H. cbn in H.
    rewrite andb_false_r in H. discriminate H.
  - apply Z.eqb_eq in Hc. subst c f. rewrite after_last_dot_app by exact Ht.
    destruct t as [|x t].
    + cbn [List.length]. rewrite Nat.sub_0_r, firstn_all. right. split; [reflexivity|].
      intros s ext Hf.
      assert (H0 : final_extension (pre ++ [46]) s ext) by exact Hf.
      destruct Hf as (Hne & Hd & E).
      destruct (@last_split_unique (fun c => c =? 46) pre s [] ext 46 46 E) as [_ H];
        [reflexivity|reflexivity|reflexivity|exact Hd|]. congruence.
    + left. exists (x :: t). split; [discriminate|]. split; [exact Ht|].
      f_equal. rewrite length_app. cbn [List.length].
      replace (List.length pre + S (S (List.length t)) - S (S (List.length t)))%nat
        with (List.length pre + 0)%nat by lia.
      rewrite firstn_app_2. cbn [firstn]. rewrite app_nil_r. reflexivity.
Qed.

Lemma stem_of_unique (f s1 s2 : jsstring) : stem_of f s1 -> stem_of f s2 -> s1 = s2.
Proof.
  intros [(e1 & H1)|[E1 N1]] [(e2 & H2)|[E2 N2]].
  - apply (final_extension_unique H1 H2).
  - exfalso. apply (N2 _ _ H1).
  - exfalso. apply (N1 _ _ H2).
  - congruence.
Qed.

(** The default title is the stem of the file name of the path, or the
    placeholder when the stem is empty. *)
Lemma getDefaultTitle_spec (path fileName stem : jsstring) :
  file_name_of path fileName -> stem_of fileName stem ->
  getDefaultTitle path = if nonempty stem then stem else unknown_song.
Proof.
  intros Hf Hs.
  rewrite (file_name_of_unique Hf (file_name_of_last path)) in Hs.
  rewrite (stem_of_unique Hs (stem_of_strip _)).
  unfold getDefaultTitle. apply or_str_nonempty.
Qed.

Lemma upper_lower_ascii (s : jsstring) :
  ascii_text s = true -> toUpperCase (toLowerCase s) = map ascii_upper s.
Proof.
  assert (T : forallb (fun c => jsstring_eqb (flat_map upper_unit (lower_unit c))
                                  [ascii_upper c])
                (map Z.of_nat (seq 0 128)) = true) by (vm_compute; reflexivity).
  rewrite forallb_forall in T.
  unfold toUpperCase, toLowerCase, ascii_text.
  induction s as [|c s IH]; cbn [forallb flat_map map]; intros H; [reflexivity|].
  apply andb_true_iff in H. destruct H as [Hc Hs].
  apply andb_true_iff in Hc. destruct Hc as [H0 H1]. apply Z.leb_le in H0, H1.
  rewrite flat_map_app, (IH Hs).
  rewrite (@jsstring_eqb_eq (flat_map upper_unit (lower_unit c)) [ascii_upper c]);
    [reflexivity|].
  apply T. apply in_map_iff. exists (Z.to_nat c). split; [lia|].
  apply in_seq. lia.
Qed.

(** The format string of the default record, for an extension of ASCII
    characters. *)
Lemma format_ascii (path : jsstring) :
  ascii_text (getFileExtension path) = true ->
  format (defaultMetadata path) = map ascii_upper (tl (getFileExtension path)).
Proof.
  cbn [format defaultMetadata]. unfold getFileExtension.
  destruct (after_last_dot path) as [[|c t]|]; [reflexivity| |reflexivity].
  intros H. change (toLowerCase (46 :: c :: t)) with (46 :: toLowerCase (c :: t)).
  cbn [remove_first_dot tl]. change (46 =? 46) with true. cbv iota.
  apply upper_lower_ascii. exact H.
Qed.

(** C9, amended: for a file name whose extension is none of the four, the
    dispatcher returns the default record whatever the buffer holds.  Its
    title is the stem of the file name of the path, the file name without
    its final extension, when that stem is not empty, and the placeholder
    title when it is empty; its other fields are the defaults, the format
    string being, for an extension of ASCII characters, the extension in
    upper case without its full stop. *)
Theorem unsupported_extension_defaults (fuel : nat) (buf : ArrayBuffer) (path : jsstring) :
  isFormatSupported path = false ->
  exists r,
    parseMetadata fuel buf path = Ret r /\
    (exists fileName stem, file_name_of path fileName /\ stem_of fileName stem) /\
    (forall fileName stem,
        file_name_of path fileName -> stem_of fileName stem ->
        title r = if nonempty stem then stem else unknown_song) /\
    artist r = unknown_artist /\ album r = unknown_album /\
    duration r = num_of_Z 0 /\ cover r = None /\ coverType r = None /\
    (ascii_text (getFileExtension path) = true ->
     format r = map ascii_upper (tl (getFileExtension path))) /\
    filePath r = path.
Proof.
  intros H. exists (defaultMetadata path).
  split.
  - unfold isFormatSupported, supportedFormats in H. cbn [existsb] in H. bool_facts.
    unfold parseMetadata.
    repeat match goal with E : jsstring_eqb _ _ = false |- _ => rewrite E; clear E end.
    reflexivity.
  - split.
    { exists (last (split_by is_path_separator path) []),
        (strip_extension (last (split_by is_path_separator path) [])).
      split; [apply file_name_of_last|apply stem_of_strip]. }
    split; [intros fileName stem Hf Hs; apply (getDefaultTitle_spec Hf Hs)|].
    repeat split. apply format_ascii.
Qed.

Lemma unsupported_extension_defaults_witness :
  exists r,
    parseMetadata 0 roundtrip_mp3 (lit "dir/x.y/Song.Name.OGG") = Ret r /\
    title r = lit "Song.Name" /\ cover r = None /\ format r = lit "OGG".
Proof.
  destruct (@unsupported_extension_defaults 0 roundtrip_mp3 (lit "dir/x.y/Song.Name.OGG"))
    as (r & Hr & _ & Ht & _ & _ & _ & Hc & _ & Hf & _).
  - vm_compute. reflexivity.
  - exists r. split; [exact Hr|]. split; [|split; [exact Hc|]].
    + apply (Ht (lit "Song.Name.OGG") (lit "Song.Name")).
      * split; [reflexivity|]. right. exists (lit "dir/x.y"), 47.
        split; [left; reflexivity|reflexivity].
      * left. exists (lit "OGG"). split; [discriminate|]. split; reflexivity.
    + apply Hf. reflexivity.
Defined.

(** C9 as stated fails where the stem is empty: the file name [.ogg] is its
    own file name, its final extension is [ogg] and its stem is empty, and
    the title of the record is the placeholder, not the empty stem. *)
Lemma unsupported_extension_title_counterexample :
  isFormatSupported (lit ".ogg") = false /\
  file_name_of (lit ".ogg") (lit ".ogg") /\
  stem_of (lit ".ogg") [] /\
  exists r,
    parseMetadata 0 [] (lit ".ogg") = Ret r /\
    title r = unknown_song /\
    title r <> [].
Proof.
  split; [vm_compute; reflexivity|].
  split; [split; [reflexivity|left; reflexivity]|].
  split; [left; exists (lit "ogg"); split; [discriminate|split; reflexivity]|].
  eexists. split; [vm_compute; reflexivity|].
  split; [vm_compute; reflexivity|].
  vm_compute. discriminate.
Qed.

(** ** The budget does not change the outcome *)

Lemma refines_refl {A : Type} (m : outcome A) : refines m m.
Proof. intros _. reflexivity. Qed.

Lemma refines_bind {A B : Type} (m1 m2 : outcome A) (k1 k2 : A -> outcome B) :
  refines m1 m2 -> (forall a, refines (k1 a) (k2 a)) ->
  refines (bind m1 k1) (bind m2 k2).
Proof.
  unfold refines, terminates. intros Hm Hk.
  destruct m1 as [a|e|]; cbn [bind]; intros T.
  - rewrite Hm by discriminate. cbn [bind]. apply Hk. exact T.
  - rewrite Hm by discriminate. reflexivity.
  - contradiction T. reflexivity.
Qed.

Lemma refines_try_catch {A : Type} (m1 m2 : outcome A) (h1 h2 : exn -> outcome A) :
  refines m1 m2 -> (forall e, refines (h1 e) (h2 e)) ->
  refines (try_catch m1 h1) (try_catch m2 h2).
Proof.
  unfold refines, terminates. intros Hm Hh.
  destruct m1 as [a|e|]; cbn [try_catch]; intros T.
  - rewrite Hm by discriminate. reflexivity.
  - rewrite Hm by discriminate. cbn [try_catch]. apply Hh. exact T.
  - contradiction T. reflexivity.
Qed.

Lemma refines_while {S : Type} (cond : S -> bool) (body1 body2 : S -> outcome (ctl S)) :
  (forall s, refines (body1 s) (body2 s)) ->
  forall f1 f2 s, (f1 <= f2)%nat ->
                  refines (while_loop cond body1 f1 s) (while_loop cond body2 f2 s).
Proof.
  intros Hb. induction f1 as [|f1 IH]; intros f2 s Hle T.
  - contradiction T. reflexivity.
  - destruct f2 as [|f2]; [lia|]. cbn [while_loop] in *.
    destruct (cond s); [|reflexivity].
    pose proof (Hb s) as R. unfold refines, terminates in R.
    destruct (body1 s) as [[s'|s']|e|].
    + rewrite R by discriminate. apply IH; [lia|exact T].
    + rewrite R by discriminate. reflexivity.
    + rewrite R by discriminate. reflexivity.
    + contradiction T. reflexivity.
Qed.

Ltac refines_step :=
  match goal with
  | |- refines ?m ?m => apply refines_refl
  | |- refines (bind _ _) (bind _ _) => apply refines_bind; [|intros ?]
  | |- refines (try_catch _ _) (try_catch _ _) => apply refines_try_catch; [|intros ?]
  | |- refines (if ?c then _ else _) (if ?c then _ else _) => destruct c
  | |- refines (match ?x with Some _ => _ | None => _ end)
               (match ?x with Some _ => _ | None => _ end) => destruct x
  | |- refines (while_loop _ _ _ _) (while_loop _ _ _ _) =>
      apply refines_while; [intros ?|assumption]
  end.

Ltac refines_auto := repeat refines_step.

Section Budget.
Variables f1 f2 : nat.
Hypothesis Hle : (f1 <= f2)%nat.
Variable buf : ArrayBuffer.

Lemma parseMP3_budget (defaults : Metadata) :
  refines (parseMP3 f1 buf defaults) (parseMP3 f2 buf defaults).
Proof. unfold parseMP3. refines_auto. Qed.

Lemma parseVorbisComments_budget (offset size : Z) :
  refines (parseVorbisComments f1 buf offset size) (parseVorbisComments f2 buf offset size).
Proof. unfold parseVorbisComments. refines_auto. Qed.

Lemma parseFLAC_budget (defaults : Metadata) :
  refines (parseFLAC f1 buf defaults) (parseFLAC f2 buf defaults).
Proof.
  unfold parseFLAC. refines_auto.
  destruct s as [offset metadata]. unfold flac_body. refines_auto.
  apply parseVorbisComments_budget.
Qed.

Lemma findWAVDataSize_budget (startOffset fileSize : Z) :
  refines (findWAVDataSize f1 buf startOffset fileSize)
          (findWAVDataSize f2 buf startOffset fileSize).
Proof. unfold findWAVDataSize. refines_auto. Qed.

Lemma parseWAVInfo_budget (offset size : Z) :
  refines (parseWAVInfo f1 buf offset size) (parseWAVInfo f2 buf offset size).
Proof. unfold parseWAVInfo. refines_auto. Qed.

Lemma parseWAV_budget (defaults : Metadata) :
  refines (parseWAV f1 buf defaults) (parseWAV f2 buf defaults).
Proof.
  unfold parseWAV. refines_auto.
  destruct s as [offset metadata]. unfold wav_body. refines_auto.
  - apply findWAVDataSize_budget.
  - apply parseWAVInfo_budget.
Qed.

Lemma parseMediaInfo_budget (offset : Z) (result : M4AResult) :
  refines (parseMediaInfo f1 buf offset result) (parseMediaInfo f2 buf offset result).
Proof. unfold parseMediaInfo. refines_auto. Qed.

Lemma parseMedia_budget (offset : Z) (result : M4AResult) :
  refines (parseMedia f1 buf offset result) (parseMedia f2 buf offset result).
Proof.
  unfold parseMedia. refines_auto.
  destruct s as [o r]. unfold media_body. refines_auto.
  apply parseMediaInfo_budget.
Qed.

Lemma parseTrack_budget (offset : Z) (result : M4AResult) :
  refines (parseTrack f1 buf offset result) (parseTrack f2 buf offset result).
Proof.
  unfold parseTrack. refines_auto.
  destruct s as [o r]. unfold track_body. refines_auto.
  apply parseMedia_budget.
Qed.

Lemma m4a_parseMetadata_budget (offset : Z) (result : M4AResult) :
  refines (m4a_parseMetadata f1 buf offset result) (m4a_parseMetadata f2 buf offset result).
Proof. unfold m4a_parseMetadata. refines_auto. Qed.

Lemma parse_body_budget (sub1 sub2 : Z -> outcome M4AResult) (s : m4a_state) :
  (forall o, refines (sub1 o) (sub2 o)) ->
  refines (parse_body sub1 f1 buf s) (parse_body sub2 f2 buf s).
Proof.
  intros Hsub. destruct s as [o r]. unfold parse_body. refines_auto.
  - apply Hsub.
  - apply parseTrack_budget.
  - apply m4a_parseMetadata_budget.
  - apply parseMedia_budget.
Qed.

End Budget.

Lemma parse_budget (buf : ArrayBuffer) :
  forall f1 f2 offset, (f1 <= f2)%nat ->
                       refines (parse f1 buf offset) (parse f2 buf offset).
Proof.
  induction f1 as [|f1 IH]; intros f2 offset Hle.
  - intros T. contradiction T. reflexivity.
  - destruct f2 as [|f2]; [lia|]. cbn [parse].
    apply refines_bind; [|intros ?; apply refines_refl].
    apply refines_while; [|lia].
    intros s. apply parse_body_budget; [lia|].
    intros o. apply IH. lia.
Qed.

Lemma parseMetadata_budget (f1 f2 : nat) (buf : ArrayBuffer) (path : jsstring) :
  (f1 <= f2)%nat -> refines (parseMetadata f1 buf path) (parseMetadata f2 buf path).
Proof.
  intros Hle. unfold parseMetadata. refines_auto.
  - apply parseMP3_budget. exact Hle.
  - apply parseFLAC_budget. exact Hle.
  - unfold parseM4A. refines_auto. apply parse_budget. exact Hle.
  - apply parseWAV_budget. exact Hle.
Qed.

(** Above the length of the buffer the budget makes no difference. *)
Lemma parseMetadata_budget_independent (fuel : nat) (buf : ArrayBuffer) (path : jsstring) :
  (List.length buf < fuel)%nat ->
  parseMetadata fuel buf path = parseMetadata (enough_fuel buf) buf path.
Proof.
  intros Hf. apply (@parseMetadata_budget (enough_fuel buf) fuel buf path).
  - unfold enough_fuel. lia.
  - apply terminates_parseMetadata. unfold enough_fuel. lia.
Qed.

(** ** The dispatcher is total (C1) *)

Lemma terminates_has_id3_magic (buf : ArrayBuffer) : terminates (has_id3_magic buf).
Proof. unfold has_id3_magic. term_auto. Qed.

(** On a buffer of fewer than ten bytes the MP3 parser throws or leaves the
    record as it was. *)
Lemma parseMP3_short (fuel : nat) (buf : ArrayBuffer) (defaults : Metadata) :
  byteLength buf < 10 ->
  parseMP3 fuel buf defaults = Ret defaults \/ exists e, parseMP3 fuel buf defaults = Throw e.
Proof.
  intros Hlen. unfold parseMP3.
  pose proof (terminates_has_id3_magic buf) as T0.
  destruct (has_id3_magic buf) as [[|]|e|]; cbn [bind];
    [|left; reflexivity|right; eauto|contradiction T0; reflexivity].
  pose proof (terminates_getUint8 buf 3) as T1.
  destruct (getUint8 buf 3) as [version|e|]; cbn [bind];
    [|right; eauto|contradiction T1; reflexivity].
  pose proof (terminates_getUint8 buf 5) as T2.
  destruct (getUint8 buf 5) as [flags|e|]; cbn [bind];
    [|right; eauto|contradiction T2; reflexivity].
  pose proof (terminates_readSyncsafeInt buf 6) as T3.
  destruct (readSyncsafeInt buf 6) as [size|e|] eqn:E; cbn [bind];
    [|right; eauto|contradiction T3; reflexivity].
  exfalso. unfold readSyncsafeInt in E. ret_inv E. read_facts. lia.
Qed.

Lemma jsstring_eqb_neq (a b : jsstring) : a <> b -> jsstring_eqb a b = false.
Proof.
  intros H. destruct (jsstring_eqb a b) eqn:E; [|reflexivity].
  apply jsstring_eqb_eq in E. contradiction.
Qed.

(** A signature that is not the expected one leaves the record as it was. *)
Lemma parseFLAC_bad_signature (fuel : nat) (buf : ArrayBuffer) (defaults : Metadata) :
  4 <= byteLength buf ->
  [byte_at buf 0; byte_at buf 1; byte_at buf 2; byte_at buf 3] <> lit "fLaC" ->
  parseFLAC fuel buf defaults = Ret defaults.
Proof.
  intros Hlen Hsig. unfold parseFLAC.
  rewrite !getUint8_in by lia. cbn [bind].
  rewrite (jsstring_eqb_neq Hsig). reflexivity.
Qed.

Lemma parseWAV_bad_signature (fuel : nat) (buf : ArrayBuffer) (defaults : Metadata) :
  12 <= byteLength buf ->
  [byte_at buf 0; byte_at buf 1; byte_at buf 2] <> lit "RIF" \/
  [byte_at buf 8; byte_at buf 9; byte_at buf 10; byte_at buf 11] <> lit "WAVE" ->
  parseWAV fuel buf defaults = Ret defaults.
Proof.
  intros Hlen Hsig. unfold parseWAV.
  rewrite !getUint8_in by lia. cbn [bind].
  destruct (jsstring_eqb [byte_at buf 0; byte_at buf 1; byte_at buf 2] (lit "RIF")) eqn:R;
    [|reflexivity].
  cbn [negb]. destruct Hsig as [Hsig|Hsig].
  - apply jsstring_eqb_eq in R. contradiction.
  - rewrite (jsstring_eqb_neq Hsig). reflexivity.
Qed.

Lemma parseMP3_bad_signature (fuel : nat) (buf : ArrayBuffer) (defaults : Metadata) :
  has_id3_magic buf = Ret false -> parseMP3 fuel buf defaults = Ret defaults.
Proof. intros H. unfold parseMP3. rewrite H. reflexivity. Qed.

(** C1, amended: for every buffer and every file name the dispatcher
    returns a record, given a budget above the length of the buffer, and
    with no budget does it throw.  An exception that leaves the selected
    parser ends in the default record, the exceptions of the M4A atom walk
    already in the handler of [parseM4A]; a signature that is not the
    expected one gives the default record; a buffer shorter than the ten
    bytes of an ID3v2 header under the extension [.mp3] gives the default
    record.  A failure that a reader or a loop handles itself does not reach
    the dispatcher and keeps what was read before it: the comment reader and
    the picture reader never throw, a round of the comment loop whose read
    is out of bounds ends the loop with the result as the earlier rounds
    left it, and a frame whose size is not positive or runs past the end of
    the tag ends the frame loop with the record as the earlier frames left
    it. *)
Theorem parseMetadata_total (buf : ArrayBuffer) (path : jsstring) :
  let ext := toLowerCase (getFileExtension path) in
  let d := defaultMetadata path in
  (forall k, exists r, parseMetadata (enough_fuel buf + k) buf path = Ret r) /\
  (forall fuel e, parseMetadata fuel buf path <> Throw e) /\
  (forall fuel e,
      (ext = lit ".mp3" -> parseMP3 fuel buf d = Throw e ->
       parseMetadata fuel buf path = Ret d) /\
      (ext = lit ".flac" -> parseFLAC fuel buf d = Throw e ->
       parseMetadata fuel buf path = Ret d) /\
      (ext = lit ".m4a" -> parse fuel buf 0 = Throw e ->
       parseM4A fuel buf d = Ret d /\ parseMetadata fuel buf path = Ret d) /\
      (ext = lit ".wav" -> parseWAV fuel buf d = Throw e ->
       parseMetadata fuel buf path = Ret d)) /\
  (forall fuel,
      (ext = lit ".mp3" -> has_id3_magic buf = Ret false ->
       parseMetadata fuel buf path = Ret d) /\
      (ext = lit ".flac" -> 4 <= byteLength buf ->
       [byte_at buf 0; byte_at buf 1; byte_at buf 2; byte_at buf 3] <> lit "fLaC" ->
       parseMetadata fuel buf path = Ret d) /\
      (ext = lit ".wav" -> 12 <= byteLength buf ->
       [byte_at buf 0; byte_at buf 1; byte_at buf 2] <> lit "RIF" \/
       [byte_at buf 8; byte_at buf 9; byte_at buf 10; byte_at buf 11] <> lit "WAVE" ->
       parseMetadata fuel buf path = Ret d)) /\
  (forall fuel,
      ext = lit ".mp3" -> byteLength buf < 10 ->
      parseMetadata fuel buf path = Ret d) /\
  (forall fuel offset size e,
      parseVorbisComments fuel buf offset size <> Throw e /\
      parseFLACPicture buf offset size <> Throw e) /\
  (forall i pos result e,
      getUint32 buf pos = Throw e ->
      vorbis_body buf (i, pos, result) = Ret (Break (i, pos, result))) /\
  (forall version endOffset offset metadata c0 c1 c2 c3 frameSize,
      getUint8 buf offset = Ret c0 -> getUint8 buf (offset + 1) = Ret c1 ->
      getUint8 buf (offset + 2) = Ret c2 -> getUint8 buf (offset + 3) = Ret c3 ->
      (if version >=? 3 then getUint32 buf (offset + 4)
       else readSyncsafeInt buf (offset + 4)) = Ret frameSize ->
      frameSize <= 0 \/ offset + frameSize > endOffset ->
      mp3_body buf version endOffset (offset, metadata) = Ret (Break (offset, metadata))).
Proof.
  intros ext d.
  assert (Emp3 : ext = lit ".mp3" ->
                 forall fuel, parseMetadata fuel buf path
                              = try_catch (parseMP3 fuel buf d) (fun _ => Ret d)).
  { intros Hext fuel. unfold parseMetadata. fold ext. fold d. rewrite Hext. reflexivity. }
  assert (Eflac : ext = lit ".flac" ->
                  forall fuel, parseMetadata fuel buf path
                               = try_catch (parseFLAC fuel buf d) (fun _ => Ret d)).
  { intros Hext fuel. unfold parseMetadata. fold ext. fold d. rewrite Hext. reflexivity. }
  assert (Em4a : ext = lit ".m4a" ->
                 forall fuel, parseMetadata fuel buf path
                              = try_catch (parseM4A fuel buf d) (fun _ => Ret d)).
  { intros Hext fuel. unfold parseMetadata. fold ext. fold d. rewrite Hext. reflexivity. }
  assert (Ewav : ext = lit ".wav" ->
                 forall fuel, parseMetadata fuel buf path
                              = try_catch (parseWAV fuel buf d) (fun _ => Ret d)).
  { intros Hext fuel. unfold parseMetadata. fold ext. fold d. rewrite Hext. reflexivity. }
  split; [|split; [|split; [|split; [|split; [|split; [|split]]]]]].
  - intros k. apply parseMetadata_returns. unfold enough_fuel. lia.
  - intros fuel e. unfold parseMetadata.
    match goal with |- try_catch ?m _ <> _ => destruct m end;
      cbn [try_catch]; discriminate.
  - intros fuel e.
    split; [|split; [|split]]; intros Hext Hthrow.
    + rewrite (Emp3 Hext), Hthrow. reflexivity.
    + rewrite (Eflac Hext), Hthrow. reflexivity.
    + rewrite (Em4a Hext). unfold parseM4A. rewrite Hthrow. split; reflexivity.
    + rewrite (Ewav Hext), Hthrow. reflexivity.
  - intros fuel. split; [|split].
    + intros Hext Hsig. rewrite (Emp3 Hext), (@parseMP3_bad_signature fuel buf d Hsig). reflexivity.
    + intros Hext Hlen Hsig.
      rewrite (Eflac Hext), (@parseFLAC_bad_signature fuel buf d Hlen Hsig). reflexivity.
    + intros Hext Hlen Hsig.
      rewrite (Ewav Hext), (@parseWAV_bad_signature fuel buf d Hlen Hsig). reflexivity.
  - intros fuel Hext Hlen. rewrite (Emp3 Hext).
    destruct (@parseMP3_short fuel buf d Hlen) as [E|[e E]]; rewrite E; reflexivity.
  - intros fuel offset size e. split.
    + unfold parseVorbisComments. destruct (bind _ _); cbn [try_catch]; discriminate.
    + unfold parseFLACPicture. destruct (bind _ _); cbn [try_catch]; discriminate.
  - intros i pos result e He. unfold vorbis_body. rewrite He. reflexivity.
  - intros version endOffset offset metadata c0 c1 c2 c3 frameSize H0 H1 H2 H3 Hs Hover.
    unfold mp3_body. rewrite H0, H1, H2, H3. cbn [bind]. rewrite Hs. cbn [bind].
    replace ((frameSize <=? 0) || (offset + frameSize >? endOffset)) with true;
      [reflexivity|].
    symmetry. apply orb_true_iff. destruct Hover as [H|H]; [left|right].
    + apply Z.leb_le. exact H.
    + apply Z.gtb_lt. lia.
Qed.

Lemma parseMetadata_total_witness :
  parseMetadata 0 truncated_mp3 (lit "a.mp3") = Ret (defaultMetadata (lit "a.mp3")).
Proof.
  destruct (parseMetadata_total truncated_mp3 (lit "a.mp3")) as (_ & _ & _ & _ & H & _).
  apply H.
  - vm_compute. reflexivity.
  - vm_compute. reflexivity.
Defined.

(** C1 as stated fails where the failure is handled before it reaches the
    dispatcher.  In the first file the second round of the comment loop
    reads past the end of the file; the reader returns the title of the
    first comment, and the record is not the default one.  In the second the
    frame after the title declares more bytes than the tag has; the loop
    ends, and the record keeps the title read before. *)
Lemma parseMetadata_partial_counterexample :
  (vorbis_cond 2 (8 + (byteLength truncated_comments_body + 8) - 4)
     (1, byteLength truncated_comments_flac, MkVorbis (Some (lit "First")) None None) = true /\
   getUint32 truncated_comments_flac (byteLength truncated_comments_flac)
   = Throw RangeError /\
   parseVorbisComments 3 truncated_comments_flac 8 (byteLength truncated_comments_body + 8)
   = Ret (MkVorbis (Some (lit "First")) None None) /\
   exists r,
     parseMetadata (enough_fuel truncated_comments_flac) truncated_comments_flac
       (lit "a.flac") = Ret r /\
     title r = lit "First" /\
     r <> defaultMetadata (lit "a.flac")) /\
  (getUint32 overrunning_frame_mp3 (25 + 4) = Ret 1000 /\
   exists r,
     parseMetadata (enough_fuel overrunning_frame_mp3) overrunning_frame_mp3
       (lit "a.mp3") = Ret r /\
     title r = lit "Tes" /\
     r <> defaultMetadata (lit "a.mp3")).
Proof.
  split.
  - split; [vm_compute; reflexivity|]. split; [vm_compute; reflexivity|].
    split; [vm_compute; reflexivity|].
    eexists. split; [vm_compute; reflexivity|]. split; [vm_compute; reflexivity|].
    intros H. apply (f_equal title) in H. vm_compute in H. discriminate H.
  - split; [vm_compute; reflexivity|].
    eexists. split; [vm_compute; reflexivity|]. split; [vm_compute; reflexivity|].
    intros H. apply (f_equal title) in H. vm_compute in H. discriminate H.
Qed.

(** ** Every call ends (C2) *)

(** C2: for every buffer and every file name the dispatcher ends with a
    record within a budget of one round more than the buffer has bytes, and
    every larger budget gives the same record; every round of every frame,
    block, comment, chunk and atom loop that asks for another round has
    moved its offset forward by one byte at least, inside the buffer; an
    atom of size zero ends its loop, and a chunk of size zero moves the
    offset by the eight bytes of its header. *)
Theorem parseMetadata_terminates :
  (forall buf path, exists r, parseMetadata (enough_fuel buf) buf path = Ret r) /\
  (forall buf path fuel,
      (List.length buf < fuel)%nat ->
      parseMetadata fuel buf path = parseMetadata (enough_fuel buf) buf path) /\
  (forall buf,
      (forall version endOffset, advances buf fst (mp3_body buf version endOffset)) /\
      (forall fuel, advances buf fst (flac_body fuel buf)) /\
      advances buf vorbis_pos (vorbis_body buf) /\
      (forall fuel, advances buf fst (wav_body fuel buf)) /\
      advances buf fst (wavdata_body buf) /\
      (forall endOffset, advances buf fst (wavinfo_body buf endOffset)) /\
      (forall sub_parse fuel, advances buf fst (parse_body sub_parse fuel buf)) /\
      (forall fuel, advances buf fst (track_body fuel buf)) /\
      (forall fuel, advances buf fst (media_body fuel buf)) /\
      advances buf fst (mediainfo_body buf) /\
      advances buf fst (ilst_body buf)) /\
  (forall s, atom_advance 0 s = Break s) /\
  (forall offset, wav_next_offset offset 0 = offset + 8).
Proof.
  split; [|split; [|split; [|split]]].
  - intros buf path. apply parseMetadata_returns. unfold enough_fuel. lia.
  - intros buf path fuel. apply parseMetadata_budget_independent.
  - intros buf.
    split; [intros; apply mp3_body_advances|].
    split; [intros; apply flac_body_advances|].
    split; [apply vorbis_body_advances|].
    split; [intros; apply wav_body_advances|].
    split; [apply wavdata_body_advances|].
    split; [intros; apply wavinfo_body_advances|].
    split; [intros; apply parse_body_advances|].
    split; [intros; apply track_body_advances|].
    split; [intros; apply media_body_advances|].
    split; [apply mediainfo_body_advances|apply ilst_body_advances].
  - intros s. reflexivity.
  - intros offset. unfold wav_next_offset. cbn. lia.
Qed.

Lemma parseMetadata_terminates_witness :
  parseMetadata 1000 two_titles_flac (lit "a.flac")
  = parseMetadata (enough_fuel two_titles_flac) two_titles_flac (lit "a.flac").
Proof.
  destruct parseMetadata_terminates as (_ & H & _).
  apply H. vm_compute. lia.
Defined.

(** ** Vorbis comments: the last occurrence wins (C7) *)

Lemma u8_byte_of_Z (z : Z) : 0 <= z < 256 -> u8 (byte_of_Z z) = z.
Proof.
  intros H. unfold u8, byte_of_Z.
  destruct (Byte.of_N (Z.to_N z)) as [b|] eqn:E.
  - apply Byte.to_of_N in E. rewrite E. lia.
  - apply Byte.of_N_None_iff in E. lia.
Qed.

Lemma byteLength_app (a b : list byte) : byteLength (a ++ b) = byteLength a + byteLength b.
Proof. unfold byteLength. rewrite length_app. lia. Qed.

Lemma byteLength_nonneg (a : list byte) : 0 <= byteLength a.
Proof. unfold byteLength. lia. Qed.

Lemma byteLength_be32 (n : Z) : byteLength (be32 n) = 4.
Proof. reflexivity. Qed.

Lemma byte_at_app_r (pre l : list byte) (k : Z) :
  0 <= k -> byte_at (pre ++ l) (byteLength pre + k) = byte_at l k.
Proof.
  intros H. unfold byte_at, byteLength.
  replace (Z.to_nat (Z.of_nat (List.length pre) + k))
    with (List.length pre + Z.to_nat k)%nat by lia.
  rewrite app_nth2_plus. reflexivity.
Qed.

Lemma be32_value (n : Z) :
  0 <= n < 4294967296 ->
  (n / 16777216 mod 256) * 16777216 + (n / 65536 mod 256) * 65536
  + (n / 256 mod 256) * 256 + n mod 256 = n.
Proof. intros H. Z.div_mod_to_equations. lia. Qed.

Lemma byte_at_four (a b c d : byte) (rest : list byte) :
  byte_at (a :: b :: c :: d :: rest) 0 = u8 a /\
  byte_at (a :: b :: c :: d :: rest) 1 = u8 b /\
  byte_at (a :: b :: c :: d :: rest) 2 = u8 c /\
  byte_at (a :: b :: c :: d :: rest) 3 = u8 d.
Proof. repeat split; reflexivity. Qed.

(** Reading back a 32-bit number written most significant byte first. *)
Lemma getUint32_be32 (pre rest : list byte) (n : Z) :
  0 <= n < 4294967296 ->
  getUint32 (pre ++ be32 n ++ rest) (byteLength pre) = Ret n.
Proof.
  intros H. unfold getUint32.
  pose proof (byteLength_nonneg pre). pose proof (byteLength_nonneg rest).
  rewrite !byteLength_app, byteLength_be32.
  destruct (0 <=? byteLength pre) eqn:E1; [|lia].
  destruct (byteLength pre + 4 <=? byteLength pre + (4 + byteLength rest)) eqn:E2; [|lia].
  cbn [andb]. f_equal.
  rewrite <- (Z.add_0_r (byteLength pre)) at 1.
  rewrite !byte_at_app_r by lia.
  unfold be32. cbn [map app].
  match goal with |- context [byte_at (?a :: ?b :: ?c :: ?d :: ?r) 0] =>
    destruct (byte_at_four a b c d r) as (-> & -> & -> & ->) end.
  rewrite !u8_byte_of_Z by (apply Z.mod_pos_bound; lia).
  apply be32_value. exact H.
Qed.

(** Slicing out a run of bytes between two others. *)
Lemma slice_middle (pre c rest : list byte) :
  slice (pre ++ c ++ rest) (byteLength pre) (byteLength pre + byteLength c) = c.
Proof.
  unfold slice, clamp_index.
  pose proof (byteLength_nonneg pre). pose proof (byteLength_nonneg c).
  pose proof (byteLength_nonneg rest).
  rewrite !byteLength_app.
  destruct (byteLength pre <? 0) eqn:E1; [lia|].
  destruct (byteLength pre + byteLength c <? 0) eqn:E2; [lia|].
  rewrite !Z.min_l by lia.
  replace (Z.max (byteLength pre + byteLength c - byteLength pre) 0) with (byteLength c) by lia.
  unfold byteLength. rewrite !Nat2Z.id.
  rewrite skipn_app, skipn_all, Nat.sub_diag. cbn [skipn app].
  rewrite firstn_app, firstn_all, Nat.sub_diag. cbn [firstn]. apply app_nil_r.
Qed.

Lemma vorbis_assign_empty (result : VorbisResult) :
  vorbis_assign result (utf8_decode []) = result.
Proof. reflexivity. Qed.

(** The loop of [parseVorbisComments] over the entries of a block: it ends
    with the result of the assignments of all the comments, in entry
    order. *)
Lemma vorbis_entry_read (pre post c : list byte) (cs : list (list byte)) :
  byteLength c < 4294967296 ->
  let buf := pre ++ flat_map vorbis_entry_be (c :: cs) ++ post in
  getUint32 buf (byteLength pre) = Ret (byteLength c) /\
  slice buf (byteLength pre + 4) (byteLength pre + 4 + byteLength c) = c /\
  buf = (pre ++ vorbis_entry_be c) ++ flat_map vorbis_entry_be cs ++ post /\
  byteLength (pre ++ vorbis_entry_be c) = byteLength pre + 4 + byteLength c.
Proof.
  intros Hc buf. subst buf. cbn [flat_map].
  assert (U : vorbis_entry_be c = be32 (byteLength c) ++ c) by reflexivity.
  rewrite !U. clear U.
  pose proof (byteLength_nonneg c).
  rewrite <- !app_assoc.
  split; [apply getUint32_be32; lia|].
  split.
  - replace (pre ++ be32 (byteLength c) ++ c ++ flat_map vorbis_entry_be cs ++ post)
      with ((pre ++ be32 (byteLength c)) ++ c ++ flat_map vorbis_entry_be cs ++ post)
      by (rewrite <- !app_assoc; reflexivity).
    replace (byteLength pre + 4) with (byteLength (pre ++ be32 (byteLength c)))
      by (rewrite byteLength_app, byteLength_be32; reflexivity).
    apply slice_middle.
  - split; [reflexivity|].
    rewrite !byteLength_app, byteLength_be32. lia.
Qed.

Lemma vorbis_loop_entries (commentCount limit : Z) :
  forall (comments : list (list byte)) (pre post : list byte) (fuel : nat)
         (i : Z) (result : VorbisResult),
    (List.length comments < fuel)%nat ->
    i + Z.of_nat (List.length comments) = commentCount ->
    limit = byteLength pre + byteLength (flat_map vorbis_entry_be comments) - 4 ->
    Forall (fun c => byteLength c < 4294967296) comments ->
    exists s,
      while_loop (vorbis_cond commentCount limit)
        (vorbis_body (pre ++ flat_map vorbis_entry_be comments ++ post)) fuel
        (i, byteLength pre, result) = Ret s /\
      snd s = fold_left vorbis_assign (map utf8_decode comments) result.
Proof.
  induction comments as [|c cs IH]; intros pre post fuel i result Hf Hi Hl Hc;
    (destruct fuel as [|fuel]; [cbn [List.length] in Hf; lia|]); cbn [while_loop].
  - cbn [List.length] in Hi. unfold vorbis_cond.
    destruct (i <? commentCount) eqn:E; [lia|]. cbn [andb].
    eexists. split; reflexivity.
  - cbn [List.length] in Hi, Hf.
    inversion Hc as [|c' cs' Hc1 Hc2]; subst c' cs'.
    destruct (@vorbis_entry_read pre post c cs Hc1) as (Hread & Hslice & Hbuf & Hlen).
    assert (Hl' : limit = byteLength pre + 4 + byteLength c
                          + byteLength (flat_map vorbis_entry_be cs) - 4).
    { rewrite Hl. cbn [flat_map]. rewrite byteLength_app. unfold vorbis_entry_be at 1.
      rewrite byteLength_app, byteLength_be32. lia. }
    clear Hl.
    pose proof (byteLength_nonneg c).
    pose proof (byteLength_nonneg (flat_map vorbis_entry_be cs)).
    set (buf := pre ++ flat_map vorbis_entry_be (c :: cs) ++ post) in *.
    unfold vorbis_cond at 1.
    destruct (i <? commentCount) eqn:E; [|lia]. cbn [andb].
    destruct (byteLength pre <? limit) eqn:E2.
    + (* the entry is read *)
      unfold vorbis_body at 1. rewrite Hread. cbn [bind try_catch].
      rewrite Hslice. rewrite Hbuf. rewrite <- Hlen.
      cbn [map fold_left].
      apply IH; [lia|lia| |exact Hc2]. rewrite Hlen. lia.
    + (* the last entry, empty: the test fails before it is read *)
      assert (c = []) by (destruct c; [reflexivity|cbn in *; lia]).
      assert (cs = []).
      { destruct cs as [|c2 cs]; [reflexivity|]. exfalso.
        assert (4 <= byteLength (flat_map vorbis_entry_be (c2 :: cs))); [|lia].
        cbn [flat_map]. rewrite byteLength_app.
        change (vorbis_entry_be c2) with (be32 (byteLength c2) ++ c2).
        rewrite byteLength_app, byteLength_be32.
        pose proof (byteLength_nonneg c2).
        pose proof (byteLength_nonneg (flat_map vorbis_entry_be cs)). lia. }
      subst c cs. eexists. split; reflexivity.
Qed.

(** *** A comment with one equals sign *)

Lemma split_by_key_value (c : jsstring) :
  single_equals c ->
  split_by (fun x => x =? 61) c
  = match key_value c with
    | Some (k, v) => [k; v]
    | None => [c]
    end.
Proof.
  unfold single_equals. induction c as [|x r IH]; intros H; [reflexivity|].
  cbn [split_by key_value filter] in *. destruct (x =? 61) eqn:Hx.
  - cbn [List.length] in H. f_equal. apply split_by_no_separator.
    apply forallb_forall. intros y Hy. apply negb_true_iff.
    destruct (y =? 61) eqn:Hy61; [|reflexivity]. exfalso.
    assert (Hin : In y (filter (fun c => c =? 61) r))
      by (apply filter_In; split; assumption).
    destruct (filter (fun c => c =? 61) r); [contradiction|cbn [List.length] in H; lia].
  - rewrite (IH H). destruct (key_value r) as [[k v]|]; reflexivity.
Qed.

(** What one such comment does to each of the three fields. *)
Lemma vorbis_assign_title (r : VorbisResult) (c : jsstring) :
  single_equals c ->
  v_title (vorbis_assign r c)
  = match tag_value (lit "TITLE") c with
    | Some v => Some v
    | None => v_title r
    end.
Proof.
  intros Hc. unfold vorbis_assign, tag_value. rewrite (split_by_key_value Hc).
  destruct (key_value c) as [[key value]|]; [|reflexivity].
  destruct (nonempty key && nonempty value); [|reflexivity]. cbn [andb].
  destruct (jsstring_eqb (toUpperCase key) (lit "TITLE")); [reflexivity|].
  destruct (jsstring_eqb (toUpperCase key) (lit "ARTIST")); [reflexivity|].
  destruct (jsstring_eqb (toUpperCase key) (lit "ALBUM")); reflexivity.
Qed.

Lemma vorbis_assign_artist (r : VorbisResult) (c : jsstring) :
  single_equals c ->
  v_artist (vorbis_assign r c)
  = match tag_value (lit "ARTIST") c with
    | Some v => Some v
    | None => v_artist r
    end.
Proof.
  intros Hc. unfold vorbis_assign, tag_value. rewrite (split_by_key_value Hc).
  destruct (key_value c) as [[key value]|]; [|reflexivity].
  destruct (nonempty key && nonempty value); [|reflexivity]. cbn [andb].
  destruct (jsstring_eqb (toUpperCase key) (lit "TITLE")) eqn:T.
  - apply jsstring_eqb_eq in T. rewrite T. reflexivity.
  - destruct (jsstring_eqb (toUpperCase key) (lit "ARTIST")); [reflexivity|].
    destruct (jsstring_eqb (toUpperCase key) (lit "ALBUM")); reflexivity.
Qed.

Lemma vorbis_assign_album (r : VorbisResult) (c : jsstring) :
  single_equals c ->
  v_album (vorbis_assign r c)
  = match tag_value (lit "ALBUM") c with
    | Some v => Some v
    | None => v_album r
    end.
Proof.
  intros Hc. unfold vorbis_assign, tag_value. rewrite (split_by_key_value Hc).
  destruct (key_value c) as [[key value]|]; [|reflexivity].
  destruct (nonempty key && nonempty value); [|reflexivity]. cbn [andb].
  destruct (jsstring_eqb (toUpperCase key) (lit "TITLE")) eqn:T.
  - apply jsstring_eqb_eq in T. rewrite T. reflexivity.
  - destruct (jsstring_eqb (toUpperCase key) (lit "ARTIST")) eqn:A.
    + apply jsstring_eqb_eq in A. rewrite A. reflexivity.
    + destruct (jsstring_eqb (toUpperCase key) (lit "ALBUM")); reflexivity.
Qed.

(** A field that every comment assigns as above holds, after all the
    comments, the value of the last one that gives one, if there is one. *)
Lemma fold_last_value (proj : VorbisResult -> option jsstring) (tag : jsstring) :
  (forall r c,
      single_equals c ->
      proj (vorbis_assign r c)
      = match tag_value tag c with
        | Some v => Some v
        | None => proj r
        end) ->
  forall cs r,
    Forall single_equals cs ->
    proj (fold_left vorbis_assign cs r)
    = match last_value tag cs with
      | Some v => Some v
      | None => proj r
      end.
Proof.
  intros Hp. induction cs as [|c cs IH]; intros r Hcs; cbn [fold_left last_value];
    [reflexivity|].
  inversion Hcs as [|? ? Hc Hcs']; subst.
  rewrite (IH _ Hcs'), (Hp _ _ Hc).
  destruct (last_value tag cs); [reflexivity|].
  destruct (tag_value tag c); reflexivity.
Qed.

Lemma fold_vorbis_assign_fields (texts : list jsstring) :
  Forall single_equals texts ->
  let r := fold_left vorbis_assign texts vorbis_empty in
  v_title r = last_value (lit "TITLE") texts /\
  v_artist r = last_value (lit "ARTIST") texts /\
  v_album r = last_value (lit "ALBUM") texts.
Proof.
  intros H. cbn zeta. split; [|split].
  - rewrite (fold_last_value v_title (lit "TITLE") vorbis_assign_title) by exact H.
    destruct (last_value (lit "TITLE") texts); reflexivity.
  - rewrite (fold_last_value v_artist (lit "ARTIST") vorbis_assign_artist) by exact H.
    destruct (last_value (lit "ARTIST") texts); reflexivity.
  - rewrite (fold_last_value v_album (lit "ALBUM") vorbis_assign_album) by exact H.
    destruct (last_value (lit "ALBUM") texts); reflexivity.
Qed.

(** *** The comments the loop decodes *)

Lemma vorbis_loop_read (buf : ArrayBuffer) (commentCount limit : Z) :
  forall (fuel : nat) (i pos : Z) (result : VorbisResult) (s : vorbis_state),
    while_loop (vorbis_cond commentCount limit) (vorbis_body buf) fuel (i, pos, result)
    = Ret s ->
    snd s = fold_left vorbis_assign
              (comments_read_from fuel buf i pos commentCount limit) result.
Proof.
  induction fuel as [|fuel IH]; intros i pos result s H; [discriminate H|].
  cbn [while_loop comments_read_from] in *. unfold vorbis_cond at 1 in H.
  destruct ((i <? commentCount) && (pos <? limit)).
  - unfold vorbis_body at 1 in H.
    destruct (getUint32 buf pos) as [len|e|]; cbn [bind try_catch] in H.
    + cbn [fold_left]. apply IH. exact H.
    + apply Ret_inj in H. subst s. reflexivity.
    + discriminate H.
  - apply Ret_inj in H. subst s. reflexivity.
Qed.

Lemma vorbis_loop_no_throw (buf : ArrayBuffer) (commentCount limit : Z) (e : exn) :
  forall (fuel : nat) (s : vorbis_state),
    while_loop (vorbis_cond commentCount limit) (vorbis_body buf) fuel s <> Throw e.
Proof.
  induction fuel as [|fuel IH]; intros [[i pos] result]; [discriminate|].
  cbn [while_loop]. destruct (vorbis_cond commentCount limit (i, pos, result));
    [|discriminate].
  unfold vorbis_body at 1.
  destruct (getUint32 buf pos) as [len|e'|]; cbn [bind try_catch];
    [apply IH|discriminate|discriminate].
Qed.

(** [parseVorbisComments] returns the assignments of the comments it
    decodes, one after the other. *)
Lemma parseVorbisComments_read (fuel : nat) (buf : ArrayBuffer) (offset size : Z)
    (r : VorbisResult) :
  parseVorbisComments fuel buf offset size = Ret r ->
  r = fold_left vorbis_assign (comments_read fuel buf offset size) vorbis_empty.
Proof.
  unfold parseVorbisComments, comments_read. intros H.
  destruct (getUint32 buf offset) as [vendorLength| |]; cbn [bind try_catch] in H;
    [|apply Ret_inj in H; subst r; reflexivity|discriminate H].
  destruct (getUint32 buf (offset + (4 + vendorLength))) as [commentCount| |];
    cbn [bind try_catch] in H;
    [|apply Ret_inj in H; subst r; reflexivity|discriminate H].
  destruct (while_loop _ _ _ _) as [s|e|] eqn:E; cbn [bind try_catch] in H.
  - apply Ret_inj in H. subst r. apply vorbis_loop_read. exact E.
  - exfalso. exact (@vorbis_loop_no_throw _ _ _ _ _ _ E).
  - discriminate H.
Qed.

(** The comment reader on a block laid out as it reads it: the assignments
    of the entries, one after the other. *)
Lemma parseVorbisComments_block (pre post vendor : list byte)
    (comments : list (list byte)) (fuel : nat) :
  byteLength vendor < 4294967296 ->
  Z.of_nat (List.length comments) < 4294967296 ->
  Forall (fun c => byteLength c < 4294967296) comments ->
  (List.length comments < fuel)%nat ->
  parseVorbisComments fuel (pre ++ vorbis_block_be vendor comments ++ post) (byteLength pre)
    (byteLength (vorbis_block_be vendor comments))
  = Ret (fold_left vorbis_assign (map utf8_decode comments) vorbis_empty).
Proof.
  intros Hv Hn Hc Hf. set (block := vorbis_block_be vendor comments).
  pose proof (byteLength_nonneg vendor) as Hv0.
  set (entries := flat_map vorbis_entry_be comments).
  assert (Hblock : byteLength block = 4 + byteLength vendor + 4 + byteLength entries).
  { unfold block, vorbis_block_be. rewrite !byteLength_app, !byteLength_be32.
    fold entries. lia. }
  unfold parseVorbisComments.
  assert (R1 : getUint32 (pre ++ block ++ post) (byteLength pre) = Ret (byteLength vendor)).
  { unfold block, vorbis_block_be. rewrite <- !app_assoc. apply getUint32_be32. lia. }
  rewrite R1. cbn [bind].
  set (pre2 := pre ++ be32 (byteLength vendor) ++ vendor).
  assert (Hpre2 : byteLength pre2 = byteLength pre + (4 + byteLength vendor)).
  { unfold pre2. rewrite !byteLength_app, byteLength_be32. lia. }
  assert (B2 : pre ++ block ++ post
               = pre2 ++ be32 (Z.of_nat (List.length comments)) ++ entries ++ post).
  { unfold block, vorbis_block_be, pre2, entries. rewrite <- !app_assoc. reflexivity. }
  rewrite B2, <- Hpre2.
  rewrite getUint32_be32 by lia. cbn [bind].
  set (pre3 := pre2 ++ be32 (Z.of_nat (List.length comments))).
  assert (Hpre3 : byteLength pre3 = byteLength pre2 + 4).
  { unfold pre3. rewrite byteLength_app, byteLength_be32. lia. }
  replace (pre2 ++ be32 (Z.of_nat (List.length comments)) ++ entries ++ post)
    with (pre3 ++ entries ++ post) by (unfold pre3; rewrite <- !app_assoc; reflexivity).
  rewrite <- Hpre3.
  destruct (@vorbis_loop_entries (Z.of_nat (List.length comments))
              (byteLength pre + byteLength block - 4)
              comments pre3 post fuel 0 vorbis_empty Hf ltac:(lia)) as (s & Hs & Hr).
  { fold entries. lia. }
  { exact Hc. }
  fold entries in Hs. rewrite Hs. cbn [bind try_catch]. rewrite Hr. reflexivity.
Qed.

(** C7, amended.  Of the comments [parseVorbisComments] decodes in a block,
    each with one equals sign at most, the title, the artist and the album
    it returns are the values of the last comment, in the order decoded,
    whose key is TITLE, ARTIST or ALBUM in any letter case and whose key and
    value are not empty: a later occurrence replaces an earlier one, and null
    is returned where no comment gives a value.  This holds for every buffer,
    offset and size.  On a block whose lengths and count are stored most
    significant byte first the comments decoded are those of the block.
    Which comments are decoded in a block as FLAC has it, and what a second
    equals sign does, is left out. *)
Theorem vorbis_last_occurrence_wins :
  (forall (fuel : nat) (buf : ArrayBuffer) (offset size : Z) (r : VorbisResult),
      parseVorbisComments fuel buf offset size = Ret r ->
      let comments := comments_read fuel buf offset size in
      Forall single_equals comments ->
      v_title r = last_value (lit "TITLE") comments /\
      v_artist r = last_value (lit "ARTIST") comments /\
      v_album r = last_value (lit "ALBUM") comments) /\
  (forall (pre post vendor : list byte) (comments : list (list byte)) (fuel : nat),
      byteLength vendor < 4294967296 ->
      Z.of_nat (List.length comments) < 4294967296 ->
      Forall (fun c => byteLength c < 4294967296) comments ->
      (List.length comments < fuel)%nat ->
      let block := vorbis_block_be vendor comments in
      let texts := map utf8_decode comments in
      Forall single_equals texts ->
      exists r,
        parseVorbisComments fuel (pre ++ block ++ post) (byteLength pre) (byteLength block)
        = Ret r /\
        v_title r = last_value (lit "TITLE") texts /\
        v_artist r = last_value (lit "ARTIST") texts /\
        v_album r = last_value (lit "ALBUM") texts).
Proof.
  split.
  - intros fuel buf offset size r H comments Hs.
    apply parseVorbisComments_read in H. subst r.
    apply fold_vorbis_assign_fields. exact Hs.
  - intros pre post vendor comments fuel Hv Hn Hc Hf block texts Hs.
    eexists. split; [apply parseVorbisComments_block; assumption|].
    apply fold_vorbis_assign_fields. exact Hs.
Qed.

Lemma vorbis_last_occurrence_wins_witness :
  exists r,
    parseVorbisComments 4 (vorbis_block_be (ascii_bytes "vendor") two_titles) 0 63 = Ret r /\
    v_title r = Some (lit "Second") /\ v_artist r = Some (lit "Someone") /\
    v_album r = None.
Proof.
  destruct vorbis_last_occurrence_wins as [_ H].
  destruct (H [] [] (ascii_bytes "vendor") two_titles 4%nat) as (r & Hr & Ht & Ha & Hb).
  - vm_compute. reflexivity.
  - vm_compute. reflexivity.
  - repeat constructor.
  - cbn. lia.
  - repeat constructor; vm_compute; lia.
  - exists r. rewrite app_nil_r in Hr. split; [exact Hr|].
    rewrite Ht, Ha, Hb. repeat split.
Defined.

(** C7 as stated fails.  For a file with the two titles in a block as FLAC
    has it the title is not that of the first occurrence but the default:
    the vendor length 6 is read as 100663296.  In a block whose lengths the
    parser decodes, the title is that of the second occurrence. *)
Lemma vorbis_first_occurrence_counterexample :
  first_value (lit "TITLE") (map utf8_decode two_titles) = Some (lit "First") /\
  (exists r,
      parseMetadata (enough_fuel two_titles_real_flac) two_titles_real_flac (lit "a.flac")
      = Ret r /\
      getUint32 two_titles_real_flac 8 = Ret 100663296 /\
      title r = lit "a" /\
      Some (title r) <> first_value (lit "TITLE") (map utf8_decode two_titles)) /\
  (exists r,
      parseMetadata (enough_fuel two_titles_flac) two_titles_flac (lit "a.flac") = Ret r /\
      title r = lit "Second" /\
      Some (title r) <> first_value (lit "TITLE") (map utf8_decode two_titles)).
Proof.
  split; [vm_compute; reflexivity|]. split.
  - eexists. split; [vm_compute; reflexivity|].
    split; [vm_compute; reflexivity|].
    split; [vm_compute; reflexivity|].
    vm_compute. discriminate.
  - eexists. split; [vm_compute; reflexivity|].
    split; [vm_compute; reflexivity|].
    vm_compute. discriminate.
Qed.

(** * Further properties of the engine and of the player *)

(** ** What the parsers leave alone *)

Section Frame.
Variable P : Metadata -> Prop.
Hypothesis P_duration : forall m v, P m -> P (set_duration m v).
Hypothesis P_title : forall m t, P m -> P (set_title m (or_str t (title m))).
Hypothesis P_artist : forall m t, P m -> P (set_artist m (or_str t (artist m))).
Hypothesis P_album : forall m t, P m -> P (set_album m (or_str t (album m))).
(** The three text assignments one after the other, as the FLAC, WAV and
    M4A paths make them. *)
Ltac frame_text Hp :=
  apply (@P_album (set_artist (set_title _ _) _));
  apply (@P_artist (set_title _ _));
  apply P_title; exact Hp.

Lemma mp3_body_frame (buf : ArrayBuffer) (version endOffset : Z) (s : mp3_state)
    (c : ctl mp3_state) :
  P (snd s) -> mp3_body buf version endOffset s = Ret c -> P (snd (ctl_state c)).
Proof.
  destruct s as [offset metadata]. unfold mp3_body. cbn [snd]. intros Hp H.
  ret_inv H; ret_done H; cbn [ctl_state snd]; try exact Hp.
  ret_inv E4; try ret_done E4;
    try match goal with
        | E : readAPICFrame _ _ _ = Ret (Some _) |- _ =>
            rewrite readAPICFrame_null in E; discriminate E
        end;
    auto.
Qed.

Lemma parseMP3_frame (fuel : nat) (buf : ArrayBuffer) (defaults r : Metadata) :
  P defaults -> parseMP3 fuel buf defaults = Ret r -> P r.
Proof.
  unfold parseMP3. intros Hp H. ret_inv H; ret_done H; try exact Hp.
  apply P_duration.
  apply (while_loop_wf (fun s => P (snd s))) in E4;
    [exact E4 | intros s c; apply mp3_body_frame | exact Hp].
Qed.

Lemma wav_body_frame (fuel : nat) (buf : ArrayBuffer) (s : wav_state) (c : ctl wav_state) :
  P (snd s) -> wav_body fuel buf s = Ret c -> P (snd (ctl_state c)).
Proof.
  destruct s as [offset metadata]. unfold wav_body. cbn [snd]. intros Hp H.
  ret_inv H; ret_done H; cbn [ctl_state snd];
    ret_inv E4; try ret_done E4; auto.
  frame_text Hp.
Qed.

Lemma parseWAV_frame (fuel : nat) (buf : ArrayBuffer) (defaults r : Metadata) :
  P defaults -> parseWAV fuel buf defaults = Ret r -> P r.
Proof.
  unfold parseWAV. intros Hp H. ret_inv H; ret_done H; try exact Hp.
  apply (while_loop_wf (fun s => P (snd s))) in E6;
    [exact E6 | intros s c; apply wav_body_frame | exact Hp].
Qed.

(** The FLAC path also stores the picture [parseFLACPicture] returned. *)
Hypothesis P_picture : forall buf offset size pd m,
  parseFLACPicture buf offset size = Ret (Some pd) ->
  P m -> P (set_cover m (Some (data pd)) (Some (mime pd))).

Lemma flac_body_frame (fuel : nat) (buf : ArrayBuffer) (s : flac_state) (c : ctl flac_state) :
  P (snd s) -> flac_body fuel buf s = Ret c -> P (snd (ctl_state c)).
Proof.
  destruct s as [offset metadata]. unfold flac_body. cbn [snd]. intros Hp H.
  ret_inv H; ret_done H; cbn [ctl_state snd];
    ret_inv E3; try ret_done E3; auto;
    try (frame_text Hp);
    match goal with
    | E : parseFLACPicture _ _ _ = Ret (Some _) |- _ =>
        apply (@P_picture _ _ _ _ _ E); exact Hp
    end.
Qed.

Lemma parseFLAC_frame (fuel : nat) (buf : ArrayBuffer) (defaults r : Metadata) :
  P defaults -> parseFLAC fuel buf defaults = Ret r -> P r.
Proof.
  unfold parseFLAC. intros Hp H. ret_inv H; ret_done H; try exact Hp.
  apply (while_loop_wf (fun s => P (snd s))) in E3;
    [exact E3 | intros s c; apply flac_body_frame | exact Hp].
Qed.

(** The M4A path builds its record from the tags [parse] returned. *)
Hypothesis P_tags : forall fuel buf tags m,
  parse fuel buf 0 = Ret tags ->
  P m ->
  P {| title := or_str (r_title tags) (title m);
       artist := or_str (r_artist tags) (artist m);
       album := or_str (r_album tags) (album m);
       duration := num_or_zero (r_duration tags);
       cover := r_cover tags;
       coverType := r_coverType tags;
       format := format m;
       filePath := filePath m |}.

Lemma parseM4A_frame (fuel : nat) (buf : ArrayBuffer) (defaults r : Metadata) :
  P defaults -> parseM4A fuel buf defaults = Ret r -> P r.
Proof.
  unfold parseM4A. intros Hp H. ret_inv H; ret_done H; try exact Hp.
  ret_inv E. ret_done E.
  match goal with
  | E : parse _ _ 0 = Ret _ |- _ => apply (@P_tags _ _ _ _ E); exact Hp
  end.
Qed.

Lemma parseMetadata_frame (fuel : nat) (buf : ArrayBuffer) (path : jsstring) (r : Metadata) :
  P (defaultMetadata path) -> parseMetadata fuel buf path = Ret r -> P r.
Proof.
  intros Hp. unfold parseMetadata. intros H. ret_inv H; ret_done H; try exact Hp.
  ret_inv E.
  - eapply parseMP3_frame; eauto.
  - eapply parseFLAC_frame; eauto.
  - eapply parseM4A_frame; eauto.
  - eapply parseWAV_frame; eauto.
  - ret_done E. exact Hp.
Qed.

End Frame.

(** X1: whatever the file holds and whichever parser runs, the record the
    dispatcher returns keeps the file path it was called with, and its
    format string is computed from the file name alone: for an extension of
    ASCII characters it is the extension in upper case without its full
    stop.  No parser writes either field. *)
Theorem parseMetadata_keeps_format_and_path (fuel : nat) (buf : ArrayBuffer)
    (path : jsstring) (r : Metadata) :
  parseMetadata fuel buf path = Ret r ->
  filePath r = path /\
  (ascii_text (getFileExtension path) = true ->
   format r = map ascii_upper (tl (getFileExtension path))).
Proof.
  intros H.
  apply (@parseMetadata_frame
           (fun m => format m = format (defaultMetadata path) /\
                     filePath m = filePath (defaultMetadata path))) in H;
    [| try (intros; assumption) .. | split; reflexivity].
  destruct H as [Hf Hp]. split; [exact Hp|].
  intros Ha. rewrite Hf. apply format_ascii. exact Ha.
Qed.

Lemma parseMetadata_keeps_format_and_path_witness :
  exists r,
    parseMetadata (enough_fuel picture_flac) picture_flac (lit "C:/Music/a.b.FlaC") = Ret r /\
    filePath r = lit "C:/Music/a.b.FlaC" /\ format r = lit "FLAC".
Proof.
  eexists. split; [vm_compute; reflexivity|].
  destruct (@parseMetadata_keeps_format_and_path (enough_fuel picture_flac) picture_flac
              (lit "C:/Music/a.b.FlaC")
              (MkMetadata (lit "a.b") unknown_artist unknown_album (num_of_Z 0)
                 (Some (lit "/9j/4AAQSkZJRg==")) (Some (lit "image/jpeg"))
                 (lit "FLAC") (lit "C:/Music/a.b.FlaC")))
    as [Hp Hf].
  - vm_compute. reflexivity.
  - split; [exact Hp|]. apply Hf. reflexivity.
Defined.

Lemma or_str_not_empty (t : option jsstring) (d : jsstring) : d <> [] -> or_str t d <> [].
Proof. intros Hd. destruct t as [[|c s]|]; cbn; auto. discriminate. Qed.

Lemma getDefaultTitle_not_empty (path : jsstring) : getDefaultTitle path <> [].
Proof. unfold getDefaultTitle. apply or_str_not_empty. discriminate. Qed.

(** X2: the title, the artist and the album of a returned record are never
    the empty string: every assignment of the parsers falls back to the
    value the field held, and the defaults are not empty. *)
Theorem parseMetadata_text_not_empty (fuel : nat) (buf : ArrayBuffer)
    (path : jsstring) (r : Metadata) :
  parseMetadata fuel buf path = Ret r ->
  title r <> [] /\ artist r <> [] /\ album r <> [].
Proof.
  intros H.
  apply (@parseMetadata_frame
           (fun m => title m <> [] /\ artist m <> [] /\ album m <> [])) in H.
  - exact H.
  - intros m v Hm. exact Hm.
  - intros m t (Ht & Ha & Hb). cbn. repeat split; auto using or_str_not_empty.
  - intros m t (Ht & Ha & Hb). cbn. repeat split; auto using or_str_not_empty.
  - intros m t (Ht & Ha & Hb). cbn. repeat split; auto using or_str_not_empty.
  - intros b o s pd m _ Hm. exact Hm.
  - intros f b tags m _ (Ht & Ha & Hb). cbn. repeat split; auto using or_str_not_empty.
  - cbn. repeat split; try discriminate. apply getDefaultTitle_not_empty.
Qed.

Lemma parseMetadata_text_not_empty_witness :
  exists r,
    parseMetadata (enough_fuel two_titles_flac) two_titles_flac (lit ".flac") = Ret r /\
    title r = lit "Second" /\
    (title r <> [] /\ artist r <> [] /\ album r <> []).
Proof.
  eexists. split; [vm_compute; reflexivity|]. split; [reflexivity|].
  apply (@parseMetadata_text_not_empty (enough_fuel two_titles_flac) two_titles_flac
           (lit ".flac")).
  vm_compute. reflexivity.
Defined.

(** X3: a file named [.mp3] or [.wav] never gets a cover.  The WAV parser
    has no assignment to the cover fields, and the only one of the MP3 parser
    is behind a picture reader that always returns null. *)
Theorem cover_null_for_mp3_and_wav (fuel : nat) (buf : ArrayBuffer)
    (path : jsstring) (r : Metadata) :
  toLowerCase (getFileExtension path) = lit ".mp3" \/
  toLowerCase (getFileExtension path) = lit ".wav" ->
  parseMetadata fuel buf path = Ret r ->
  cover r = None /\ coverType r = None.
Proof.
  intros Hext H. unfold parseMetadata in H.
  assert (Hd : cover (defaultMetadata path) = None /\
               coverType (defaultMetadata path) = None) by (split; reflexivity).
  destruct Hext as [Hext|Hext]; rewrite Hext in H; cbn [jsstring_eqb lit] in H;
    vm_compute (jsstring_eqb _ _) in H; cbv iota in H;
    ret_inv H; ret_done H; try exact Hd.
  - apply (@parseMP3_frame (fun m => cover m = None /\ coverType m = None)) in E;
      try (intros; assumption); exact E || exact Hd.
  - apply (@parseWAV_frame (fun m => cover m = None /\ coverType m = None)) in E;
      try (intros; assumption); exact E || exact Hd.
Qed.

Lemma cover_null_for_mp3_and_wav_witness :
  exists r,
    parseMetadata (enough_fuel roundtrip_mp3) roundtrip_mp3 (lit "song.MP3") = Ret r /\
    title r = lit "Tes" /\ cover r = None /\ coverType r = None.
Proof.
  eexists. split; [vm_compute; reflexivity|]. split; [reflexivity|].
  apply (@cover_null_for_mp3_and_wav (enough_fuel roundtrip_mp3) roundtrip_mp3
           (lit "song.MP3")).
  - left. vm_compute. reflexivity.
  - vm_compute. reflexivity.
Defined.

(** ** What the M4A walk leaves alone *)

Section ResultFrame.
Variable buf : ArrayBuffer.
Variable Q : M4AResult -> Prop.
Hypothesis Q_empty : Q m4a_empty.
Hypothesis Q_duration : forall r v,
  Q r -> Q (MkM4AResult (r_title r) (r_artist r) (r_album r) v (r_cover r) (r_coverType r)).
(** The one assignment of a cover: in a [covr] atom, whose size, type and
    first payload byte have been read. *)
Hypothesis Q_cover : forall offset size first r,
  getUint32 buf offset = Ret size ->
  atom_type buf offset = Ret (lit "covr") ->
  getUint8 buf (offset + 8) = Ret first ->
  Q r ->
  Q (MkM4AResult (r_title r) (r_artist r) (r_album r) (r_duration r)
       (Some (arrayBufferToBase64 (slice buf (offset + 8) (offset + 8 + (size - 8)))))
       (Some (if first =? 137 then lit "image/png" else lit "image/jpeg"))).

Lemma atom_advance_frame (size : Z) (s : m4a_state) :
  Q (snd s) -> Q (snd (ctl_state (atom_advance size s))).
Proof.
  unfold atom_advance. destruct (size =? 0); cbn [ctl_state snd]; auto.
Qed.

Lemma mediainfo_body_frame (s : m4a_state) (c : ctl m4a_state) :
  Q (snd s) -> mediainfo_body buf s = Ret c -> Q (snd (ctl_state c)).
Proof.
  destruct s as [offset result]. unfold mediainfo_body. cbn [snd]. intros Hq H.
  ret_inv H. apply Ret_inj in H. subst c. apply atom_advance_frame.
  ret_inv E1; ret_done E1; try exact Hq.
  cbn [snd]. apply Q_duration. exact Hq.
Qed.

Lemma parseMediaInfo_frame (fuel : nat) (offset : Z)
    (result : M4AResult) (s : m4a_state) :
  Q result -> parseMediaInfo fuel buf offset result = Ret s -> Q (snd s).
Proof.
  unfold parseMediaInfo. intros Hq H. ret_inv H.
  apply (while_loop_wf (fun s => Q (snd s))) in H;
    [exact H | intros s0 c; apply mediainfo_body_frame | exact Hq].
Qed.

Lemma media_body_frame (fuel : nat) (s : m4a_state) (c : ctl m4a_state) :
  Q (snd s) -> media_body fuel buf s = Ret c -> Q (snd (ctl_state c)).
Proof.
  destruct s as [offset result]. unfold media_body. cbn [snd]. intros Hq H.
  ret_inv H. apply Ret_inj in H. subst c. apply atom_advance_frame. cbn [snd].
  ret_inv E1; try ret_done E1; try exact Hq.
  eapply parseMediaInfo_frame; eauto.
Qed.

Lemma parseMedia_frame (fuel : nat) (offset : Z)
    (result : M4AResult) (s : m4a_state) :
  Q result -> parseMedia fuel buf offset result = Ret s -> Q (snd s).
Proof.
  unfold parseMedia. intros Hq H. ret_inv H.
  apply (while_loop_wf (fun s => Q (snd s))) in H;
    [exact H | intros s0 c; apply media_body_frame | exact Hq].
Qed.

Lemma track_body_frame (fuel : nat) (s : m4a_state) (c : ctl m4a_state) :
  Q (snd s) -> track_body fuel buf s = Ret c -> Q (snd (ctl_state c)).
Proof.
  destruct s as [offset result]. unfold track_body. cbn [snd]. intros Hq H.
  ret_inv H. apply Ret_inj in H. subst c. apply atom_advance_frame. cbn [snd].
  ret_inv E1; try ret_done E1; try exact Hq.
  eapply parseMedia_frame; eauto.
Qed.

Lemma parseTrack_frame (fuel : nat) (offset : Z)
    (result : M4AResult) (s : m4a_state) :
  Q result -> parseTrack fuel buf offset result = Ret s -> Q (snd s).
Proof.
  unfold parseTrack. intros Hq H. ret_inv H.
  apply (while_loop_wf (fun s => Q (snd s))) in H;
    [exact H | intros s0 c; apply track_body_frame | exact Hq].
Qed.

Lemma ilst_body_frame (s : m4a_state) (c : ctl m4a_state) :
  Q (snd s) -> ilst_body buf s = Ret c -> Q (snd (ctl_state c)).
Proof.
  destruct s as [offset result]. unfold ilst_body. cbn [snd]. intros Hq H.
  ret_inv H. apply Ret_inj in H. subst c. apply atom_advance_frame. cbn [snd].
  ret_inv E1; ret_done E1; try exact Hq.
  match goal with
  | Hs : getUint32 buf offset = Ret ?size, Ht : atom_type buf offset = Ret ?t,
    He : jsstring_eqb ?t (lit "covr") = true,
    Hf : getUint8 buf (offset + 8) = Ret ?f |- _ =>
      apply jsstring_eqb_eq in He; subst t;
      apply (@Q_cover offset size f _ Hs Ht Hf Hq)
  end.
Qed.

Lemma m4a_parseMetadata_frame (fuel : nat) (offset : Z)
    (result : M4AResult) (s : m4a_state) :
  Q result -> m4a_parseMetadata fuel buf offset result = Ret s -> Q (snd s).
Proof.
  unfold m4a_parseMetadata. intros Hq H. ret_inv H.
  apply (while_loop_wf (fun s => Q (snd s))) in H;
    [exact H | intros s0 c; apply ilst_body_frame | exact Hq].
Qed.

Lemma parse_body_frame (sub_parse : Z -> outcome M4AResult) (fuel : nat)
    (s : m4a_state) (c : ctl m4a_state) :
  (forall o r, sub_parse o = Ret r -> Q r) ->
  Q (snd s) -> parse_body sub_parse fuel buf s = Ret c ->
  Q (snd (ctl_state c)).
Proof.
  destruct s as [offset result]. unfold parse_body. cbn [snd]. intros Hsub Hq H.
  ret_inv H. apply Ret_inj in H. subst c. apply atom_advance_frame.
  ret_inv E1.
  - ret_done E1.
    match goal with
    | E : sub_parse _ = Ret ?m |- _ =>
        apply Hsub in E; cbn [snd]; unfold object_assign; destruct m; exact E
    end.
  - eapply parseTrack_frame; eauto.
  - eapply m4a_parseMetadata_frame; eauto.
  - eapply parseMedia_frame; eauto.
  - ret_done E1. exact Hq.
Qed.

Lemma parse_frame :
  forall fuel offset r, parse fuel buf offset = Ret r -> Q r.
Proof.
  induction fuel as [|fuel IH]; intros offset r H; cbn [parse] in H; [discriminate|].
  ret_inv H. ret_done H.
  apply (while_loop_wf (fun s => Q (snd s))) in E;
    [exact E | | exact Q_empty].
  intros s c. apply parse_body_frame. intros o r. apply IH.
Qed.

End ResultFrame.

Lemma parse_no_text (buf : ArrayBuffer) (fuel : nat) (offset : Z) (r : M4AResult) :
  parse fuel buf offset = Ret r -> no_text r.
Proof.
  apply (@parse_frame buf no_text);
    [repeat split | intros r0 v Hr; exact Hr | intros o size f r0 _ _ _ Hr; exact Hr].
Qed.

(** X4: the atom walk never stores a title, an artist or an album: the text
    of a [data] atom is read and dropped, and no other branch assigns one.
    The three text fields of the record returned for a file named [.m4a] are
    therefore the defaults, whatever the file holds. *)
Theorem m4a_text_is_default (fuel : nat) (buf : ArrayBuffer) (path : jsstring)
    (r : Metadata) :
  toLowerCase (getFileExtension path) = lit ".m4a" ->
  parseMetadata fuel buf path = Ret r ->
  (forall offset tags, parse fuel buf offset = Ret tags -> no_text tags) /\
  title r = getDefaultTitle path /\ artist r = unknown_artist /\ album r = unknown_album.
Proof.
  intros Hext H. split; [intros offset tags; apply parse_no_text|].
  unfold parseMetadata in H. rewrite Hext in H.
  vm_compute (jsstring_eqb _ _) in H. cbv iota in H.
  ret_inv H; ret_done H; try (repeat split; reflexivity).
  unfold parseM4A in E. ret_inv E; ret_done E; try (repeat split; reflexivity).
  ret_inv E0. ret_done E0.
  apply parse_no_text in E. destruct E as (Ht & Ha & Hb).
  cbn [title artist album]. rewrite Ht, Ha, Hb. repeat split.
Qed.

Lemma m4a_text_is_default_witness :
  exists r,
    parseMetadata (enough_fuel text_m4a) text_m4a (lit "dir/Song.m4a") = Ret r /\
    title r = lit "Song" /\ artist r = unknown_artist /\ album r = unknown_album.
Proof.
  eexists. split; [vm_compute; reflexivity|].
  apply (@m4a_text_is_default (enough_fuel text_m4a) text_m4a (lit "dir/Song.m4a")).
  - vm_compute. reflexivity.
  - vm_compute. reflexivity.
Defined.

(** ** Strings read byte by byte *)

Lemma latin1_loop_value (rest : list byte) :
  forall (n : Z) (acc : jsstring),
    let window := firstn (Z.to_nat n) rest in
    latin1_loop rest n acc
    = if has_nul window || (n <=? byteLength window)
      then Ret (acc ++ map u8 (until_nul window))
      else Throw RangeError.
Proof.
  induction rest as [|b rest IH]; intros n acc window; subst window.
  - rewrite firstn_nil. cbn [has_nul existsb orb until_nul map].
    change (byteLength []) with 0.
    destruct (n <=? 0) eqn:Hn; cbn [latin1_loop]; rewrite Hn.
    + rewrite app_nil_r. reflexivity.
    + reflexivity.
  - cbn [latin1_loop]. destruct (n <=? 0) eqn:Hn.
    + apply Z.leb_le in Hn. replace (Z.to_nat n) with O by lia.
      cbn [firstn has_nul existsb orb until_nul map].
      change (byteLength []) with 0. replace (n <=? 0) with true by (symmetry; apply Z.leb_le; lia).
      rewrite app_nil_r. reflexivity.
    + apply Z.leb_gt in Hn.
      replace (Z.to_nat n) with (S (Z.to_nat (n - 1))) by lia.
      cbn [firstn has_nul existsb until_nul].
      destruct (u8 b =? 0) eqn:Hb.
      * cbn [orb map]. rewrite app_nil_r. reflexivity.
      * rewrite IH. cbn [orb map]. fold (has_nul (firstn (Z.to_nat (n - 1)) rest)).
        unfold byteLength. cbn [List.length].
        replace (n <=? Z.of_nat (S (List.length (firstn (Z.to_nat (n - 1)) rest))))
          with (n - 1 <=? Z.of_nat (List.length (firstn (Z.to_nat (n - 1)) rest))).
        -- rewrite <- app_assoc. reflexivity.
        -- destruct (n - 1 <=? _) eqn:C1; symmetry;
             [apply Z.leb_le; apply Z.leb_le in C1 | apply Z.leb_gt; apply Z.leb_gt in C1]; lia.
Qed.

(** With a positive length, [readString] is its fallback loop on the
    [length] bytes at the offset. *)
Lemma readString_window (buf : ArrayBuffer) (offset length : Z) :
  0 < length ->
  readString buf offset length
  = if has_nul (firstn (Z.to_nat length) (bytes_from buf offset))
       || (length <=? byteLength (firstn (Z.to_nat length) (bytes_from buf offset)))
    then Ret (trim (map u8 (until_nul (firstn (Z.to_nat length) (bytes_from buf offset)))))
    else Throw RangeError.
Proof.
  intros Hlen. unfold readString.
  replace (length <=? 0) with false by (symmetry; apply Z.leb_gt; lia).
  unfold audioData_unbound. cbn [bind try_catch].
  rewrite latin1_loop_value.
  destruct (has_nul _ || _); reflexivity.
Qed.

(** X5: [readString] never decodes its bytes as UTF-8.  The first attempt
    names [audioData], which is bound nowhere, so the fallback always runs:
    with a positive length the result is the trimmed Latin-1 reading of the
    bytes before the first zero byte among the [length] bytes at the offset,
    and the call throws [RangeError] exactly when the buffer ends before
    [length] bytes and before a zero byte. *)
Theorem readString_value (buf : ArrayBuffer) (offset length : Z) :
  0 < length ->
  let window := firstn (Z.to_nat length) (bytes_from buf offset) in
  readString buf offset length
  = if has_nul window || (length <=? byteLength window)
    then Ret (trim (map u8 (until_nul window)))
    else Throw RangeError.
Proof. intros Hlen window. subst window. apply readString_window. exact Hlen. Qed.

Lemma readString_value_witness :
  readString (ascii_bytes "ab") 0 3 = Throw RangeError /\
  readString (ascii_bytes " ab " ++ [x00; xe4]) 0 9 = Ret (lit "ab") /\
  readString [xc3; xa4] 0 2 = Ret [195; 164].
Proof.
  split; [|split].
  - rewrite (@readString_value (ascii_bytes "ab") 0 3); [|lia]. vm_compute. reflexivity.
  - rewrite (@readString_value (ascii_bytes " ab " ++ [x00; xe4]) 0 9); [|lia].
    vm_compute. reflexivity.
  - rewrite (@readString_value [xc3; xa4] 0 2); [|lia]. vm_compute. reflexivity.
Defined.

Lemma trim_start_suffix (s : jsstring) : exists pre, s = pre ++ trim_start s.
Proof.
  induction s as [|c s (pre & IH)]; [exists []; reflexivity|].
  cbn [trim_start]. destruct (is_js_space c).
  - exists (c :: pre). cbn. f_equal. exact IH.
  - exists []. reflexivity.
Qed.

Lemma trim_start_Forall (P : Z -> Prop) (s : jsstring) :
  Forall P s -> Forall P (trim_start s).
Proof.
  destruct (trim_start_suffix s) as (pre & E). intros H. rewrite E in H.
  apply Forall_app in H. apply H.
Qed.

Lemma trim_start_length (s : jsstring) : (List.length (trim_start s) <= List.length s)%nat.
Proof.
  destruct (trim_start_suffix s) as (pre & E). rewrite E at 2.
  rewrite length_app. lia.
Qed.

Lemma trim_Forall (P : Z -> Prop) (s : jsstring) : Forall P s -> Forall P (trim s).
Proof.
  intros H. unfold trim.
  apply Forall_rev, trim_start_Forall, Forall_rev, trim_start_Forall, H.
Qed.

Lemma trim_length (s : jsstring) : (List.length (trim s) <= List.length s)%nat.
Proof.
  unfold trim. rewrite length_rev.
  pose proof (trim_start_length (rev (trim_start s))) as H1.
  rewrite length_rev in H1. pose proof (trim_start_length s). lia.
Qed.

Lemma until_nul_latin1 (bs : list byte) : Forall latin1_unit (map u8 (until_nul bs)).
Proof.
  induction bs as [|b bs IH]; cbn [until_nul]; [constructor|].
  destruct (u8 b =? 0) eqn:Hb; [constructor|].
  cbn [map]. constructor; [|exact IH].
  apply Z.eqb_neq in Hb. pose proof (u8_range b). unfold latin1_unit. lia.
Qed.

Lemma until_nul_length (bs : list byte) : (List.length (until_nul bs) <= List.length bs)%nat.
Proof.
  induction bs as [|b bs IH]; cbn [until_nul]; [lia|].
  destruct (u8 b =? 0); cbn [List.length]; lia.
Qed.

Lemma readString_units (buf : ArrayBuffer) (offset length : Z) (s : jsstring) :
  readString buf offset length = Ret s ->
  Forall latin1_unit s /\ Z.of_nat (List.length s) <= Z.max 0 length.
Proof.
  intros H. destruct (Z.ltb_spec 0 length) as [Hlen|Hlen].
  - rewrite (@readString_window buf offset length Hlen) in H.
    destruct (has_nul _ || _); [|discriminate H].
    apply Ret_inj in H. subst s. split.
    + apply trim_Forall, until_nul_latin1.
    + pose proof (trim_length (map u8 (until_nul (firstn (Z.to_nat length)
                                                     (bytes_from buf offset))))) as H1.
      rewrite length_map in H1.
      pose proof (until_nul_length (firstn (Z.to_nat length) (bytes_from buf offset))) as H2.
      pose proof (firstn_le_length (Z.to_nat length) (bytes_from buf offset)) as H3.
      lia.
  - unfold readString in H.
    replace (length <=? 0) with true in H by (symmetry; apply Z.leb_le; lia).
    apply Ret_inj in H. subst s. split; [constructor|cbn; lia].
Qed.

(** X6: a string [readString] returns holds code units from 1 to 255 only,
    one per byte read, and no more of them than the length asked for: a
    multi-byte UTF-8 sequence comes out as one unit per byte. *)
Theorem readString_latin1 (buf : ArrayBuffer) (offset length : Z) (s : jsstring) :
  readString buf offset length = Ret s ->
  Forall latin1_unit s /\ Z.of_nat (List.length s) <= Z.max 0 length.
Proof. apply readString_units. Qed.

Lemma readString_latin1_witness :
  readString (ascii_bytes "RIFF" ++ [xe4; xb8; xad; x00]) 4 3 = Ret [228; 184; 173] /\
  Forall latin1_unit [228; 184; 173].
Proof.
  split; [vm_compute; reflexivity|].
  apply (@readString_latin1 (ascii_bytes "RIFF" ++ [xe4; xb8; xad; x00]) 4 3 [228; 184; 173]).
  vm_compute. reflexivity.
Defined.

(** ** The INFO list of a WAV file *)

Lemma wavinfo_body_entries (buf : ArrayBuffer) (endOffset : Z) (s : wavinfo_state)
    (c : ctl wavinfo_state) :
  let ok := fun kv : jsstring * jsstring =>
              In (fst kv) info_ids /\ Forall latin1_unit (snd kv) /\
              (List.length (snd kv) <= 256)%nat in
  Forall ok (snd s) -> wavinfo_body buf endOffset s = Ret c ->
  Forall ok (snd (ctl_state c)).
Proof.
  intros ok. destruct s as [pos info]. unfold wavinfo_body. cbn [snd]. intros Hok H.
  ret_inv H; ret_done H; cbn [ctl_state snd]; try exact Hok.
  ret_inv E4; ret_done E4; try exact Hok.
  constructor; [|exact Hok]. subst ok. cbn [fst snd].
  apply existsb_exists in C0. destruct C0 as (k & Hin & Heq).
  apply jsstring_eqb_eq in Heq. rewrite Heq.
  apply readString_units in E5. destruct E5 as (Hu & Hl).
  repeat split; [exact Hin | exact Hu | lia].
Qed.

(** X7: the object [parseWAVInfo] returns binds nothing but the five
    identifiers [INAM], [IART], [IPRD], [ICRD] and [IGNR], each to a Latin-1
    string of 256 code units at most. *)
Theorem parseWAVInfo_entries (fuel : nat) (buf : ArrayBuffer) (offset size : Z)
    (info : InfoObject) :
  parseWAVInfo fuel buf offset size = Ret info ->
  Forall (fun kv => In (fst kv) info_ids /\ Forall latin1_unit (snd kv) /\
                    (List.length (snd kv) <= 256)%nat) info.
Proof.
  unfold parseWAVInfo. intros H. ret_inv H. ret_done H.
  apply (while_loop_wf
           (fun s : wavinfo_state =>
              Forall (fun kv => In (fst kv) info_ids /\ Forall latin1_unit (snd kv) /\
                                (List.length (snd kv) <= 256)%nat) (snd s))) in E;
    [exact E | | constructor].
  intros s c. apply wavinfo_body_entries.
Qed.

Lemma parseWAVInfo_entries_witness :
  parseWAVInfo 5 info_entry 0 14 = Ret [(lit "INAM", lit "Title")] /\
  Forall (fun kv => In (fst kv) info_ids /\ Forall latin1_unit (snd kv) /\
                    (List.length (snd kv) <= 256)%nat) [(lit "INAM", lit "Title")].
Proof.
  split; [vm_compute; reflexivity|].
  apply (@parseWAVInfo_entries 5 info_entry 0 14). vm_compute. reflexivity.
Defined.

(** ** The text of an MP3 tag *)

Lemma readTextFrame_units (buf : ArrayBuffer) (offset size : Z) (t : jsstring) :
  readTextFrame buf offset size = Ret (Some t) ->
  Forall latin1_unit t /\ Z.of_nat (List.length t) <= Z.max 0 (size - 1).
Proof.
  unfold readTextFrame. intros H. ret_inv H; try discriminate H;
    try (unfold audioData_unbound in *; cbn [bind] in *; discriminate).
  apply Ret_inj, Some_inj in H. subst t. eapply readString_units; eauto.
Qed.

Lemma or_str_default_or_latin1 (d cur : jsstring) (t : option jsstring) :
  (forall s, t = Some s -> Forall latin1_unit s) ->
  default_or_latin1 d cur -> default_or_latin1 d (or_str t cur).
Proof.
  intros Ht Hc. destruct t as [[|c s]|]; cbn [or_str]; try exact Hc.
  right. apply Ht. reflexivity.
Qed.

Lemma mp3_body_text (buf : ArrayBuffer) (version endOffset : Z) (d : Metadata)
    (s : mp3_state) (c : ctl mp3_state) :
  text_default_or_latin1 d (snd s) -> mp3_body buf version endOffset s = Ret c ->
  text_default_or_latin1 d (snd (ctl_state c)).
Proof.
  destruct s as [offset metadata]. unfold mp3_body. cbn [snd].
  intros (Ht & Ha & Hb) H.
  ret_inv H; ret_done H; cbn [ctl_state snd]; try (repeat split; assumption).
  ret_inv E4; try ret_done E4; try (repeat split; assumption);
    (split; [|split]); cbn [title artist album set_title set_artist set_album];
    try assumption;
    apply or_str_default_or_latin1; try assumption;
    intros s Hs; subst; eapply readTextFrame_units; eauto.
Qed.

(** X8: a text field of the record returned for a file named [.mp3] is the
    default or Latin-1 text, one code unit per byte of the frame: the
    encoding byte of a text frame is read and then ignored, so a UTF-16 or
    UTF-8 title never comes out decoded. *)
Theorem mp3_text_is_latin1 (fuel : nat) (buf : ArrayBuffer) (path : jsstring)
    (r : Metadata) :
  toLowerCase (getFileExtension path) = lit ".mp3" ->
  parseMetadata fuel buf path = Ret r ->
  default_or_latin1 (getDefaultTitle path) (title r) /\
  default_or_latin1 unknown_artist (artist r) /\
  default_or_latin1 unknown_album (album r).
Proof.
  intros Hext H. unfold parseMetadata in H. rewrite Hext in H.
  vm_compute (jsstring_eqb _ _) in H. cbv iota in H.
  assert (Hd : text_default_or_latin1 (defaultMetadata path) (defaultMetadata path))
    by (repeat split; left; reflexivity).
  ret_inv H; ret_done H; try exact Hd.
  unfold parseMP3 in E. ret_inv E; ret_done E; try exact Hd.
  apply (while_loop_wf (fun s => text_default_or_latin1 (defaultMetadata path) (snd s)))
    in E5; [exact E5 | intros s c; apply mp3_body_text | exact Hd].
Qed.

Lemma mp3_text_is_latin1_witness :
  exists r,
    parseMetadata (enough_fuel roundtrip_mp3) roundtrip_mp3 (lit "song.mp3") = Ret r /\
    title r = lit "Tes" /\
    default_or_latin1 (lit "song") (title r).
Proof.
  eexists. split; [vm_compute; reflexivity|]. split; [reflexivity|].
  apply (@mp3_text_is_latin1 (enough_fuel roundtrip_mp3) roundtrip_mp3 (lit "song.mp3")).
  - vm_compute. reflexivity.
  - vm_compute. reflexivity.
Defined.

(** ** The MP3 duration *)

(** X9: the MP3 parser returns the defaults untouched when the file does
    not start with [ID3]; otherwise the duration it stores is the number of
    bytes after the declared end of the tag divided by 16000, whatever the
    frames of the tag and the audio data hold.  The declared tag size is not
    compared with the file length, so the quotient can be negative. *)
Theorem parseMP3_duration (fuel : nat) (buf : ArrayBuffer) (defaults r : Metadata) :
  parseMP3 fuel buf defaults = Ret r ->
  (has_id3_magic buf = Ret false /\ r = defaults) \/
  (exists size,
      has_id3_magic buf = Ret true /\ readSyncsafeInt buf 6 = Ret size /\
      duration r = num_div (byteLength buf - (10 + size)) 16000).
Proof.
  unfold parseMP3. intros H. ret_inv H; ret_done H;
    try (left; split; reflexivity);
    right;
    match goal with
    | E : readSyncsafeInt buf 6 = Ret ?s |- _ => exists s
    end;
    repeat split; reflexivity.
Qed.

Lemma parseMP3_duration_witness :
  exists r,
    parseMP3 3 overdeclared_mp3 (defaultMetadata (lit "a.mp3")) = Ret r /\
    duration r = num_div (20 - 1010) 16000 /\
    PrimFloat.ltb (duration r) (num_of_Z 0) = true.
Proof.
  eexists. split; [vm_compute; reflexivity|]. split; [|vm_compute; reflexivity].
  match goal with
  | |- duration ?r = _ =>
      destruct (@parseMP3_duration 3 overdeclared_mp3 (defaultMetadata (lit "a.mp3")) r)
        as [[Hm _]|(size & _ & Hs & Hd)]
  end.
  - vm_compute. reflexivity.
  - vm_compute in Hm. discriminate Hm.
  - vm_compute in Hs. apply Ret_inj in Hs. subst size. exact Hd.
Defined.

(** ** The search for the data chunk *)

(** X10: a size [findWAVDataSize] returns is an unsigned 32-bit number, and
    one other than zero is the four bytes, most significant first, that
    follow the identifier [data] at an offset the scan has reached: at or
    after the start offset and more than eight bytes before [fileSize]. *)
Theorem findWAVDataSize_sound (fuel : nat) (buf : ArrayBuffer)
    (startOffset fileSize v : Z) :
  findWAVDataSize fuel buf startOffset fileSize = Ret v ->
  0 <= v < 4294967296 /\
  (v <> 0 ->
   exists offset,
     startOffset <= offset < fileSize - 8 /\
     [byte_at buf offset; byte_at buf (offset + 1);
      byte_at buf (offset + 2); byte_at buf (offset + 3)] = lit "data" /\
     getUint32 buf (offset + 4) = Ret v).
Proof.
  unfold findWAVDataSize. intros H.
  destruct (while_loop _ _ _ _) as [a| |] eqn:E; cbn [bind] in H; try discriminate H.
  set (I := fun s : wavdata_state =>
              startOffset <= fst s /\
              forall size, snd s = Some size ->
                fst s < fileSize - 8 /\
                [byte_at buf (fst s); byte_at buf (fst s + 1);
                 byte_at buf (fst s + 2); byte_at buf (fst s + 3)] = lit "data" /\
                getUint32 buf (fst s + 4) = Ret size).
  assert (Ha : I a).
  { apply (@while_loop_invariant _ (wavdata_cond fileSize) (wavdata_body buf) I) in E.
    - exact E.
    - intros s s' (Hs & _) Hc Hb. unfold wavdata_body in Hb.
      ret_inv Hb; ret_done Hb. subst I. cbn [fst snd]. split; [|discriminate].
      match goal with
      | E : getUint32 _ _ = Ret ?n |- _ =>
          apply getUint32_Ret in E; pose proof (wav_next_offset_ge (fst s) n)
      end.
      lia.
    - intros s s' (Hs & _) Hc Hb. unfold wavdata_body in Hb.
      ret_inv Hb; ret_done Hb. subst I. cbn [fst snd]. split; [exact Hs|].
      intros size Hsize. apply Some_inj in Hsize. subst size.
      unfold wavdata_cond in Hc. apply Z.ltb_lt in Hc.
      match goal with
      | Q : jsstring_eqb _ _ = true |- _ => apply jsstring_eqb_eq in Q; rename Q into Hid
      end.
      split; [exact Hc|]. split; [|assumption].
      repeat match goal with
             | Q : getUint8 _ _ = Ret _ |- _ =>
                 apply getUint8_Ret in Q; destruct Q as (_ & _ & ->)
             end.
      exact Hid.
    - subst I. cbn [fst snd]. split; [lia|discriminate]. }
  destruct Ha as (Hge & Hsome).
  destruct (snd a) as [size|] eqn:Hs; apply Ret_inj in H; subst v.
  - destruct (Hsome size eq_refl) as (Hlt & Hid & Hread).
    split.
    + apply getUint32_Ret in Hread. lia.
    + intros _. exists (fst a). repeat split; try assumption; lia.
  - split; [lia|]. intros Hv. contradiction Hv. reflexivity.
Qed.

Lemma findWAVDataSize_sound_witness :
  findWAVDataSize 3 data_chunk 0 12 = Ret 67108864 /\
  exists offset,
    0 <= offset < 12 - 8 /\
    [byte_at data_chunk offset; byte_at data_chunk (offset + 1);
     byte_at data_chunk (offset + 2); byte_at data_chunk (offset + 3)] = lit "data" /\
    getUint32 data_chunk (offset + 4) = Ret 67108864.
Proof.
  split; [vm_compute; reflexivity|].
  destruct (@findWAVDataSize_sound 3 data_chunk 0 12 67108864) as [_ H].
  - vm_compute. reflexivity.
  - apply H. lia.
Defined.

(** ** Comment blocks that end early *)

(** X11: [parseVorbisComments] never throws and, given a budget above the
    file length, returns an object for every buffer, offset and size; when
    the vendor length or the comment count cannot be read inside the
    buffer, the three fields of that object are null. *)
Theorem parseVorbisComments_total (buf : ArrayBuffer) (offset size : Z) :
  (forall fuel e, parseVorbisComments fuel buf offset size <> Throw e) /\
  (forall fuel, (List.length buf < fuel)%nat ->
                exists r, parseVorbisComments fuel buf offset size = Ret r) /\
  (forall fuel e, getUint32 buf offset = Throw e ->
                  parseVorbisComments fuel buf offset size = Ret vorbis_empty) /\
  (forall fuel vendorLength e,
      getUint32 buf offset = Ret vendorLength ->
      getUint32 buf (offset + (4 + vendorLength)) = Throw e ->
      parseVorbisComments fuel buf offset size = Ret vorbis_empty).
Proof.
  split; [|split; [|split]].
  - intros fuel e. unfold parseVorbisComments.
    destruct (bind _ _); cbn [try_catch]; discriminate.
  - intros fuel Hf.
    pose proof (@terminates_parseVorbisComments fuel buf offset size Hf) as Ht.
    unfold parseVorbisComments in *.
    destruct (bind _ _) as [r|e|]; cbn [try_catch] in *.
    + exists r. reflexivity.
    + exists vorbis_empty. reflexivity.
    + contradiction Ht. reflexivity.
  - intros fuel e He. unfold parseVorbisComments. rewrite He. reflexivity.
  - intros fuel vl e Hv He. unfold parseVorbisComments.
    rewrite Hv. cbn [bind]. rewrite He. reflexivity.
Qed.

Lemma parseVorbisComments_total_witness :
  parseVorbisComments 1 (be32 100 ++ ascii_bytes "short") 0 109 = Ret vorbis_empty.
Proof.
  apply (@parseVorbisComments_total (be32 100 ++ ascii_bytes "short") 0 109)
    with (vendorLength := 100) (e := RangeError); vm_compute; reflexivity.
Defined.

(** ** The sample count of a FLAC file *)

Lemma land_le_l (x y : Z) : 0 <= x -> 0 <= Z.land x y <= x.
Proof.
  intros Hx. apply Z.ldiff_le; [exact Hx|].
  apply Z.bits_inj'. intros n Hn.
  rewrite Z.ldiff_spec, Z.land_spec, Z.bits_0.
  destruct (Z.testbit x n), (Z.testbit y n); reflexivity.
Qed.

Lemma lor_low_bits (a b : Z) : 0 <= a -> 0 <= b -> b <= Z.lor a b <= a + b.
Proof.
  intros Ha Hb. pose proof (Z.add_lor_land a b). pose proof (@land_le_l a b Ha). lia.
Qed.

(** The sample count the STREAMINFO branch computes from the two words it
    reads: the sample rate with four more bits or-ed in while the first word
    is below 2^31, and a negative number from there on. *)
Lemma flac_totalSamples_bounds (w10 w13 : Z) :
  0 <= w10 < 4294967296 -> 0 <= w13 < 4294967296 ->
  flac_sampleRate w10 = w10 / 4096 /\
  (w10 < 2147483648 ->
   flac_sampleRate w10 <= flac_totalSamples w10 w13 < flac_sampleRate w10 + 16) /\
  (2147483648 <= w10 -> flac_totalSamples w10 w13 < 0).
Proof.
  intros H10 H13. split; [apply flac_sampleRate_top20; exact H10|]. split.
  - intros Hlow. rewrite flac_sampleRate_top20 by exact H10.
    rewrite flac_totalSamples_value by lia.
    assert (0 <= w13 mod 16 < 16) by (apply Z.mod_pos_bound; lia).
    assert (0 <= w10 / 4096) by (apply Z.div_pos; lia).
    pose proof (@lor_low_bits (w13 mod 16) (w10 / 4096)). lia.
  - intros Hhigh. unfold flac_totalSamples, js_or. apply Z.lor_neg. right.
    unfold js_shr. change (12 mod 32) with 12.
    rewrite Z.shiftr_div_pow2 by lia. change (2 ^ 12) with 4096.
    assert (R : -2147483648 <= toInt32 w10 < 0).
    { unfold toInt32. Z.div_mod_to_equations. lia. }
    rewrite (@toInt32_small (toInt32 w10 / 4096)) by (Z.div_mod_to_equations; lia).
    Z.div_mod_to_equations. lia.
Qed.

(** ** File names *)

Lemma jsstring_eqb_refl (a : jsstring) : jsstring_eqb a a = true.
Proof.
  induction a as [|x a IH]; cbn [jsstring_eqb]; [reflexivity|].
  rewrite Z.eqb_refl. exact IH.
Qed.

Lemma existsb_eqb_In (x : jsstring) (l : list jsstring) :
  existsb (jsstring_eqb x) l = true <-> In x l.
Proof.
  rewrite existsb_exists. split.
  - intros (y & Hin & Heq). apply jsstring_eqb_eq in Heq. subst y. exact Hin.
  - intros Hin. exists x. split; [exact Hin|apply jsstring_eqb_refl].
Qed.

Lemma lower_unit_no_dot (c : Z) : (c =? 46) = false -> no_dot (lower_unit c) = true.
Proof.
  intros Hc. unfold lower_unit.
  destruct ((65 <=? c) && (c <=? 90)) eqn:C1.
  - cbn. apply andb_true_iff in C1. destruct C1 as [C1 C2].
    apply Z.leb_le in C1, C2.
    replace (c + 32 =? 46) with false by (symmetry; apply Z.eqb_neq; lia). reflexivity.
  - destruct (c =? 8490); [reflexivity|]. destruct (c =? 304); [reflexivity|].
    cbn. rewrite Hc. reflexivity.
Qed.

Lemma toLowerCase_no_dot (s : jsstring) : no_dot s = true -> no_dot (toLowerCase s) = true.
Proof.
  unfold no_dot, toLowerCase. induction s as [|c s IH]; cbn [forallb flat_map]; [reflexivity|].
  intros H. apply andb_true_iff in H. destruct H as [Hc Hs].
  rewrite forallb_app. apply andb_true_iff. split; [|apply IH; exact Hs].
  apply lower_unit_no_dot. apply negb_true_iff. exact Hc.
Qed.

Lemma toLowerCase_app (a b : jsstring) :
  toLowerCase (a ++ b) = toLowerCase a ++ toLowerCase b.
Proof. unfold toLowerCase. apply flat_map_app. Qed.

(** A string has no full stop, or a last one. *)
Lemma last_dot_split (s : jsstring) :
  no_dot s = true \/ exists pre t, s = pre ++ 46 :: t /\ no_dot t = true.
Proof.
  induction s as [|c s [IH|(pre & t & E & Ht)]].
  - left. reflexivity.
  - destruct (c =? 46) eqn:Hc.
    + right. exists [], s. apply Z.eqb_eq in Hc. subst c. split; [reflexivity|exact IH].
    + left. unfold no_dot in *. cbn [forallb]. rewrite Hc, IH. reflexivity.
  - right. exists (c :: pre), t. split; [rewrite E; reflexivity|exact Ht].
Qed.

Lemma accepted_no_dot (x : jsstring) : In x acceptedExtensions -> no_dot x = true.
Proof.
  intros [H|[H|[H|[H|[]]]]]; subst x; reflexivity.
Qed.

Lemma supported_accepted (x : jsstring) :
  In (46 :: x) supportedFormats <-> In x acceptedExtensions.
Proof.
  unfold supportedFormats, acceptedExtensions. cbn [In]. split.
  - intros [H|[H|[H|[H|[]]]]]; apply (f_equal (@tl Z)) in H; cbn [tl] in H;
      change (tl (lit ".mp3")) with (lit "mp3") in H;
      change (tl (lit ".flac")) with (lit "flac") in H;
      change (tl (lit ".m4a")) with (lit "m4a") in H;
      change (tl (lit ".wav")) with (lit "wav") in H; auto.
  - intros [H|[H|[H|[H|[]]]]]; subst x; auto.
Qed.

Lemma last_segment_no_dot (s : jsstring) :
  no_dot s = true -> last (split_by (fun c => c =? 46) s) [] = s.
Proof.
  intros H. rewrite split_by_no_separator; [reflexivity|exact H].
Qed.

(** X13: the file filter of the player and [isFormatSupported] of the
    extractor agree on every name that has a full stop; the filter
    also keeps a name that, in lower case, is one of [wav], [mp3], [flac]
    and [m4a] with no full stop at all, which the extractor does not
    support. *)
Theorem validFile_iff_supported (path : jsstring) :
  validFile path = true <->
  isFormatSupported path = true \/ In (toLowerCase path) acceptedExtensions.
Proof.
  unfold validFile, isFormatSupported, getFileExtension.
  destruct (last_dot_split path) as [Hnd|(pre & t & E & Ht)].
  - rewrite (@last_segment_no_dot (toLowerCase path)) by (apply toLowerCase_no_dot; exact Hnd).
    rewrite after_last_dot_none by exact Hnd.
    rewrite existsb_eqb_In. split; [intros H; right; exact H|].
    intros [H|H]; [discriminate H|exact H].
  - subst path. rewrite after_last_dot_app by exact Ht.
    rewrite toLowerCase_app.
    change (toLowerCase (46 :: t)) with (46 :: toLowerCase t).
    rewrite split_by_last; [|reflexivity|apply toLowerCase_no_dot; exact Ht].
    rewrite existsb_eqb_In.
    assert (Hno : ~ In (toLowerCase pre ++ 46 :: toLowerCase t) acceptedExtensions).
    { intros Hin. apply accepted_no_dot in Hin. unfold no_dot in Hin.
      rewrite forallb_app in Hin. cbn in Hin.
      rewrite andb_false_r in Hin. discriminate Hin. }
    destruct t as [|c t].
    + cbn. split; [intros [H|[H|[H|[H|[]]]]]; discriminate H|].
      intros [H|H]; [discriminate H|contradiction].
    + change (toLowerCase (46 :: c :: t)) with (46 :: toLowerCase (c :: t)).
      rewrite existsb_eqb_In, supported_accepted.
      split; [intros H; left; exact H|]. intros [H|H]; [exact H|contradiction].
Qed.

(** X14: for a file name the extractor supports, the format string of the
    returned record is one of [MP3], [FLAC], [M4A] and [WAV], whatever the
    case of the extension in the name and whatever the file holds. *)
Theorem supported_format_string (fuel : nat) (buf : ArrayBuffer) (path : jsstring)
    (r : Metadata) :
  isFormatSupported path = true ->
  parseMetadata fuel buf path = Ret r ->
  In (format r) [lit "MP3"; lit "FLAC"; lit "M4A"; lit "WAV"].
Proof.
  intros Hs H.
  apply (@parseMetadata_frame (fun m => format m = format (defaultMetadata path))) in H;
    try (intros; assumption); try reflexivity.
  rewrite H. cbn [format defaultMetadata].
  unfold isFormatSupported in Hs. apply existsb_eqb_In in Hs.
  destruct Hs as [E|[E|[E|[E|[]]]]]; rewrite <- E; cbn; auto.
Qed.

Lemma supported_format_string_witness :
  exists r,
    parseMetadata (enough_fuel streaminfo_flac) streaminfo_flac (lit "a.b.fLaC") = Ret r /\
    format r = lit "FLAC" /\
    In (format r) [lit "MP3"; lit "FLAC"; lit "M4A"; lit "WAV"].
Proof.
  eexists. split; [vm_compute; reflexivity|]. split; [reflexivity|].
  apply (@supported_format_string (enough_fuel streaminfo_flac) streaminfo_flac
           (lit "a.b.fLaC")).
  - vm_compute. reflexivity.
  - vm_compute. reflexivity.
Defined.

Lemma split_by_segments (p : Z -> bool) (s : jsstring) :
  Forall (Forall (fun c => p c = false)) (split_by p s).
Proof.
  induction s as [|c s IH]; cbn [split_by]; [repeat constructor|].
  destruct (p c) eqn:Hc; [constructor; [constructor|exact IH]|].
  destruct (split_by p s) as [|h t]; [repeat constructor; exact Hc|].
  inversion IH as [|? ? Hh Ht]; subst.
  constructor; [constructor; [exact Hc|exact Hh]|exact Ht].
Qed.

Lemma last_Forall {A : Type} (P : A -> Prop) (l : list A) (d : A) :
  P d -> Forall P l -> P (last l d).
Proof.
  intros Hd H. induction H as [|x l Hx Hl IH]; [exact Hd|].
  destruct l; [exact Hx|exact IH].
Qed.

Lemma firstn_Forall {A : Type} (P : A -> Prop) (n : nat) (l : list A) :
  Forall P l -> Forall P (firstn n l).
Proof.
  intros H. revert n. induction H as [|x l Hx Hl IH]; intros [|n]; cbn [firstn];
    constructor; auto.
Qed.

(** X15: the default title is never empty and holds no path separator,
    neither a slash nor a backslash: it is taken from the text after the last
    separator of the path, or is the placeholder. *)
Theorem getDefaultTitle_no_separator (path : jsstring) :
  getDefaultTitle path <> [] /\
  Forall (fun c => is_path_separator c = false) (getDefaultTitle path).
Proof.
  split; [apply getDefaultTitle_not_empty|].
  unfold getDefaultTitle.
  set (stem := strip_extension (last (split_by is_path_separator path) [])).
  assert (Hs : Forall (fun c => is_path_separator c = false) stem).
  { subst stem. unfold strip_extension. apply firstn_Forall.
    apply last_Forall; [constructor|apply split_by_segments]. }
  destruct stem as [|c s]; cbn [or_str]; [repeat constructor|exact Hs].
Qed.

(** ** The playback controls *)

Lemma playSong_index_ok (p : Player) (index : Z) : index_ok p -> index_ok (playSong p index).
Proof.
  unfold playSong. intros H. destruct ((index <? 0) || (index >=? songs_length p)) eqn:C.
  - exact H.
  - apply orb_false_iff in C. destruct C as [C1 C2].
    apply Z.ltb_ge in C1. rewrite Z.geb_leb in C2. apply Z.leb_gt in C2.
    right. unfold songs_length in *. cbn [currentSongIndex songs]. lia.
Qed.

Lemma store_duration_length (l : list Metadata) (v : number) :
  forall index, List.length (store_duration l index v) = List.length l.
Proof.
  induction l as [|song l IH]; intros [|i]; cbn [store_duration List.length];
    try reflexivity.
  rewrite IH. reflexivity.
Qed.

Lemma step_index_ok (p : Player) (a : action) : index_ok p -> index_ok (step p a).
Proof.
  intros H. destruct a; cbn [step].
  - unfold push_song, index_ok, songs_length in *. cbn [currentSongIndex songs].
    rewrite length_app. cbn [List.length]. lia.
  - apply playSong_index_ok, H.
  - unfold togglePlay. destruct (_ && _); [apply playSong_index_ok|]; exact H.
  - unfold playPrevious. destruct (_ =? 0); [|apply playSong_index_ok]; exact H.
  - unfold playNext. destruct (_ =? 0); [|apply playSong_index_ok]; exact H.
  - unfold onSongEnded, playNext. destruct (_ =? 0); [|apply playSong_index_ok]; exact H.
  - unfold onMetadataLoaded. destruct (_ >=? 0); [|exact H].
    destruct (nth_error _ _); [|exact H].
    unfold index_ok, songs_length in *. cbn [currentSongIndex songs].
    rewrite store_duration_length. exact H.
Qed.

(** X16: whatever is added, whichever controls are used and whatever the
    audio element reports, in any order, the current index of the player is
    -1 or the index of a song of the list, so
    [this.songs[this.currentSongIndex]] is a song whenever the index is not
    negative. *)
Theorem player_index_in_range (actions : list action) :
  let p := run new_player actions in
  currentSongIndex p = -1 \/ 0 <= currentSongIndex p < songs_length p.
Proof.
  cbn zeta. unfold run.
  assert (H : index_ok new_player) by (left; reflexivity).
  revert H. generalize new_player.
  induction actions as [|a actions IH]; intros p H; cbn [fold_left]; [exact H|].
  apply IH, step_index_ok, H.
Qed.

Lemma playNext_index (p : Player) :
  playing_index p ->
  playNext p
  = MkPlayer (songs p)
      (if currentSongIndex p + 1 >=? songs_length p then 0 else currentSongIndex p + 1).
Proof.
  unfold playing_index, playNext, playSong. intros H.
  replace (songs_length p =? 0) with false by (symmetry; apply Z.eqb_neq; lia).
  cbn zeta. destruct (currentSongIndex p + 1 >=? songs_length p) eqn:C.
  - replace ((0 <? 0) || (0 >=? songs_length p)) with false; [reflexivity|].
    symmetry. apply orb_false_iff. split; [reflexivity|].
    rewrite Z.geb_leb. apply Z.leb_gt. lia.
  - rewrite C. replace (currentSongIndex p + 1 <? 0) with false
      by (symmetry; apply Z.ltb_ge; lia). reflexivity.
Qed.

Lemma playPrevious_index (p : Player) :
  playing_index p ->
  playPrevious p
  = MkPlayer (songs p)
      (if currentSongIndex p - 1 <? 0 then songs_length p - 1 else currentSongIndex p - 1).
Proof.
  unfold playing_index, playPrevious, playSong. intros H.
  replace (songs_length p =? 0) with false by (symmetry; apply Z.eqb_neq; lia).
  cbn zeta. destruct (currentSongIndex p - 1 <? 0) eqn:C.
  - replace ((songs_length p - 1 <? 0) || (songs_length p - 1 >=? songs_length p))
      with false; [reflexivity|].
    symmetry. apply orb_false_iff. split; [apply Z.ltb_ge; lia|].
    rewrite Z.geb_leb. apply Z.leb_gt. lia.
  - rewrite C. apply Z.ltb_ge in C.
    replace (currentSongIndex p - 1 >=? songs_length p) with false; [reflexivity|].
    symmetry. rewrite Z.geb_leb. apply Z.leb_gt. lia.
Qed.

(** X17: while a song is selected, the next and the previous control undo
    each other, wrap-around included: after the last song comes the first,
    before the first the last. *)
Theorem playNext_playPrevious_inverse (p : Player) :
  0 <= currentSongIndex p < songs_length p ->
  playPrevious (playNext p) = p /\ playNext (playPrevious p) = p.
Proof.
  intros H. destruct p as [l i]. unfold songs_length in *. cbn [songs currentSongIndex] in H.
  split.
  - rewrite playNext_index by exact H. cbn [songs currentSongIndex].
    rewrite playPrevious_index.
    + cbn [songs currentSongIndex]. unfold songs_length. cbn [songs]. f_equal.
      destruct (i + 1 >=? _) eqn:C; rewrite Z.geb_leb in C;
        [apply Z.leb_le in C|apply Z.leb_gt in C].
      * cbn. lia.
      * replace (i + 1 - 1 <? 0) with false by (symmetry; apply Z.ltb_ge; lia). lia.
    + unfold playing_index, songs_length. cbn [songs currentSongIndex].
      destruct (i + 1 >=? _) eqn:C; rewrite Z.geb_leb in C;
        [apply Z.leb_le in C|apply Z.leb_gt in C]; lia.
  - rewrite playPrevious_index by exact H. cbn [songs currentSongIndex].
    rewrite playNext_index.
    + cbn [songs currentSongIndex]. unfold songs_length. cbn [songs]. f_equal.
      destruct (i - 1 <? 0) eqn:C; [apply Z.ltb_lt in C|apply Z.ltb_ge in C].
      * replace (_ >=? _) with true by (symmetry; rewrite Z.geb_leb; apply Z.leb_le; lia).
        lia.
      * replace (_ >=? _) with false by (symmetry; rewrite Z.geb_leb; apply Z.leb_gt; lia).
        lia.
    + unfold playing_index, songs_length. cbn [songs currentSongIndex].
      destruct (i - 1 <? 0) eqn:C; [apply Z.ltb_lt in C|apply Z.ltb_ge in C]; lia.
Qed.

Lemma playNext_playPrevious_inverse_witness :
  let d := defaultMetadata (lit "a.mp3") in
  let p := run new_player [AddSong d; AddSong d; AddSong d; PlaySong 2] in
  currentSongIndex (playNext p) = 0 /\
  playPrevious (playNext p) = p /\ playNext (playPrevious p) = p.
Proof.
  cbn zeta. split; [reflexivity|].
  apply (@playNext_playPrevious_inverse
           (run new_player [AddSong (defaultMetadata (lit "a.mp3"));
                            AddSong (defaultMetadata (lit "a.mp3"));
                            AddSong (defaultMetadata (lit "a.mp3")); PlaySong 2])).
  vm_compute. split; [discriminate|reflexivity].
Defined.

Lemma iter_playNext_index (p : Player) (k : nat) :
  playing_index p ->
  Nat.iter k playNext p
  = MkPlayer (songs p) ((currentSongIndex p + Z.of_nat k) mod songs_length p).
Proof.
  intros H. induction k as [|k IH].
  - change (Nat.iter 0 playNext p) with p.
    destruct p as [l i]. unfold playing_index, songs_length in *.
    cbn [songs currentSongIndex] in *. f_equal.
    rewrite Z.add_0_r. symmetry. apply Z.mod_small. exact H.
  - change (Nat.iter (S k) playNext p) with (playNext (Nat.iter k playNext p)).
    rewrite IH.
    assert (Hm : 0 <= (currentSongIndex p + Z.of_nat k) mod songs_length p < songs_length p)
      by (apply Z.mod_pos_bound; unfold playing_index in H; lia).
    rewrite playNext_index by (unfold playing_index, songs_length in *; exact Hm).
    cbn [songs currentSongIndex]. unfold songs_length in *. cbn [songs]. f_equal.
    set (n := Z.of_nat (List.length (songs p))) in *.
    replace (currentSongIndex p + Z.of_nat (S k))
      with (currentSongIndex p + Z.of_nat k + 1) by lia.
    rewrite <- (Z.add_mod_idemp_l (currentSongIndex p + Z.of_nat k) 1 n) by lia.
    set (m := (currentSongIndex p + Z.of_nat k) mod n) in *.
    destruct (m + 1 >=? n) eqn:C; rewrite Z.geb_leb in C;
      [apply Z.leb_le in C|apply Z.leb_gt in C].
    + replace (m + 1) with n by lia. rewrite Z.mod_same by lia. reflexivity.
    + rewrite Z.mod_small by lia. reflexivity.
Qed.

(** X18: with a song selected, pressing next as many times as the list has
    songs comes back to the same song, and [k] presses select the song [k]
    places further on, counted round the list. *)
Theorem playNext_cycle (p : Player) (k : nat) :
  0 <= currentSongIndex p < songs_length p ->
  currentSongIndex (Nat.iter k playNext p)
  = (currentSongIndex p + Z.of_nat k) mod songs_length p /\
  Nat.iter (List.length (songs p)) playNext p = p.
Proof.
  intros H. split.
  - rewrite iter_playNext_index by exact H. reflexivity.
  - rewrite iter_playNext_index by exact H.
    destruct p as [l i]. unfold songs_length in *. cbn [songs currentSongIndex] in *.
    f_equal. rewrite <- (Z.mul_1_l (Z.of_nat (List.length l))) at 1.
    rewrite Z.mod_add by lia. apply Z.mod_small. exact H.
Qed.

Lemma playNext_cycle_witness :
  let d := defaultMetadata (lit "a.mp3") in
  let p := run new_player [AddSong d; AddSong d; AddSong d; TogglePlay] in
  currentSongIndex p = 0 /\
  currentSongIndex (Nat.iter 5 playNext p) = 2 /\
  Nat.iter 3 playNext p = p.
Proof.
  cbn zeta. split; [reflexivity|].
  apply (@playNext_cycle
           (run new_player [AddSong (defaultMetadata (lit "a.mp3"));
                            AddSong (defaultMetadata (lit "a.mp3"));
                            AddSong (defaultMetadata (lit "a.mp3")); TogglePlay]) 5).
  vm_compute. split; [discriminate|reflexivity].
Defined.

(** ** Base64 there and back *)

Lemma list_ind3 {A : Type} (P : list A -> Prop) :
  P [] -> (forall a, P [a]) -> (forall a b, P [a; b]) ->
  (forall a b c r, P r -> P (a :: b :: c :: r)) ->
  forall l, P l.
Proof.
  intros H0 H1 H2 H3.
  assert (H : forall l, P l /\ (forall a, P (a :: l)) /\ (forall a b, P (a :: b :: l))).
  { induction l as [|x l (IHa & IHb & IHc)].
    - repeat split; auto.
    - repeat split; auto. }
  intros l. apply H.
Qed.

Lemma sextet_table :
  forallb (fun n => negb (is_ascii_whitespace (b64_char n))
                    && negb (b64_char n =? 61)
                    && match b64_value (b64_char n) with
                       | Some m => m =? n
                       | None => false
                       end)
          (map Z.of_nat (seq 0 64)) = true.
Proof. vm_compute. reflexivity. Qed.

Lemma sextet_facts (n : Z) :
  0 <= n < 64 ->
  is_ascii_whitespace (b64_char n) = false /\
  (b64_char n =? 61) = false /\
  b64_value (b64_char n) = Some n.
Proof.
  intros Hn. pose proof sextet_table as T.
  rewrite forallb_forall in T. specialize (T n).
  assert (Hin : In n (map Z.of_nat (seq 0 64))).
  { apply in_map_iff. exists (Z.to_nat n). split; [lia|]. apply in_seq. lia. }
  apply T in Hin. apply andb_true_iff in Hin. destruct Hin as [Hin H3].
  apply andb_true_iff in Hin. destruct Hin as [H1 H2].
  apply negb_true_iff in H1, H2. repeat split; try assumption.
  destruct (b64_value (b64_char n)) as [m|]; [|discriminate H3].
  apply Z.eqb_eq in H3. subst m. reflexivity.
Qed.

Lemma strip_padding_keep (c : Z) (r : jsstring) :
  (c =? 61) = false -> strip_padding (c :: r) = c :: strip_padding r.
Proof. intros H. cbn [strip_padding]. rewrite H. reflexivity. Qed.

Lemma sextets_cons (n : Z) (r : jsstring) (v : list Z) :
  0 <= n < 64 -> sextets r = Some v -> sextets (b64_char n :: r) = Some (n :: v).
Proof.
  intros Hn Hr. cbn [sextets]. destruct (sextet_facts Hn) as (_ & _ & ->).
  rewrite Hr. reflexivity.
Qed.

Lemma btoa_decodes (l : list Z) :
  Forall (fun x => 0 <= x < 256) l ->
  forallb (fun c => negb (is_ascii_whitespace c)) (btoa l) = true /\
  Z.of_nat (List.length (btoa l)) mod 4 = 0 /\
  exists v, sextets (strip_padding (btoa l)) = Some v /\ decode_sextets v = Some l.
Proof.
  induction l as [|a|a b|a b c r IH] using list_ind3; intros H.
  - repeat split. exists []. split; reflexivity.
  - inversion H as [|? ? Ha _]; subst.
    assert (S1 : 0 <= a / 4 < 64) by (Z.div_mod_to_equations; lia).
    assert (S2 : 0 <= a mod 4 * 16 < 64) by (Z.div_mod_to_equations; lia).
    destruct (sextet_facts S1) as (W1 & P1 & V1), (sextet_facts S2) as (W2 & P2 & V2).
    cbn [btoa forallb]. rewrite W1, W2. repeat split.
    exists [a / 4; a mod 4 * 16]. split.
    + rewrite !strip_padding_keep by assumption.
      cbn [strip_padding sextets]. rewrite V1, V2. reflexivity.
    + cbn [decode_sextets]. do 2 f_equal. Z.div_mod_to_equations. lia.
  - inversion H as [|? ? Ha H']; subst. inversion H' as [|? ? Hb _]; subst.
    assert (S1 : 0 <= a / 4 < 64) by (Z.div_mod_to_equations; lia).
    assert (S2 : 0 <= a mod 4 * 16 + b / 16 < 64) by (Z.div_mod_to_equations; lia).
    assert (S3 : 0 <= b mod 16 * 4 < 64) by (Z.div_mod_to_equations; lia).
    destruct (sextet_facts S1) as (W1 & P1 & V1), (sextet_facts S2) as (W2 & P2 & V2),
             (sextet_facts S3) as (W3 & P3 & V3).
    cbn [btoa forallb]. rewrite W1, W2, W3. repeat split.
    exists [a / 4; a mod 4 * 16 + b / 16; b mod 16 * 4]. split.
    + rewrite !strip_padding_keep by assumption.
      cbn [strip_padding sextets]. rewrite V1, V2, V3. reflexivity.
    + cbn [decode_sextets]. do 2 f_equal; [|f_equal]; Z.div_mod_to_equations; lia.
  - inversion H as [|? ? Ha H']; subst. inversion H' as [|? ? Hb H'']; subst.
    inversion H'' as [|? ? Hc Hr]; subst.
    destruct (IH Hr) as (Hw & Hlen & v & Hv & Hd).
    assert (S1 : 0 <= a / 4 < 64) by (Z.div_mod_to_equations; lia).
    assert (S2 : 0 <= a mod 4 * 16 + b / 16 < 64) by (Z.div_mod_to_equations; lia).
    assert (S3 : 0 <= b mod 16 * 4 + c / 64 < 64) by (Z.div_mod_to_equations; lia).
    assert (S4 : 0 <= c mod 64 < 64) by (Z.div_mod_to_equations; lia).
    destruct (sextet_facts S1) as (W1 & P1 & V1), (sextet_facts S2) as (W2 & P2 & V2),
             (sextet_facts S3) as (W3 & P3 & V3), (sextet_facts S4) as (W4 & P4 & V4).
    change (btoa (a :: b :: c :: r))
      with (b64_char (a / 4) :: b64_char (a mod 4 * 16 + b / 16)
              :: b64_char (b mod 16 * 4 + c / 64) :: b64_char (c mod 64) :: btoa r).
    split; [|split].
    + cbn [forallb]. rewrite W1, W2, W3, W4. exact Hw.
    + cbn [List.length]. rewrite !Nat2Z.inj_succ.
      replace (Z.succ (Z.succ (Z.succ (Z.succ (Z.of_nat (List.length (btoa r)))))))
        with (Z.of_nat (List.length (btoa r)) + 1 * 4) by lia.
      rewrite Z.mod_add by lia. exact Hlen.
    + exists (a / 4 :: a mod 4 * 16 + b / 16 :: b mod 16 * 4 + c / 64 :: c mod 64 :: v).
      split.
      * rewrite !strip_padding_keep by assumption.
        repeat (apply sextets_cons; [assumption|]). exact Hv.
      * change (decode_sextets (a / 4 :: a mod 4 * 16 + b / 16
                                  :: b mod 16 * 4 + c / 64 :: c mod 64 :: v))
          with (match decode_sextets v with
                | Some t =>
                    Some (a / 4 * 4 + (a mod 4 * 16 + b / 16) / 16
                          :: (a mod 4 * 16 + b / 16) mod 16 * 16 + (b mod 16 * 4 + c / 64) / 4
                          :: (b mod 16 * 4 + c / 64) mod 4 * 64 + c mod 64 :: t)
                | None => None
                end).
        rewrite Hd. do 2 f_equal; [|f_equal; [|f_equal]]; Z.div_mod_to_equations; lia.
Qed.

Lemma atob_btoa (l : list Z) :
  Forall (fun x => 0 <= x < 256) l -> atob (btoa l) = Some l.
Proof.
  intros H. destruct (btoa_decodes H) as (Hw & Hlen & v & Hv & Hd).
  unfold atob. rewrite (forallb_filter_id _ _ Hw). rewrite Hlen.
  change (0 =? 0) with true. cbv iota. rewrite Hv. exact Hd.
Qed.

Lemma bytes_in_range (buf : list byte) : Forall (fun x => 0 <= x < 256) (map u8 buf).
Proof.
  induction buf as [|b buf IH]; cbn [map]; constructor; [apply u8_range|exact IH].
Qed.

Lemma byte_of_Z_u8 (b : byte) : byte_of_Z (u8 b mod 256) = b.
Proof.
  pose proof (u8_range b). rewrite Z.mod_small by assumption.
  unfold byte_of_Z, u8. rewrite N2Z.id, Byte.of_to_N. reflexivity.
Qed.

Lemma binary_to_bytes_u8 (buf : list byte) : binary_to_bytes (map u8 buf) = buf.
Proof.
  unfold binary_to_bytes. rewrite map_map.
  induction buf as [|b buf IH]; cbn [map]; [reflexivity|].
  rewrite byte_of_Z_u8, IH. reflexivity.
Qed.

(** X19: the buffer the extractor parses is, byte for byte, the file the
    main process read: the base64 text the [read-file] handler returns
    decodes under [atob] to the binary string of the file, and the loop of
    [addSong] turns that string back into the bytes.  In the same way the
    cover text of a record decodes to the bytes that were encoded. *)
Theorem read_file_roundtrip (buf : ArrayBuffer) :
  decode_file_data (read_file_data buf) = Some buf /\
  atob (arrayBufferToBase64 buf) = Some (map u8 buf).
Proof.
  assert (H : atob (btoa (map u8 buf)) = Some (map u8 buf))
    by (apply atob_btoa, bytes_in_range).
  split; [|exact H].
  unfold decode_file_data, read_file_data. rewrite H.
  rewrite binary_to_bytes_u8. reflexivity.
Qed.

(** ** Reading a buffer laid out piece by piece *)

Lemma getUint32_at (buf X Y : list byte) (n k : Z) :
  buf = X ++ be32 n ++ Y -> k = byteLength X -> 0 <= n < 4294967296 ->
  getUint32 buf k = Ret n.
Proof. intros -> -> H. apply getUint32_be32. exact H. Qed.

Lemma slice_at (buf X c Y : list byte) (b e : Z) :
  buf = X ++ c ++ Y -> b = byteLength X -> e = b + byteLength c ->
  slice buf b e = c.
Proof. intros -> -> ->. apply slice_middle. Qed.

Lemma bytes_from_at (buf X Y : list byte) (k : Z) :
  buf = X ++ Y -> k = byteLength X -> bytes_from buf k = Y.
Proof.
  intros -> ->. unfold bytes_from.
  pose proof (byteLength_nonneg X). pose proof (byteLength_nonneg Y).
  rewrite byteLength_app.
  replace (0 <=? byteLength X) with true by (symmetry; apply Z.leb_le; lia).
  replace (byteLength X <=? byteLength X + byteLength Y) with true
    by (symmetry; apply Z.leb_le; lia).
  cbn [andb]. unfold byteLength. rewrite Nat2Z.id.
  rewrite skipn_app, skipn_all, Nat.sub_diag. reflexivity.
Qed.

Lemma readString_at (buf X m Y : list byte) (k n : Z) :
  buf = X ++ m ++ Y -> k = byteLength X -> n = byteLength m ->
  readString buf k n = Ret (trim (map u8 (until_nul m))).
Proof.
  intros Hb Hk Hn. destruct (Z.ltb_spec 0 n) as [Hpos|Hzero].
  - rewrite readString_window by exact Hpos.
    rewrite (@bytes_from_at buf X (m ++ Y) k Hb Hk).
    assert (Hw : firstn (Z.to_nat n) (m ++ Y) = m).
    { subst n. unfold byteLength. rewrite Nat2Z.id.
      rewrite firstn_app, firstn_all, Nat.sub_diag. cbn [firstn]. apply app_nil_r. }
    rewrite Hw.
    replace (n <=? byteLength m) with true by (symmetry; apply Z.leb_le; lia).
    rewrite orb_true_r. reflexivity.
  - assert (m = []).
    { destruct m; [reflexivity|]. unfold byteLength in Hn. cbn [List.length] in Hn. lia. }
    subst m. unfold readString.
    replace (n <=? 0) with true by (symmetry; apply Z.leb_le; lia). reflexivity.
Qed.

(** The picture reader on a block laid out as the format has it. *)
Lemma parseFLACPicture_layout (pre post : list byte) (mimeType description : string)
    (image : list byte) (size : Z) :
  byteLength (ascii_bytes mimeType) < 4294967296 ->
  byteLength (ascii_bytes description) < 4294967296 ->
  byteLength image < 4294967296 ->
  parseFLACPicture (pre ++ flac_picture mimeType description image ++ post)
    (byteLength pre) size
  = Ret (Some {| data := arrayBufferToBase64 image;
                 mime := or_str (Some (trim (map u8 (until_nul (ascii_bytes mimeType)))))
                                (lit "image/jpeg") |}).
Proof.
  intros Hm Hd Hi.
  set (m := ascii_bytes mimeType) in *. set (d := ascii_bytes description) in *.
  pose proof (byteLength_nonneg pre) as Np. pose proof (byteLength_nonneg m) as Nm.
  pose proof (byteLength_nonneg d) as Nd. pose proof (byteLength_nonneg image) as Ni.
  set (buf := pre ++ flac_picture mimeType description image ++ post).
  set (z := be32 0 ++ be32 0 ++ be32 0 ++ be32 0).
  assert (Hz : byteLength z = 16) by reflexivity.
  assert (E : buf = pre ++ be32 3 ++ be32 (byteLength m) ++ m ++ be32 (byteLength d) ++ d
                     ++ z ++ be32 (byteLength image) ++ image ++ post).
  { subst buf z. unfold flac_picture. fold m d. rewrite <- !app_assoc. reflexivity. }
  unfold parseFLACPicture.
  rewrite (@getUint32_at buf (pre ++ be32 3)
             (m ++ be32 (byteLength d) ++ d ++ z ++ be32 (byteLength image) ++ image ++ post)
             (byteLength m) (byteLength pre + 4));
    [| rewrite E, <- !app_assoc; reflexivity
     | rewrite byteLength_app, byteLength_be32; reflexivity | lia].
  cbn [bind].
  rewrite (@readString_at buf (pre ++ be32 3 ++ be32 (byteLength m)) m
             (be32 (byteLength d) ++ d ++ z ++ be32 (byteLength image) ++ image ++ post)
             (byteLength pre + 4 + 4) (byteLength m));
    [| rewrite E, <- !app_assoc; reflexivity
     | rewrite !byteLength_app, !byteLength_be32; lia | reflexivity].
  cbn [bind].
  rewrite (@getUint32_at buf (pre ++ be32 3 ++ be32 (byteLength m) ++ m)
             (d ++ z ++ be32 (byteLength image) ++ image ++ post)
             (byteLength d) (byteLength pre + 4 + 4 + byteLength m));
    [| rewrite E, <- !app_assoc; reflexivity
     | rewrite !byteLength_app, !byteLength_be32; lia | lia].
  cbn [bind].
  rewrite (@getUint32_at buf
             (pre ++ be32 3 ++ be32 (byteLength m) ++ m ++ be32 (byteLength d) ++ d ++ z)
             (image ++ post)
             (byteLength image)
             (byteLength pre + 4 + 4 + byteLength m + (4 + byteLength d) + 16));
    [| rewrite E, <- !app_assoc; reflexivity
     | rewrite !byteLength_app, !byteLength_be32, Hz; lia | lia].
  cbn [bind].
  rewrite (@slice_at buf
             (pre ++ be32 3 ++ be32 (byteLength m) ++ m ++ be32 (byteLength d) ++ d ++ z
                  ++ be32 (byteLength image))
             image post);
    [reflexivity
    | rewrite E, <- !app_assoc; reflexivity
    | rewrite !byteLength_app, !byteLength_be32, Hz; lia
    | reflexivity].
Qed.

(** X20: on a picture block laid out as the format has it, wherever it is
    in the file, [parseFLACPicture] returns the base64 text of exactly the
    image bytes, and as MIME type the Latin-1 reading of the MIME field up to
    its first zero byte, trimmed, or [image/jpeg] when that is empty.  The
    size argument plays no part: the image length is the block's own
    field. *)
Theorem parseFLACPicture_block (pre post : list byte) (mimeType description : string)
    (image : list byte) (size : Z) :
  byteLength (ascii_bytes mimeType) < 4294967296 ->
  byteLength (ascii_bytes description) < 4294967296 ->
  byteLength image < 4294967296 ->
  parseFLACPicture (pre ++ flac_picture mimeType description image ++ post)
    (byteLength pre) size
  = Ret (Some {| data := arrayBufferToBase64 image;
                 mime := or_str (Some (trim (map u8 (until_nul (ascii_bytes mimeType)))))
                                (lit "image/jpeg") |}).
Proof. apply parseFLACPicture_layout. Qed.

Lemma parseFLACPicture_block_witness :
  parseFLACPicture picture_flac 8 0
  = Ret (Some {| data := lit "/9j/4AAQSkZJRg=="; mime := lit "image/jpeg" |}).
Proof.
  refine (@parseFLACPicture_block (ascii_bytes "fLaC" ++ [x86; x00; x00; x34]) []
            "image/jpeg" "" jpeg_stub 0 _ _ _); vm_compute; reflexivity.
Defined.

(** ** A FLAC file with a comment block *)

Lemma flac_blockSize_value (b1 b2 b3 : Z) :
  0 <= b1 < 256 -> 0 <= b2 < 256 -> 0 <= b3 < 256 ->
  js_or (js_or (js_shl b1 16) (js_shl b2 8)) b3 = b1 * 65536 + b2 * 256 + b3.
Proof.
  intros H1 H2 H3.
  rewrite !js_shl_byte by lia.
  assert (L1 : Z.lor (b1 * 2 ^ 16) (b2 * 2 ^ 8) = b1 * 2 ^ 16 + b2 * 2 ^ 8)
    by (apply lor_high_low; lia).
  rewrite (@js_or_small 24 (b1 * 2 ^ 16) (b2 * 2 ^ 8)) by lia.
  rewrite L1.
  rewrite (@js_or_small 24 (b1 * 2 ^ 16 + b2 * 2 ^ 8) b3) by lia.
  replace (b1 * 2 ^ 16 + b2 * 2 ^ 8) with ((b1 * 256 + b2) * 2 ^ 8) by lia.
  rewrite lor_high_low by lia. lia.
Qed.

Lemma be24_value (n : Z) :
  0 <= n < 16777216 ->
  (n / 65536 mod 256) * 65536 + (n / 256 mod 256) * 256 + n mod 256 = n.
Proof. intros H. Z.div_mod_to_equations. lia. Qed.

(** A length below 256 stored least significant byte first, read the way
    the parser reads it. *)
Lemma getUint32_le32_small (pre rest : list byte) (n : Z) :
  0 <= n < 256 ->
  getUint32 (pre ++ le32 n ++ rest) (byteLength pre) = Ret (n * 16777216).
Proof.
  intros H. unfold getUint32.
  pose proof (byteLength_nonneg pre). pose proof (byteLength_nonneg rest).
  rewrite !byteLength_app. change (byteLength (le32 n)) with 4.
  destruct (0 <=? byteLength pre) eqn:E1; [|lia].
  destruct (byteLength pre + 4 <=? byteLength pre + (4 + byteLength rest)) eqn:E2; [|lia].
  cbn [andb]. f_equal.
  rewrite <- (Z.add_0_r (byteLength pre)) at 1.
  rewrite !byte_at_app_r by lia.
  unfold le32, be32. cbn [map rev app].
  match goal with |- context [byte_at (?a :: ?b :: ?c :: ?d :: ?r) 0] =>
    destruct (byte_at_four a b c d r) as (-> & -> & -> & ->) end.
  rewrite !u8_byte_of_Z by (apply Z.mod_pos_bound; lia).
  Z.div_mod_to_equations. lia.
Qed.

(** X21: a file named [.flac] of 16 MiB at most that holds the signature,
    one last metadata block of type 4 with a comment block as FLAC has it,
    its lengths least significant byte first and its vendor string from 1 to
    255 bytes long, and then anything, always gets the default record,
    whatever its comments say: the vendor length is read most significant
    byte first, as 2^24 times what it is, the comment count is then looked
    for past the end of the file, and the reader returns three nulls. *)
Theorem flac_comment_file (vendor : list byte) (comments : list (list byte))
    (audio : list byte) (path : jsstring) (fuel : nat) :
  toLowerCase (getFileExtension path) = lit ".flac" ->
  1 <= byteLength vendor < 256 ->
  let buf := flac_file (flac_block true 4 (vorbis_block vendor comments) ++ audio) in
  byteLength buf <= 16777216 ->
  (1 <= fuel)%nat ->
  parseMetadata fuel buf path = Ret (defaultMetadata path).
Proof.
  intros Hext Hv buf0 Hmax Hf.
  set (d := defaultMetadata path).
  set (block := vorbis_block vendor comments) in *.
  set (L := byteLength block) in *.
  pose proof (byteLength_nonneg block) as HL0. fold L in HL0.
  set (hdr := ascii_bytes "fLaC" ++ byte_of_Z (128 + 4) :: be24 L).
  set (tail := vendor ++ le32 (Z.of_nat (List.length comments))
               ++ flat_map vorbis_entry comments).
  assert (Ebuf : buf0 = hdr ++ le32 (byteLength vendor) ++ tail ++ audio).
  { subst buf0 hdr tail block. unfold flac_file, flac_block, vorbis_block. fold L.
    rewrite <- !app_assoc. cbn [app]. rewrite <- !app_assoc. reflexivity. }
  assert (Hhdr : byteLength hdr = 8) by reflexivity.
  pose proof (byteLength_nonneg audio) as Ha0.
  pose proof (byteLength_nonneg tail) as Ht0.
  assert (Hlen : byteLength buf0 = 12 + byteLength tail + byteLength audio).
  { rewrite Ebuf, !byteLength_app, Hhdr. change (byteLength (le32 (byteLength vendor))) with 4.
    lia. }
  assert (HL : L = 4 + byteLength tail).
  { subst L block tail. unfold vorbis_block. rewrite !byteLength_app.
    change (byteLength (le32 (byteLength vendor))) with 4. lia. }
  clearbody buf0. subst buf0.
  set (buf := hdr ++ le32 (byteLength vendor) ++ tail ++ audio) in *.
  assert (B0 : byte_at buf 0 = 102) by reflexivity.
  assert (B1 : byte_at buf 1 = 76) by reflexivity.
  assert (B2 : byte_at buf 2 = 97) by reflexivity.
  assert (B3 : byte_at buf 3 = 67) by reflexivity.
  assert (B4 : byte_at buf 4 = 132) by reflexivity.
  assert (Hvendor : getUint32 buf (4 + 4) = Ret (byteLength vendor * 16777216)).
  { change (4 + 4) with (byteLength hdr). apply getUint32_le32_small. lia. }
  assert (Hcount : getUint32 buf (4 + 4 + (4 + byteLength vendor * 16777216))
                   = Throw RangeError).
  { unfold getUint32.
    replace ((0 <=? 4 + 4 + (4 + byteLength vendor * 16777216))
             && (4 + 4 + (4 + byteLength vendor * 16777216) + 4 <=? byteLength buf))
      with false; [reflexivity|].
    symmetry. apply andb_false_iff. right. apply Z.leb_gt. lia. }
  assert (Hvorbis : forall size, parseVorbisComments fuel buf (4 + 4) size = Ret vorbis_empty).
  { intros size. unfold parseVorbisComments. rewrite Hvendor. cbn [bind].
    rewrite Hcount. reflexivity. }
  unfold parseMetadata. rewrite Hext.
  change (jsstring_eqb (lit ".flac") (lit ".mp3")) with false.
  change (jsstring_eqb (lit ".flac") (lit ".flac")) with true.
  cbv iota. fold d.
  unfold parseFLAC.
  rewrite (@getUint8_in buf 0), (@getUint8_in buf 1), (@getUint8_in buf 2),
    (@getUint8_in buf 3) by lia.
  cbn [bind]. rewrite B0, B1, B2, B3.
  change (jsstring_eqb [102; 76; 97; 67] (lit "fLaC")) with true. cbn [negb].
  destruct fuel as [|fuel']; [lia|].
  cbn [while_loop]. unfold flac_cond at 1. cbn [fst].
  replace (4 <? byteLength buf) with true by (symmetry; apply Z.ltb_lt; lia).
  unfold flac_body at 1.
  rewrite (@getUint8_in buf 4), (@getUint8_in buf (4 + 1)), (@getUint8_in buf (4 + 2)),
    (@getUint8_in buf (4 + 3)) by lia.
  cbn [bind]. rewrite B4.
  change (js_and 132 127 =? 0) with false. change (js_and 132 127 =? 4) with true.
  change (js_and 132 128 =? 0) with false. cbv iota.
  rewrite Hvorbis. reflexivity.
Qed.

Lemma flac_comment_file_witness :
  parseMetadata 1
    (flac_file (flac_block true 4 (vorbis_block (ascii_bytes "vendor") two_titles)
                ++ ascii_bytes "frames"))
    (lit "x/Name.flac")
  = Ret (defaultMetadata (lit "x/Name.flac")).
Proof.
  apply (@flac_comment_file (ascii_bytes "vendor") two_titles (ascii_bytes "frames")
           (lit "x/Name.flac") 1).
  - vm_compute. reflexivity.
  - vm_compute. split; [discriminate|reflexivity].
  - vm_compute. discriminate.
  - lia.
Defined.

(** ** An M4A file with a cover *)

Lemma while_loop_continue {S : Type} (cond : S -> bool) (body : S -> outcome (ctl S))
    (fuel : nat) (s s' : S) :
  cond s = true -> body s = Ret (Continue s') ->
  while_loop cond body (Datatypes.S fuel) s = while_loop cond body fuel s'.
Proof. intros Hc Hb. cbn [while_loop]. rewrite Hc, Hb. reflexivity. Qed.

Lemma while_loop_stop {S : Type} (cond : S -> bool) (body : S -> outcome (ctl S))
    (fuel : nat) (s : S) :
  cond s = false -> while_loop cond body (Datatypes.S fuel) s = Ret s.
Proof. intros Hc. cbn [while_loop]. rewrite Hc. reflexivity. Qed.

(** The record of a file that is one [ilst] atom with one [covr] atom. *)
Lemma m4a_cover_record (first : byte) (rest : list byte) (path : jsstring) (fuel : nat) :
  toLowerCase (getFileExtension path) = lit ".m4a" ->
  byteLength (first :: rest) < 4294967296 - 16 ->
  (3 <= fuel)%nat ->
  let image := first :: rest in
  let d := defaultMetadata path in
  parseMetadata fuel (mp4_atom "ilst" (mp4_atom "covr" image)) path
  = Ret {| title := title d;
           artist := artist d;
           album := album d;
           duration := num_of_Z 0;
           cover := Some (arrayBufferToBase64 image);
           coverType := Some (if u8 first =? 137 then lit "image/png"
                              else lit "image/jpeg");
           format := format d;
           filePath := path |}.
Proof.
  intros Hext Hn Hf image d.
  set (n := byteLength image) in *.
  assert (Hn' : n < 4294967296 - 16) by exact Hn.
  pose proof (byteLength_nonneg rest) as Hr0.
  assert (Hn1 : n = 1 + byteLength rest).
  { subst n image. unfold byteLength. cbn [List.length]. lia. }
  set (buf := mp4_atom "ilst" (mp4_atom "covr" image)).
  set (hdr := be32 (16 + n) ++ ascii_bytes "ilst" ++ be32 (8 + n) ++ ascii_bytes "covr").
  assert (Ebuf : buf = hdr ++ image ++ []).
  { subst buf hdr. unfold mp4_atom. rewrite !byteLength_app, !byteLength_be32.
    fold n. change (byteLength (ascii_bytes "covr")) with 4.
    replace (8 + (4 + (4 + n))) with (16 + n) by lia.
    rewrite app_nil_r, <- !app_assoc. reflexivity. }
  assert (Hhdr : byteLength hdr = 16) by reflexivity.
  assert (Hlen : byteLength buf = 16 + n).
  { rewrite Ebuf, !byteLength_app, Hhdr. fold n. change (byteLength []) with 0. lia. }
  assert (S0 : getUint32 buf 0 = Ret (16 + n)).
  { apply (@getUint32_at buf [] (ascii_bytes "ilst" ++ be32 (8 + n) ++ ascii_bytes "covr"
                                   ++ image ++ [])); [|reflexivity|lia].
    rewrite Ebuf. subst hdr. rewrite <- !app_assoc. reflexivity. }
  assert (S8 : getUint32 buf 8 = Ret (8 + n)).
  { apply (@getUint32_at buf (be32 (16 + n) ++ ascii_bytes "ilst")
             (ascii_bytes "covr" ++ image ++ [])); [|reflexivity|lia].
    rewrite Ebuf. subst hdr. rewrite <- !app_assoc. reflexivity. }
  assert (T0 : atom_type buf 0 = Ret (lit "ilst")).
  { unfold atom_type.
    rewrite (@getUint8_in buf (0 + 4)), (@getUint8_in buf (0 + 5)),
      (@getUint8_in buf (0 + 6)), (@getUint8_in buf (0 + 7)) by lia.
    reflexivity. }
  assert (T8 : atom_type buf 8 = Ret (lit "covr")).
  { unfold atom_type.
    rewrite (@getUint8_in buf (8 + 4)), (@getUint8_in buf (8 + 5)),
      (@getUint8_in buf (8 + 6)), (@getUint8_in buf (8 + 7)) by lia.
    reflexivity. }
  assert (F16 : getUint8 buf (8 + 8) = Ret (u8 first)).
  { rewrite (@getUint8_in buf (8 + 8)) by lia. reflexivity. }
  assert (Simg : slice buf (8 + 8) (8 + 8 + (8 + n - 8)) = image).
  { apply (@slice_at buf hdr image []); [exact Ebuf|reflexivity|fold n; lia]. }
  set (found := MkM4AResult None None None (num_of_Z 0)
                  (Some (arrayBufferToBase64 image))
                  (Some (if u8 first =? 137 then lit "image/png" else lit "image/jpeg"))).
  assert (Hbody : ilst_body buf (8, m4a_empty) = Ret (Continue (8 + (8 + n), found))).
  { unfold ilst_body. rewrite S8, T8. cbn [bind].
    change (jsstring_eqb (lit "covr") (lit "covr")) with true. cbv iota.
    rewrite F16. cbn [bind]. rewrite Simg.
    unfold atom_advance. replace (8 + n =? 0) with false by (symmetry; apply Z.eqb_neq; lia).
    reflexivity. }
  assert (Hilst : forall f, m4a_parseMetadata (S (S f)) buf 0 m4a_empty
                            = Ret (8 + (8 + n), found)).
  { intros f. unfold m4a_parseMetadata. rewrite S0. cbn [bind].
    rewrite (@while_loop_continue _ (atom_cond (0 + (16 + n))) (ilst_body buf) (S f)
               (0 + 8, m4a_empty) (8 + (8 + n), found));
      [| unfold atom_cond; cbn [fst]; apply Z.ltb_lt; lia | exact Hbody].
    apply while_loop_stop. unfold atom_cond. cbn [fst]. apply Z.ltb_ge. lia. }
  assert (Hparse : forall f, parse (S (S (S f))) buf 0 = Ret found).
  { intros f.
    change (parse (S (S (S f))) buf 0)
      with (bind (while_loop (parse_cond buf)
                    (parse_body (parse (S (S f)) buf) (S (S f)) buf) (S (S (S f)))
                    (0, m4a_empty))
                 (fun s => Ret (snd s))).
    assert (Hb : parse_body (parse (S (S f)) buf) (S (S f)) buf (0, m4a_empty)
                 = Ret (Continue (8 + (8 + n) + (16 + n), found))).
    { unfold parse_body. rewrite S0, T0. cbn [bind].
      change (jsstring_eqb (lit "ilst") (lit "moov")) with false.
      change (jsstring_eqb (lit "ilst") (lit "trak")) with false.
      change (jsstring_eqb (lit "ilst") (lit "ilst")) with true. cbv iota.
      rewrite Hilst. cbn [bind]. unfold atom_advance.
      replace (16 + n =? 0) with false by (symmetry; apply Z.eqb_neq; lia).
      reflexivity. }
    rewrite (@while_loop_continue _ (parse_cond buf)
               (parse_body (parse (S (S f)) buf) (S (S f)) buf) (S (S f))
               (0, m4a_empty) (8 + (8 + n) + (16 + n), found));
      [| unfold parse_cond; cbn [fst]; apply Z.ltb_lt; lia | exact Hb].
    rewrite while_loop_stop; [reflexivity|].
    unfold parse_cond. cbn [fst]. apply Z.ltb_ge. lia. }
  unfold parseMetadata. rewrite Hext.
  change (jsstring_eqb (lit ".m4a") (lit ".mp3")) with false.
  change (jsstring_eqb (lit ".m4a") (lit ".flac")) with false.
  change (jsstring_eqb (lit ".m4a") (lit ".m4a")) with true.
  cbv iota. fold buf. fold d.
  destruct fuel as [|[|[|k]]]; try lia.
  unfold parseM4A. rewrite Hparse. reflexivity.
Qed.

(** X22: a file named [.m4a] that is one [ilst] atom holding one [covr]
    atom with a picture that is not empty gets the base64 text of the picture
    as cover, and as MIME type [image/png] when the picture starts with the
    byte 137 and [image/jpeg] otherwise; the text fields stay the defaults
    and the duration 0. *)
Theorem m4a_cover_file (first : byte) (rest : list byte) (path : jsstring) (fuel : nat) :
  toLowerCase (getFileExtension path) = lit ".m4a" ->
  byteLength (first :: rest) < 4294967296 - 16 ->
  (3 <= fuel)%nat ->
  let image := first :: rest in
  let d := defaultMetadata path in
  parseMetadata fuel (mp4_atom "ilst" (mp4_atom "covr" image)) path
  = Ret {| title := title d;
           artist := artist d;
           album := album d;
           duration := num_of_Z 0;
           cover := Some (arrayBufferToBase64 image);
           coverType := Some (if u8 first =? 137 then lit "image/png"
                              else lit "image/jpeg");
           format := format d;
           filePath := path |}.
Proof. apply m4a_cover_record. Qed.

Lemma m4a_cover_file_witness :
  exists r,
    parseMetadata 3 (mp4_atom "ilst" (mp4_atom "covr" [x89; x50; x4e; x47])) (lit "a.m4a")
    = Ret r /\
    cover r = Some (lit "iVBORw==") /\ coverType r = Some (lit "image/png").
Proof.
  eexists. split.
  - apply (@m4a_cover_file x89 [x50; x4e; x47] (lit "a.m4a") 3).
    + vm_compute. reflexivity.
    + vm_compute. reflexivity.
    + lia.
  - vm_compute. split; reflexivity.
Defined.

(** ** A WAV file as encoders write it *)

Lemma getUint8_outcome (buf : ArrayBuffer) (off : Z) :
  getUint8 buf off = Ret (byte_at buf off) \/ getUint8 buf off = Throw RangeError.
Proof. unfold getUint8. destruct (_ && _); auto. Qed.

Lemma getUint16_outcome (buf : ArrayBuffer) (off : Z) :
  (exists v, getUint16 buf off = Ret v) \/ getUint16 buf off = Throw RangeError.
Proof. unfold getUint16. destruct (_ && _); eauto. Qed.

Lemma getUint32_outcome (buf : ArrayBuffer) (off : Z) :
  (exists v, getUint32 buf off = Ret v) \/ getUint32 buf off = Throw RangeError.
Proof. unfold getUint32. destruct (_ && _); eauto. Qed.

(** X23: a file named [.wav] that starts the way encoders write it, with
    the RIFF header and a [fmt ] chunk whose size 16 is stored least
    significant byte first, and that is no longer than 256 MiB, always gets
    the default record: the size is read as 268435456, the search for the
    [data] chunk starts past the end of the file, and so does the next round
    of the chunk loop. *)
Theorem wav_pcm_file_defaults (riffSize : Z) (rest : list byte) (path : jsstring)
    (fuel : nat) :
  toLowerCase (getFileExtension path) = lit ".wav" ->
  let buf := ascii_bytes "RIFF" ++ le32 riffSize ++ ascii_bytes "WAVE"
             ++ ascii_bytes "fmt " ++ le32 16 ++ rest in
  byteLength buf <= 268435456 ->
  (2 <= fuel)%nat ->
  parseMetadata fuel buf path = Ret (defaultMetadata path).
Proof.
  intros Hext buf Hlen Hf.
  set (d := defaultMetadata path).
  pose proof (byteLength_nonneg rest) as Hr0.
  assert (Hbuf : byteLength buf = 20 + byteLength rest).
  { subst buf. rewrite !byteLength_app.
    change (byteLength (ascii_bytes "RIFF")) with 4.
    change (byteLength (le32 riffSize)) with 4.
    change (byteLength (ascii_bytes "WAVE")) with 4.
    change (byteLength (ascii_bytes "fmt ")) with 4.
    change (byteLength (le32 16)) with 4. lia. }
  assert (Hsize : getUint32 buf (12 + 4) = Ret 268435456).
  { unfold getUint32.
    replace ((0 <=? 12 + 4) && (12 + 4 + 4 <=? byteLength buf)) with true
      by (symmetry; apply andb_true_iff; split; apply Z.leb_le; lia).
    reflexivity. }
  assert (Hfind : forall f, findWAVDataSize (S f) buf (12 + 8 + 268435456) (byteLength buf)
                            = Ret 0).
  { intros f. unfold findWAVDataSize. rewrite while_loop_stop; [reflexivity|].
    unfold wavdata_cond. cbn [fst]. apply Z.ltb_ge. lia. }
  assert (Hbody : forall f,
             wav_body (S f) buf (12, d)
             = Ret (Continue (wav_next_offset 12 268435456, d))
             \/ exists e, wav_body (S f) buf (12, d) = Throw e).
  { intros f. unfold wav_body.
    rewrite (@getUint8_in buf 12), (@getUint8_in buf (12 + 1)),
      (@getUint8_in buf (12 + 2)), (@getUint8_in buf (12 + 3)) by lia.
    cbn [bind]. rewrite Hsize. cbn [bind].
    change (jsstring_eqb [byte_at buf 12; byte_at buf (12 + 1); byte_at buf (12 + 2);
                          byte_at buf (12 + 3)] (lit "fmt ")) with true.
    cbv iota.
    destruct (getUint16_outcome buf (12 + 10)) as [(v1 & ->)| ->]; cbn [bind]; [|eauto].
    destruct (getUint32_outcome buf (12 + 12)) as [(v2 & ->)| ->]; cbn [bind]; [|eauto].
    destruct (getUint32_outcome buf (12 + 16)) as [(v3 & ->)| ->]; cbn [bind]; [|eauto].
    destruct (getUint16_outcome buf (12 + 22)) as [(v4 & ->)| ->]; cbn [bind]; [|eauto].
    rewrite Hfind. cbn [bind]. change (0 >? 0) with false. cbn [andb bind]. left. reflexivity. }
  assert (Hwav : parseWAV fuel buf d = Ret d \/ exists e, parseWAV fuel buf d = Throw e).
  { unfold parseWAV.
    rewrite (@getUint8_in buf 0), (@getUint8_in buf 1), (@getUint8_in buf 2) by lia.
    cbn [bind].
    change (jsstring_eqb [byte_at buf 0; byte_at buf 1; byte_at buf 2] (lit "RIF")) with true.
    cbn [negb].
    rewrite (@getUint8_in buf 8), (@getUint8_in buf 9), (@getUint8_in buf 10),
      (@getUint8_in buf 11) by lia.
    cbn [bind].
    change (jsstring_eqb [byte_at buf 8; byte_at buf 9; byte_at buf 10; byte_at buf 11]
              (lit "WAVE")) with true.
    cbn [negb].
    destruct fuel as [|[|f]]; try lia.
    destruct (wav_cond buf (12, d)) eqn:Hc.
    - destruct (Hbody (S f)) as [Hb|(e & Hb)].
      + rewrite (@while_loop_continue _ (wav_cond buf) (wav_body (S (S f)) buf) (S f)
                   (12, d) (wav_next_offset 12 268435456, d) Hc Hb).
        rewrite while_loop_stop; [left; reflexivity|].
        unfold wav_cond. cbn [fst]. apply Z.ltb_ge.
        pose proof (wav_next_offset_ge 12 268435456). lia.
      + right. exists e. cbn [while_loop]. rewrite Hc, Hb. reflexivity.
    - rewrite while_loop_stop by exact Hc. left. reflexivity. }
  unfold parseMetadata. rewrite Hext.
  change (jsstring_eqb (lit ".wav") (lit ".mp3")) with false.
  change (jsstring_eqb (lit ".wav") (lit ".flac")) with false.
  change (jsstring_eqb (lit ".wav") (lit ".m4a")) with false.
  change (jsstring_eqb (lit ".wav") (lit ".wav")) with true.
  cbv iota. fold d.
  destruct Hwav as [-> | (e & ->)]; reflexivity.
Qed.

Lemma wav_pcm_file_defaults_witness :
  parseMetadata 2
    (wav_file (riff_chunk "fmt " (wav_fmt 2 44100 176400 4 16) ++ data_chunk))
    (lit "a.wav")
  = Ret (defaultMetadata (lit "a.wav")).
Proof.
  apply (@wav_pcm_file_defaults 40 (wav_fmt 2 44100 176400 4 16 ++ data_chunk)
           (lit "a.wav") 2).
  - vm_compute. reflexivity.
  - vm_compute. discriminate.
  - lia.
Defined.

(** ** An MP3 file with a title frame *)

Lemma syncsafe32_value (n : Z) :
  0 <= n < 268435456 ->
  (n / 2097152 mod 128) * 2 ^ 21 + (n / 16384 mod 128) * 2 ^ 14
  + (n / 128 mod 128) * 2 ^ 7 + n mod 128 = n.
Proof. intros H. Z.div_mod_to_equations. lia. Qed.

Lemma removelast_length {A : Type} (l : list A) :
  l <> [] -> List.length (removelast l) = (List.length l - 1)%nat.
Proof.
  intros H. destruct (exists_last H) as (l' & a & ->).
  rewrite removelast_last, length_app. cbn [List.length]. lia.
Qed.

(** X24: a file named [.mp3] that holds an ID3v2.3 tag with one [TIT2]
    frame in encoding 0 and then the audio gets as title the text of the
    frame without its last byte, read as Latin-1 up to the first zero byte
    and trimmed, or the default when that is empty: the frame size is
    lowered by one for the encoding byte twice.  The duration is the number
    of audio bytes divided by 16000. *)
Theorem mp3_title_frame (text : string) (audio : list byte) (path : jsstring)
    (fuel : nat) :
  toLowerCase (getFileExtension path) = lit ".mp3" ->
  byteLength (ascii_bytes text) < 268435456 - 11 ->
  (2 <= fuel)%nat ->
  let d := defaultMetadata path in
  parseMetadata fuel (id3_tag (id3_text_frame "TIT2" text) ++ audio) path
  = Ret {| title := or_str (Some (trim (map u8 (until_nul (removelast (ascii_bytes text))))))
                           (title d);
           artist := artist d;
           album := album d;
           duration := num_div (byteLength audio) 16000;
           cover := None;
           coverType := None;
           format := format d;
           filePath := path |}.
Proof.
  intros Hext Ht Hf d.
  set (t := ascii_bytes text) in *. set (lt := byteLength t) in *.
  pose proof (byteLength_nonneg t) as Ht0. fold lt in Ht0.
  pose proof (byteLength_nonneg audio) as Ha0.
  set (size := 11 + lt).
  set (buf := id3_tag (id3_text_frame "TIT2" text) ++ audio).
  set (hdr := ascii_bytes "ID3" ++ [x03; x00; x00] ++ syncsafe32 size).
  assert (Esize : byteLength (id3_text_frame "TIT2" text) = size).
  { unfold id3_text_frame, id3_frame. fold t.
    rewrite !byteLength_app, byteLength_be32.
    change (byteLength (ascii_bytes "TIT2")) with 4.
    change (byteLength [x00; x00]) with 2.
    replace (byteLength (x00 :: t)) with (1 + lt)
      by (subst lt; unfold byteLength; cbn [List.length]; lia).
    subst size. lia. }
  assert (Ebuf : buf = hdr ++ ascii_bytes "TIT2" ++ be32 (1 + lt) ++ [x00; x00; x00]
                       ++ t ++ audio).
  { subst buf hdr. unfold id3_tag. rewrite Esize.
    unfold id3_text_frame, id3_frame. fold t.
    replace (byteLength (x00 :: t)) with (1 + lt)
      by (subst lt; unfold byteLength; cbn [List.length]; lia).
    rewrite <- !app_assoc. reflexivity. }
  assert (Hhdr : byteLength hdr = 10) by reflexivity.
  assert (Hlen : byteLength buf = 21 + lt + byteLength audio).
  { rewrite Ebuf, !byteLength_app, Hhdr, byteLength_be32. fold lt.
    change (byteLength (ascii_bytes "TIT2")) with 4.
    change (byteLength [x00; x00; x00]) with 3. lia. }
  clearbody buf. subst buf. clear Esize.
  set (buf := hdr ++ ascii_bytes "TIT2" ++ be32 (1 + lt) ++ [x00; x00; x00] ++ t ++ audio)
    in *.
  assert (M : has_id3_magic buf = Ret true).
  { unfold has_id3_magic.
    rewrite (@getUint8_in buf 0), (@getUint8_in buf 1), (@getUint8_in buf 2) by lia.
    reflexivity. }
  assert (V : getUint8 buf 3 = Ret 3) by (rewrite (@getUint8_in buf 3) by lia; reflexivity).
  assert (Fl : getUint8 buf 5 = Ret 0) by (rewrite (@getUint8_in buf 5) by lia; reflexivity).
  assert (Sz : readSyncsafeInt buf 6 = Ret size).
  { rewrite (@readSyncsafeInt_in buf 6) by lia. f_equal.
    change (byte_at buf 6) with (u8 (byte_of_Z (size / 2097152 mod 128))).
    change (byte_at buf (6 + 1)) with (u8 (byte_of_Z (size / 16384 mod 128))).
    change (byte_at buf (6 + 2)) with (u8 (byte_of_Z (size / 128 mod 128))).
    change (byte_at buf (6 + 3)) with (u8 (byte_of_Z (size mod 128))).
    assert (0 <= size / 2097152 mod 128 < 128) by (apply Z.mod_pos_bound; lia).
    assert (0 <= size / 16384 mod 128 < 128) by (apply Z.mod_pos_bound; lia).
    assert (0 <= size / 128 mod 128 < 128) by (apply Z.mod_pos_bound; lia).
    assert (0 <= size mod 128 < 128) by (apply Z.mod_pos_bound; lia).
    rewrite !u8_byte_of_Z by lia.
    rewrite syncsafe_or_seven_bits by assumption.
    apply syncsafe32_value. subst size. lia. }
  set (T := trim (map u8 (until_nul (removelast t)))).
  assert (Htext : exists tf,
             readTextFrame buf (10 + 10) (1 + lt - 1) = Ret tf /\
             or_str tf (title d) = or_str (Some T) (title d)).
  { unfold readTextFrame. destruct (1 + lt - 1 <=? 1) eqn:C.
    - exists None. split; [reflexivity|]. apply Z.leb_le in C.
      assert (E : removelast t = []).
      { destruct t as [|b [|b' t']]; [reflexivity|reflexivity|].
        subst lt. unfold byteLength in C. cbn [List.length] in C. lia. }
      subst T. rewrite E. reflexivity.
    - apply Z.leb_gt in C. exists (Some T). split; [|reflexivity].
      rewrite (@getUint8_in buf (10 + 10)) by lia. cbn [bind].
      assert (Hne : t <> []).
      { intros E. subst lt. rewrite E in C. cbn in C. lia. }
      rewrite (@readString_at buf (hdr ++ ascii_bytes "TIT2" ++ be32 (1 + lt)
                                       ++ [x00; x00; x00])
                 (removelast t) ([last t x00] ++ audio)).
      + reflexivity.
      + subst buf. rewrite <- !app_assoc. do 4 f_equal.
        rewrite (app_removelast_last x00 Hne) at 1. rewrite <- app_assoc. reflexivity.
      + rewrite !byteLength_app, Hhdr, byteLength_be32. reflexivity.
      + unfold byteLength. rewrite (removelast_length Hne).
        subst lt. unfold byteLength in *.
        assert (t <> [] -> (0 < List.length t)%nat) by (destruct t; cbn; [congruence|lia]).
        lia. }
  destruct Htext as (tf & Htf & Hor).
  assert (Hsz : getUint32 buf (10 + 4) = Ret (1 + lt)).
  { apply (@getUint32_at buf (hdr ++ ascii_bytes "TIT2") ([x00; x00; x00] ++ t ++ audio));
      [|reflexivity|lia].
    subst buf. rewrite <- !app_assoc. reflexivity. }
  assert (Hbody : mp3_body buf 3 (10 + size) (10, d)
                  = Ret (Continue (10 + (10 + (1 + lt)), set_title d (or_str (Some T) (title d))))).
  { unfold mp3_body.
    rewrite (@getUint8_in buf 10), (@getUint8_in buf (10 + 1)), (@getUint8_in buf (10 + 2)),
      (@getUint8_in buf (10 + 3)) by lia.
    cbn [bind]. change (3 >=? 3) with true. cbv iota. rewrite Hsz. cbn [bind].
    replace ((1 + lt <=? 0) || (10 + (1 + lt) >? 10 + size)) with false.
    2:{ symmetry. apply orb_false_iff. split; [apply Z.leb_gt; lia|].
        rewrite Z.gtb_ltb. apply Z.ltb_ge. subst size. lia. }
    change (jsstring_eqb [byte_at buf 10; byte_at buf (10 + 1); byte_at buf (10 + 2);
                          byte_at buf (10 + 3)] (lit "TIT2")) with true.
    cbv iota. change (frame_header_size 3) with 10.
    rewrite Htf. cbn [bind]. rewrite Hor. reflexivity. }
  unfold parseMetadata. rewrite Hext.
  change (jsstring_eqb (lit ".mp3") (lit ".mp3")) with true.
  cbv iota. fold d.
  unfold parseMP3. rewrite M. cbn [bind]. rewrite V, Fl. cbn [bind]. rewrite Sz. cbn [bind].
  change (js_and 0 64 =? 0) with true. cbv iota. cbn [bind].
  destruct fuel as [|[|f]]; try lia.
  rewrite (@while_loop_continue _ (mp3_cond (10 + size)) (mp3_body buf 3 (10 + size)) (S f)
             (10, d) (10 + (10 + (1 + lt)), set_title d (or_str (Some T) (title d))));
    [| unfold mp3_cond; cbn [fst]; apply Z.ltb_lt; subst size; lia | exact Hbody].
  rewrite while_loop_stop
    by (unfold mp3_cond; cbn [fst]; apply Z.ltb_ge; subst size; lia).
  cbn [bind snd try_catch]. unfold estimateMP3Duration.
  replace (byteLength buf - (10 + size)) with (byteLength audio) by (subst size; lia).
  reflexivity.
Qed.

Lemma mp3_title_frame_witness :
  exists r,
    parseMetadata 2 (id3_tag (id3_text_frame "TIT2" "Test") ++ repeat x00 32)
      (lit "song.mp3") = Ret r /\
    title r = lit "Tes" /\ duration r = num_div 32 16000.
Proof.
  eexists. split.
  - apply (@mp3_title_frame "Test" (repeat x00 32) (lit "song.mp3") 2).
    + vm_compute. reflexivity.
    + vm_compute. reflexivity.
    + lia.
  - vm_compute. split; reflexivity.
Defined.

(** ** The MIME type of a cover *)

Lemma parseFLACPicture_mime (buf : ArrayBuffer) (offset size : Z) (pd : CoverData) :
  parseFLACPicture buf offset size = Ret (Some pd) -> mime pd <> [].
Proof.
  unfold parseFLACPicture. intros H. ret_inv H; try discriminate H.
  ret_inv E. apply Ret_inj in E. subst a. apply Ret_inj, Some_inj in H. subst pd.
  cbn [mime]. apply or_str_not_empty. discriminate.
Qed.

Lemma parse_mime (buf : ArrayBuffer) (fuel : nat) (offset : Z) (r : M4AResult) :
  parse fuel buf offset = Ret r ->
  r_coverType r = None \/ r_coverType r = Some (lit "image/png")
  \/ r_coverType r = Some (lit "image/jpeg").
Proof.
  apply (@parse_frame buf
           (fun r => r_coverType r = None \/ r_coverType r = Some (lit "image/png")
                     \/ r_coverType r = Some (lit "image/jpeg"))).
  - left. reflexivity.
  - intros r0 v Hr. exact Hr.
  - intros o size f r0 _ _ _ _. cbn [r_coverType]. destruct (f =? 137); auto.
Qed.

(** X25: the MIME type of a returned record is null or a string that is
    not empty, and for a file named [.m4a] it is null, [image/png] or
    [image/jpeg]: a picture reader falls back to [image/jpeg] when the type
    it read is empty. *)
Theorem coverType_not_empty (fuel : nat) (buf : ArrayBuffer) (path : jsstring)
    (r : Metadata) :
  parseMetadata fuel buf path = Ret r ->
  coverType r <> Some [] /\
  (toLowerCase (getFileExtension path) = lit ".m4a" ->
   coverType r = None \/ coverType r = Some (lit "image/png")
   \/ coverType r = Some (lit "image/jpeg")).
Proof.
  intros H. split.
  - refine (@parseMetadata_frame (fun m => coverType m <> Some []) _ _ _ _ _ _
              fuel buf path r _ H).
    + intros m v Hm. exact Hm.
    + intros m t Hm. exact Hm.
    + intros m t Hm. exact Hm.
    + intros m t Hm. exact Hm.
    + intros b o s pd m Hpd _. cbn [coverType set_cover]. intros E.
      apply Some_inj in E. exact (@parseFLACPicture_mime _ _ _ _ Hpd E).
    + intros f b tags m Ht _. cbn [coverType].
      destruct (@parse_mime _ _ _ _ Ht) as [-> | [-> | ->]]; discriminate.
    + discriminate.
  - intros Hext. unfold parseMetadata in H. rewrite Hext in H.
    change (jsstring_eqb (lit ".m4a") (lit ".mp3")) with false in H.
    change (jsstring_eqb (lit ".m4a") (lit ".flac")) with false in H.
    change (jsstring_eqb (lit ".m4a") (lit ".m4a")) with true in H.
    cbv iota in H.
    ret_inv H; ret_done H; try (left; reflexivity).
    unfold parseM4A in E. ret_inv E; ret_done E; try (left; reflexivity).
    ret_inv E0. ret_done E0. cbn [coverType]. eapply parse_mime; eauto.
Qed.

Lemma coverType_not_empty_witness :
  exists r,
    parseMetadata (enough_fuel empty_picture_flac) empty_picture_flac (lit "a.flac") = Ret r /\
    cover r = Some [] /\ coverType r = Some (lit "image/png") /\
    coverType r <> Some [].
Proof.
  eexists. split; [vm_compute; reflexivity|]. split; [reflexivity|].
  split; [reflexivity|].
  apply (@coverType_not_empty (enough_fuel empty_picture_flac) empty_picture_flac
           (lit "a.flac")).
  vm_compute. reflexivity.
Defined.

(** ** The cover is base64 text (C8) *)

Lemma parseFLACPicture_image (buf : ArrayBuffer) (offset size : Z) (pd : CoverData) :
  parseFLACPicture buf offset size = Ret (Some pd) ->
  exists mimeLength descLength imageSize,
    getUint32 buf (offset + 4) = Ret mimeLength /\
    getUint32 buf (offset + 8 + mimeLength) = Ret descLength /\
    getUint32 buf (offset + 28 + mimeLength + descLength) = Ret imageSize /\
    data pd = arrayBufferToBase64
                (slice buf (offset + 32 + mimeLength + descLength)
                           (offset + 32 + mimeLength + descLength + imageSize)).
Proof.
  intros H. unfold parseFLACPicture in H.
  ret_inv H; ret_done H. ret_inv E. ret_done E.
  match goal with
  | H1 : getUint32 buf (offset + 4) = Ret ?ml,
    H2 : getUint32 buf (offset + 4 + 4 + ?ml) = Ret ?dl,
    H3 : getUint32 buf (offset + 4 + 4 + ?ml + (4 + ?dl) + 16) = Ret ?n |- _ =>
      exists ml, dl, n; cbn [data];
      replace (offset + 8 + ml) with (offset + 4 + 4 + ml) by lia;
      replace (offset + 28 + ml + dl) with (offset + 4 + 4 + ml + (4 + dl) + 16) by lia;
      replace (offset + 32 + ml + dl) with (offset + 4 + 4 + ml + (4 + dl) + 16 + 4) by lia;
      auto
  end.
Qed.

Lemma flac_body_source (fuel : nat) (buf : ArrayBuffer) (s : flac_state)
    (c : ctl flac_state) :
  flac_cover_source buf (cover (snd s)) -> flac_body fuel buf s = Ret c ->
  flac_cover_source buf (cover (snd (ctl_state c))).
Proof.
  destruct s as [offset metadata]. unfold flac_body. cbn [snd]. intros Hp H.
  ret_inv H; ret_done H; cbn [ctl_state snd];
    ret_inv E3; try ret_done E3; try exact Hp; try (cbn; exact Hp);
    match goal with
    | Hh : getUint8 buf offset = Ret ?h, Ht : (js_and ?h 127 =? 6) = true,
      Hpic : parseFLACPicture buf (offset + 4) _ = Ret (Some ?pd) |- _ =>
        apply Z.eqb_eq in Ht;
        destruct (@parseFLACPicture_image _ _ _ _ Hpic) as (ml & dl & n & H1 & H2 & H3 & Hd);
        right; exists offset, (slice buf (offset + 36 + ml + dl) (offset + 36 + ml + dl + n));
        split;
        [ exists h, ml, dl, n;
          replace (offset + 8) with (offset + 4 + 4) by lia;
          replace (offset + 12 + ml) with (offset + 4 + 8 + ml) by lia;
          replace (offset + 32 + ml + dl) with (offset + 4 + 28 + ml + dl) by lia;
          repeat split; first [assumption | reflexivity]
        | cbn [cover set_cover]; rewrite Hd; do 3 f_equal; lia ]
    end.
Qed.

Lemma parseFLAC_source (fuel : nat) (buf : ArrayBuffer) (defaults r : Metadata) :
  cover defaults = None -> parseFLAC fuel buf defaults = Ret r ->
  flac_cover_source buf (cover r).
Proof.
  unfold parseFLAC. intros Hp H. ret_inv H; ret_done H; try (left; exact Hp).
  match goal with
  | E : while_loop _ _ _ _ = Ret _ |- _ =>
      apply (while_loop_wf (fun s => flac_cover_source buf (cover (snd s)))) in E;
        [exact E | intros s c; apply flac_body_source | left; exact Hp]
  end.
Qed.

Lemma parse_source (buf : ArrayBuffer) (fuel : nat) (offset : Z) (r : M4AResult) :
  parse fuel buf offset = Ret r -> m4a_cover_source buf (r_cover r).
Proof.
  apply (@parse_frame buf (fun r => m4a_cover_source buf (r_cover r))).
  - left. reflexivity.
  - intros r0 v Hr. exact Hr.
  - intros o size f r0 Hs Ht _ _. right.
    exists o, (slice buf (o + 8) (o + size)). split.
    + exists size. auto.
    + cbn [r_cover]. do 3 f_equal. lia.
Qed.

(** The four header bytes of a metadata block, wherever it is. *)
Lemma flac_block_header (pre body rest : list byte) (isLast : bool) (blockType : Z) :
  0 <= blockType < 128 -> byteLength body < 16777216 ->
  let buf := pre ++ flac_block isLast blockType body ++ rest in
  let o := byteLength pre in
  getUint8 buf o = Ret ((if isLast then 128 else 0) + blockType) /\
  getUint8 buf (o + 1) = Ret (byteLength body / 65536 mod 256) /\
  getUint8 buf (o + 2) = Ret (byteLength body / 256 mod 256) /\
  getUint8 buf (o + 3) = Ret (byteLength body mod 256).
Proof.
  intros Ht Hb buf o.
  pose proof (byteLength_nonneg pre) as Np. pose proof (byteLength_nonneg body) as Nb.
  pose proof (byteLength_nonneg rest) as Nr.
  assert (Hlen : byteLength buf = o + 4 + byteLength body + byteLength rest).
  { subst buf o. unfold flac_block. rewrite !byteLength_app.
    change (byteLength (?x :: be24 ?n ++ body)) with (byteLength ((x :: be24 n) ++ body)).
    rewrite byteLength_app.
    change (byteLength (byte_of_Z ((if isLast then 128 else 0) + blockType)
                          :: be24 (byteLength body))) with 4. lia. }
  rewrite (@getUint8_in buf o), (@getUint8_in buf (o + 1)), (@getUint8_in buf (o + 2)),
    (@getUint8_in buf (o + 3)) by lia.
  rewrite <- (Z.add_0_r o) at 1. subst buf o.
  rewrite !byte_at_app_r by lia.
  unfold flac_block, be24. cbn [map app].
  match goal with |- context [byte_at (?a :: ?b :: ?c :: ?d :: ?r) 0] =>
    destruct (byte_at_four a b c d r) as (-> & -> & -> & ->) end.
  rewrite !u8_byte_of_Z;
    try (apply Z.mod_pos_bound; lia); [|destruct isLast; lia].
  repeat split; reflexivity.
Qed.

Lemma getUint32_in (buf : ArrayBuffer) (off : Z) :
  0 <= off -> off + 4 <= byteLength buf -> exists v, getUint32 buf off = Ret v.
Proof.
  intros H1 H2. unfold getUint32.
  destruct (0 <=? off) eqn:E1; [|lia].
  destruct (off + 4 <=? byteLength buf) eqn:E2; [|lia].
  cbn [andb]. eauto.
Qed.

Lemma flac_picture_length (mimeType description : string) (image : list byte) :
  byteLength (flac_picture mimeType description image)
  = 32 + byteLength (ascii_bytes mimeType) + byteLength (ascii_bytes description)
    + byteLength image.
Proof. unfold flac_picture. rewrite !byteLength_app, !byteLength_be32. lia. Qed.

(** The record of a FLAC file whose blocks are a STREAMINFO block and a
    last picture block. *)
Lemma flac_picture_record (info : list byte) (mimeType description : string)
    (image audio : list byte) (path : jsstring) (fuel : nat) :
  toLowerCase (getFileExtension path) = lit ".flac" ->
  byteLength info < 16777216 ->
  byteLength (flac_picture mimeType description image) < 16777216 ->
  (2 <= fuel)%nat ->
  exists r,
    parseMetadata fuel
      (flac_file (flac_block false 0 info
                  ++ flac_block true 6 (flac_picture mimeType description image)
                  ++ audio)) path = Ret r /\
    cover r = Some (arrayBufferToBase64 image) /\
    coverType r = Some (or_str (Some (trim (map u8 (until_nul (ascii_bytes mimeType)))))
                               (lit "image/jpeg")).
Proof.
  intros Hext Hi Hp Hf.
  set (pic := flac_picture mimeType description image) in *.
  set (d := defaultMetadata path).
  set (sig := ascii_bytes "fLaC").
  set (buf := flac_file (flac_block false 0 info ++ flac_block true 6 pic ++ audio)).
  pose proof (byteLength_nonneg info) as Ni. pose proof (byteLength_nonneg pic) as Npic.
  pose proof (byteLength_nonneg audio) as Na.
  pose proof (byteLength_nonneg (ascii_bytes mimeType)) as Nm.
  pose proof (byteLength_nonneg (ascii_bytes description)) as Nd.
  pose proof (byteLength_nonneg image) as Nim.
  pose proof (flac_picture_length mimeType description image) as Lpic. fold pic in Lpic.
  assert (E1 : buf = sig ++ flac_block false 0 info ++ (flac_block true 6 pic ++ audio)).
  { reflexivity. }
  set (pre2 := sig ++ flac_block false 0 info).
  assert (E2 : buf = pre2 ++ flac_block true 6 pic ++ audio).
  { subst pre2. rewrite E1, <- !app_assoc. reflexivity. }
  assert (L2 : byteLength pre2 = 4 + (4 + byteLength info)).
  { subst pre2. rewrite byteLength_app. change (byteLength sig) with 4.
    unfold flac_block.
    change (byteLength (?x :: be24 ?n ++ info)) with (byteLength ((x :: be24 n) ++ info)).
    rewrite byteLength_app. reflexivity. }
  set (pre3 := pre2 ++ byte_of_Z (128 + 6) :: be24 (byteLength pic)).
  assert (E3 : buf = pre3 ++ pic ++ audio).
  { subst pre3. rewrite E2. unfold flac_block. rewrite <- !app_assoc. reflexivity. }
  assert (L3 : byteLength pre3 = 4 + (4 + byteLength info) + 4).
  { subst pre3. rewrite byteLength_app, L2. reflexivity. }
  assert (Hlen : byteLength buf = 12 + byteLength info + byteLength pic + byteLength audio).
  { rewrite E3, !byteLength_app, L3. lia. }
  destruct (@flac_block_header sig info (flac_block true 6 pic ++ audio) false 0)
    as (A0 & A1 & A2 & A3); [lia|lia|].
  rewrite <- E1 in A0, A1, A2, A3. change (byteLength sig) with 4 in A0, A1, A2, A3.
  destruct (@flac_block_header pre2 pic audio true 6) as (B0 & B1 & B2 & B3); [lia|lia|].
  rewrite <- E2, L2 in B0, B1, B2, B3.
  destruct (@getUint32_in buf (4 + 4 + 10)) as (w10 & W10); [lia|lia|].
  destruct (@getUint32_in buf (4 + 4 + 13)) as (w13 & W13); [lia|lia|].
  assert (Hpic : parseFLACPicture buf (4 + (4 + byteLength info) + 4) (byteLength pic)
                 = Ret (Some {| data := arrayBufferToBase64 image;
                                mime := or_str (Some (trim (map u8 (until_nul
                                                       (ascii_bytes mimeType)))))
                                               (lit "image/jpeg") |})).
  { rewrite E3, <- L3. apply parseFLACPicture_layout; lia. }
  unfold parseMetadata. rewrite Hext.
  change (jsstring_eqb (lit ".flac") (lit ".mp3")) with false.
  change (jsstring_eqb (lit ".flac") (lit ".flac")) with true.
  cbv iota. fold buf. fold d.
  unfold parseFLAC.
  rewrite (@getUint8_in buf 0), (@getUint8_in buf 1), (@getUint8_in buf 2),
    (@getUint8_in buf 3) by lia.
  cbn [bind].
  change (byte_at buf 0) with 102. change (byte_at buf 1) with 76.
  change (byte_at buf 2) with 97. change (byte_at buf 3) with 67.
  change (jsstring_eqb [102; 76; 97; 67] (lit "fLaC")) with true. cbn [negb].
  destruct fuel as [|[|fuel']]; [lia|lia|].
  rewrite (@while_loop_continue _ (flac_cond buf) (flac_body (S (S fuel')) buf)
             (S fuel') (4, d)
             (4 + (4 + byteLength info),
              set_duration d (flac_duration (flac_sampleRate w10)
                                            (flac_totalSamples w10 w13)))).
  2:{ unfold flac_cond. cbn [fst]. apply Z.ltb_lt. lia. }
  2:{ unfold flac_body. rewrite A0, A1, A2, A3. cbn [bind].
      rewrite flac_blockSize_value by (apply Z.mod_pos_bound; lia).
      rewrite be24_value by lia.
      change (js_and (0 + 0) 127 =? 0) with true.
      change (js_and (0 + 0) 128 =? 0) with true. cbv iota.
      rewrite W10, W13. cbn [bind negb]. reflexivity. }
  cbn [while_loop]. unfold flac_cond at 1. cbn [fst].
  replace (4 + (4 + byteLength info) <? byteLength buf) with true
    by (symmetry; apply Z.ltb_lt; lia).
  unfold flac_body at 1. rewrite B0, B1, B2, B3. cbn [bind].
  rewrite flac_blockSize_value by (apply Z.mod_pos_bound; lia).
  rewrite be24_value by lia.
  change (js_and (128 + 6) 127 =? 0) with false.
  change (js_and (128 + 6) 127 =? 4) with false.
  change (js_and (128 + 6) 127 =? 6) with true.
  change (js_and (128 + 6) 128 =? 0) with false. cbv iota.
  rewrite Hpic. cbn [bind negb snd try_catch data mime].
  eexists. split; [reflexivity|]. split; reflexivity.
Qed.

(** C8, amended: a cover in the record the dispatcher returns is base64
    text, the [btoa] encoding of image bytes of the file, which [atob]
    decodes back to those bytes.  For a file named [.flac] the bytes are the
    image of a picture block: the block is of type 6, its data start four
    bytes past its header, and the image follows the image length, as many
    bytes as the length says and the file has.  For a file named [.m4a] they
    are the payload of a [covr] atom, from eight bytes past the atom start
    to the atom end.  A FLAC file made of a STREAMINFO block and a last
    picture block gets the base64 text of exactly its image, and an M4A file
    made of an [ilst] atom with a [covr] atom that of exactly its payload. *)
Theorem cover_is_base64 :
  (forall fuel buf path r c,
      parseMetadata fuel buf path = Ret r -> cover r = Some c ->
      exists offset image,
        c = btoa (map u8 image) /\ atob c = Some (map u8 image) /\
        ((toLowerCase (getFileExtension path) = lit ".flac" /\
          flac_picture_image buf offset image) \/
         (toLowerCase (getFileExtension path) = lit ".m4a" /\
          covr_payload buf offset image))) /\
  (forall buf offset size pd,
      parseFLACPicture buf offset size = Ret (Some pd) ->
      exists mimeLength descLength imageSize,
        getUint32 buf (offset + 4) = Ret mimeLength /\
        getUint32 buf (offset + 8 + mimeLength) = Ret descLength /\
        getUint32 buf (offset + 28 + mimeLength + descLength) = Ret imageSize /\
        let pos := offset + 32 + mimeLength + descLength in
        data pd = arrayBufferToBase64 (slice buf pos (pos + imageSize))) /\
  (forall buf offset result c size,
      ilst_body buf (offset, result) = Ret c ->
      getUint32 buf offset = Ret size ->
      atom_type buf offset = Ret (lit "covr") ->
      r_cover (snd (ctl_state c))
      = Some (arrayBufferToBase64 (slice buf (offset + 8) (offset + size)))) /\
  (forall info mimeType description image audio path fuel,
      toLowerCase (getFileExtension path) = lit ".flac" ->
      byteLength info < 16777216 ->
      byteLength (flac_picture mimeType description image) < 16777216 ->
      (2 <= fuel)%nat ->
      exists r,
        parseMetadata fuel
          (flac_file (flac_block false 0 info
                      ++ flac_block true 6 (flac_picture mimeType description image)
                      ++ audio)) path = Ret r /\
        cover r = Some (btoa (map u8 image))) /\
  (forall first rest path fuel,
      toLowerCase (getFileExtension path) = lit ".m4a" ->
      byteLength (first :: rest) < 4294967296 - 16 ->
      (3 <= fuel)%nat ->
      exists r,
        parseMetadata fuel (mp4_atom "ilst" (mp4_atom "covr" (first :: rest))) path = Ret r /\
        cover r = Some (btoa (map u8 (first :: rest)))).
Proof.
  split; [|split; [|split; [|split]]].
  - intros fuel buf path r c H Hc.
    assert (S : forall ext, toLowerCase (getFileExtension path) = ext ->
                (ext = lit ".flac" /\ flac_cover_source buf (cover r)) \/
                (ext = lit ".m4a" /\ m4a_cover_source buf (cover r)) \/
                cover r = None).
    { intros ext Hext. unfold parseMetadata in H. rewrite Hext in H.
      ret_inv H; ret_done H; try (right; right; reflexivity).
      ret_inv E.
      - right. right.
        apply (@parseMP3_frame (fun m => cover m = None)) in E;
          [exact E | | | | | reflexivity]; intros m v Hm; exact Hm.
      - left. split; [apply jsstring_eqb_eq; assumption|].
        eapply parseFLAC_source; [|eassumption]. reflexivity.
      - right. left. split; [apply jsstring_eqb_eq; assumption|].
        unfold parseM4A in E. ret_inv E; ret_done E; try (left; reflexivity).
        match goal with E' : bind _ _ = Ret _ |- _ => ret_inv E'; ret_done E' end.
        cbn [cover].
        match goal with E' : parse _ _ _ = Ret _ |- _ => apply (@parse_source _ _ _ _ E') end.
      - right. right.
        apply (@parseWAV_frame (fun m => cover m = None)) in E;
          [exact E | | | | | reflexivity]; intros m v Hm; exact Hm.
      - ret_done E. right. right. reflexivity. }
    destruct (S _ eq_refl) as [[He Hs]|[[He Hs]|Hn]]; [| |congruence].
    + destruct Hs as [Hn|(offset & image & Hi & Hs)]; [congruence|].
      rewrite Hc in Hs. apply Some_inj in Hs.
      exists offset, image. split; [exact Hs|]. split.
      * rewrite Hs. apply atob_btoa, bytes_in_range.
      * left. split; assumption.
    + destruct Hs as [Hn|(offset & image & Hi & Hs)]; [congruence|].
      rewrite Hc in Hs. apply Some_inj in Hs.
      exists offset, image. split; [exact Hs|]. split.
      * rewrite Hs. apply atob_btoa, bytes_in_range.
      * right. split; assumption.
  - intros buf offset size pd H. apply (@parseFLACPicture_image _ _ _ _ H).
  - intros buf offset result c size H Hsize Htype. unfold ilst_body in H.
    rewrite Hsize, Htype in H. cbn [bind] in H.
    change (jsstring_eqb (lit "covr") (lit "covr")) with true in H.
    cbv iota in H. ret_inv H. apply Ret_inj in H. subst c.
    ret_inv E. ret_done E.
    replace (offset + 8 + (size - 8)) with (offset + size) by lia.
    unfold atom_advance. destruct (size =? 0); reflexivity.
  - intros info mimeType description image audio path fuel Hext Hi Hp Hf.
    destruct (@flac_picture_record info mimeType description image audio path fuel
                Hext Hi Hp Hf) as (r & Hr & Hc & _).
    exists r. split; [exact Hr|exact Hc].
  - intros first rest path fuel Hext Hn Hf.
    eexists. split; [apply (@m4a_cover_record first rest path fuel Hext Hn Hf)|].
    reflexivity.
Qed.

Lemma cover_is_base64_witness :
  (exists r,
      parseMetadata 2 streaminfo_picture_flac (lit "a.flac") = Ret r /\
      cover r = Some (btoa (map u8 jpeg_stub))) /\
  (exists offset image,
      lit "/9j/4AAQSkZJRg==" = btoa (map u8 image) /\
      atob (lit "/9j/4AAQSkZJRg==") = Some (map u8 image) /\
      ((toLowerCase (getFileExtension (lit "a.m4a")) = lit ".flac" /\
        flac_picture_image cover_m4a offset image) \/
       (toLowerCase (getFileExtension (lit "a.m4a")) = lit ".m4a" /\
        covr_payload cover_m4a offset image))).
Proof.
  destruct cover_is_base64 as (H1 & _ & _ & H4 & _).
  split.
  - apply (H4 (flac_streaminfo 44100 2 16 441000) "image/jpeg"%string ""%string jpeg_stub
              (ascii_bytes "frames") (lit "a.flac") 2%nat).
    + vm_compute. reflexivity.
    + vm_compute. reflexivity.
    + vm_compute. reflexivity.
    + lia.
  - apply (H1 (enough_fuel cover_m4a) cover_m4a (lit "a.m4a")
              (MkMetadata (lit "a") unknown_artist unknown_album (num_of_Z 0)
                 (Some (lit "/9j/4AAQSkZJRg==")) (Some (lit "image/jpeg"))
                 (lit "M4A") (lit "a.m4a"))
              (lit "/9j/4AAQSkZJRg==")).
    + vm_compute. reflexivity.
    + reflexivity.
Defined.

(** C8 as stated fails: the cover of a FLAC file with a picture block is
    the base64 text of the image, of 16 characters for an image of 10
    bytes, and not the 10 bytes. *)
Lemma cover_raw_bytes_counterexample :
  exists r,
    parseMetadata (enough_fuel picture_flac) picture_flac (lit "a.flac") = Ret r /\
    cover r = Some (lit "/9j/4AAQSkZJRg==") /\
    cover r <> Some (map u8 jpeg_stub).
Proof.
  eexists. split; [vm_compute; reflexivity|].
  split; [vm_compute; reflexivity|].
  vm_compute. discriminate.
Qed.

(** ** The sample count of a FLAC file *)

(** X12: in a round of the block loop of [parseFLAC] on a block of type 0,
    and so in [parseFLAC] on a file whose one block is of type 0, the
    duration stored is computed from the two words read at 10 and at 13 bytes
    into the block data: the sample rate is the 20 bits on top of the first
    word, and the sample count is that same number with the low four bits of
    the second word or-ed in.  While the first word is below 2^31, a sample
    rate below 2^19, the count is at least the rate and less than the rate
    plus 16, whatever the file declares; from there on it is negative. *)
Theorem flac_totalSamples_near_sampleRate :
  (forall fuel buf offset metadata blockHeader c,
      getUint8 buf offset = Ret blockHeader -> js_and blockHeader 127 = 0 ->
      flac_body fuel buf (offset, metadata) = Ret c ->
      exists w10 w13,
        getUint32 buf (offset + 4 + 10) = Ret w10 /\
        getUint32 buf (offset + 4 + 13) = Ret w13 /\
        let rate := w10 / 4096 in
        let total := flac_totalSamples w10 w13 in
        snd (ctl_state c) = set_duration metadata (flac_duration rate total) /\
        (w10 < 2147483648 -> rate <= total < rate + 16) /\
        (2147483648 <= w10 -> total < 0)) /\
  (forall info audio fuel defaults,
      byteLength info < 16777216 ->
      17 <= byteLength info + byteLength audio ->
      (1 <= fuel)%nat ->
      let buf := flac_file (flac_block true 0 info ++ audio) in
      exists w10 w13,
        getUint32 buf (4 + 4 + 10) = Ret w10 /\
        getUint32 buf (4 + 4 + 13) = Ret w13 /\
        let rate := w10 / 4096 in
        let total := flac_totalSamples w10 w13 in
        parseFLAC fuel buf defaults
        = Ret (set_duration defaults (flac_duration rate total)) /\
        (w10 < 2147483648 -> rate <= total < rate + 16) /\
        (2147483648 <= w10 -> total < 0)).
Proof.
  split.
  - intros fuel buf offset metadata h c Hh Ht H.
    unfold flac_body in H. rewrite Hh in H. cbn [bind] in H. rewrite Ht in H.
    change (0 =? 0) with true in H. cbv iota in H.
    ret_inv H; ret_done H; cbn [ctl_state snd];
      match goal with
      | E : bind _ _ = Ret _ |- _ =>
          destruct (getUint32 buf (offset + 4 + 10)) as [w10| |] eqn:W10;
            cbn [bind] in E; try discriminate E;
          destruct (getUint32 buf (offset + 4 + 13)) as [w13| |] eqn:W13;
            cbn [bind] in E; try discriminate E;
          apply Ret_inj in E; subst
      end;
      exists w10, w13;
      destruct (getUint32_Ret _ _ W10) as (_ & _ & R10);
      destruct (getUint32_Ret _ _ W13) as (_ & _ & R13);
      destruct (@flac_totalSamples_bounds w10 w13 R10 R13) as (Hr & Hlow & Hhigh);
      rewrite Hr in Hlow;
      (split; [reflexivity|]); (split; [reflexivity|]); cbv zeta;
      (split; [rewrite Hr; reflexivity|split; assumption]).
  - intros info audio fuel defaults Hi Hlen Hf buf.
    pose proof (byteLength_nonneg info) as Ni. pose proof (byteLength_nonneg audio) as Na.
    set (sig := ascii_bytes "fLaC").
    assert (E1 : buf = sig ++ flac_block true 0 info ++ audio) by reflexivity.
    assert (L : byteLength buf = 8 + byteLength info + byteLength audio).
    { rewrite E1, !byteLength_app. change (byteLength sig) with 4. unfold flac_block.
      change (byteLength (?x :: be24 ?n ++ info)) with (byteLength ((x :: be24 n) ++ info)).
      rewrite byteLength_app. change (byteLength (_ :: be24 _)) with 4. lia. }
    destruct (@flac_block_header sig info audio true 0) as (A0 & A1 & A2 & A3); [lia|lia|].
    rewrite <- E1 in A0, A1, A2, A3. change (byteLength sig) with 4 in A0, A1, A2, A3.
    destruct (@getUint32_in buf (4 + 4 + 10)) as (w10 & W10); [lia|lia|].
    destruct (@getUint32_in buf (4 + 4 + 13)) as (w13 & W13); [lia|lia|].
    exists w10, w13.
    destruct (getUint32_Ret _ _ W10) as (_ & _ & R10).
    destruct (getUint32_Ret _ _ W13) as (_ & _ & R13).
    destruct (@flac_totalSamples_bounds w10 w13 R10 R13) as (Hr & Hlow & Hhigh).
    rewrite Hr in Hlow.
    split; [exact W10|]. split; [exact W13|]. cbv zeta.
    split; [|split; assumption].
    unfold parseFLAC.
    rewrite (@getUint8_in buf 0), (@getUint8_in buf 1), (@getUint8_in buf 2),
      (@getUint8_in buf 3) by lia.
    cbn [bind].
    change (byte_at buf 0) with 102. change (byte_at buf 1) with 76.
    change (byte_at buf 2) with 97. change (byte_at buf 3) with 67.
    change (jsstring_eqb [102; 76; 97; 67] (lit "fLaC")) with true. cbn [negb].
    destruct fuel as [|fuel']; [lia|].
    cbn [while_loop]. unfold flac_cond at 1. cbn [fst].
    replace (4 <? byteLength buf) with true by (symmetry; apply Z.ltb_lt; lia).
    unfold flac_body at 1. rewrite A0, A1, A2, A3. cbn [bind].
    change (js_and (128 + 0) 127 =? 0) with true.
    change (js_and (128 + 0) 128 =? 0) with false. cbv iota.
    rewrite W10, W13. cbn [bind negb snd]. rewrite Hr. reflexivity.
Qed.

Lemma flac_totalSamples_near_sampleRate_witness :
  exists w10 w13,
    getUint32 streaminfo_flac (4 + 4 + 10) = Ret w10 /\
    getUint32 streaminfo_flac (4 + 4 + 13) = Ret w13 /\
    let rate := w10 / 4096 in
    let total := flac_totalSamples w10 w13 in
    parseFLAC 1 streaminfo_flac (defaultMetadata (lit "a.flac"))
    = Ret (set_duration (defaultMetadata (lit "a.flac")) (flac_duration rate total)) /\
    (w10 < 2147483648 -> rate <= total < rate + 16) /\
    (2147483648 <= w10 -> total < 0).
Proof.
  destruct flac_totalSamples_near_sampleRate as [_ H].
  apply (H (flac_streaminfo 44100 2 16 441000) [] 1%nat (defaultMetadata (lit "a.flac"))).
  - vm_compute. reflexivity.
  - vm_compute. discriminate.
  - lia.
Defined.
